(** * Strudel manifest builder ([create-json.py]): shallow embedding

    The script scans a folder of audio samples, classifies every file from
    its relative path and file-name stem (tempo token, key token, loop
    folder, drum group, instrument folder), accumulates the files in
    buckets that are either plain lists or pitch maps, and prints the
    sorted manifest.

    Conventions of the embedding.
    - A Python [str] is a [string]; a character is a code point below 256.
      On that range [str.lower], the classes [\d], [A-Za-z], [a-z0-9] of
      [re] and NFC normalisation (the identity there) are modelled exactly.
    - A Python [int] is a [Z].
    - A [dict] is an association list in insertion order with unique keys.
    - A raised exception ends the run: [Raised]. *)

From Stdlib Require Import Bool Arith List ZArith Lia.
From Stdlib Require Import Ascii String DecimalString.
From Stdlib Require Import Sorting.Sorted Sorting.Permutation.
Import ListNotations.

Local Open Scope string_scope.
Local Open Scope list_scope.
Local Open Scope nat_scope.

Set Implicit Arguments.

(** ** Characters and the string builtins the script uses *)

Module Chars.

Definition code (c : ascii) : nat := nat_of_ascii c.

Definition between (lo hi : nat) (c : ascii) : bool :=
  (lo <=? code c) && (code c <=? hi).

(** [\d] on code points below 256: the ASCII digits. *)
Definition is_digit (c : ascii) : bool := between 48 57 c.
Definition is_upper (c : ascii) : bool := between 65 90 c.
Definition is_lower (c : ascii) : bool := between 97 122 c.
(** [[A-Za-z]] *)
Definition is_alpha (c : ascii) : bool := is_upper c || is_lower c.
(** [[A-Za-z0-9]] *)
Definition is_alnum (c : ascii) : bool := is_alpha c || is_digit c.
(** [[a-z0-9]] *)
Definition is_slug_char (c : ascii) : bool := is_lower c || is_digit c.
(** [[A-Ga-g]] *)
Definition is_note_letter (c : ascii) : bool := between 65 71 c || between 97 103 c.
(** [[#b]] *)
Definition is_accidental (c : ascii) : bool :=
  Ascii.eqb c "#" || Ascii.eqb c "b".
(** [[ _\-]] *)
Definition is_sep (c : ascii) : bool :=
  Ascii.eqb c " " || Ascii.eqb c "_" || Ascii.eqb c "-".
(** [[ _\-\d]] *)
Definition is_sep_or_digit (c : ascii) : bool := is_sep c || is_digit c.

Definition newline : ascii := ascii_of_nat 10.

(** [str.lower] on one code point below 256: A-Z, and the Latin-1 capitals
    U+00C0..U+00D6 and U+00D8..U+00DE, move up by 32. *)
Definition lower_char (c : ascii) : ascii :=
  if is_upper c || between 192 214 c || between 216 222 c
  then ascii_of_nat (code c + 32)
  else c.

Definition digit_val (c : ascii) : Z := Z.of_nat (code c) - 48.

End Chars.
Import Chars.

Module Str.

Fixpoint map (f : ascii -> ascii) (s : string) : string :=
  match s with
  | EmptyString => EmptyString
  | String c s' => String (f c) (map f s')
  end.

(** [s.lower()] *)
Definition lower (s : string) : string := map lower_char s.

(** [s[:-1]] *)
Fixpoint drop_last (s : string) : string :=
  match s with
  | EmptyString => EmptyString
  | String _ EmptyString => EmptyString
  | String c s' => String c (drop_last s')
  end.

(** [s[:n]] *)
Fixpoint take (n : nat) (s : string) : string :=
  match n, s with
  | S k, String c s' => String c (take k s')
  | _, _ => EmptyString
  end.

(** [s[n:]] *)
Fixpoint drop (n : nat) (s : string) : string :=
  match n, s with
  | S k, String _ s' => drop k s'
  | _, _ => s
  end.

(** [s.endswith(t)] *)
Definition endswith (s t : string) : bool :=
  String.eqb (drop (String.length s - String.length t) s) t.

(** [s.replace(a, b)] for one-character [a] and [b] *)
Definition replace_char (a b : ascii) (s : string) : string :=
  map (fun c => if Ascii.eqb c a then b else c) s.

(** [s.split(sep)] for a one-character separator: never the empty list *)
Fixpoint split (sep : ascii) (s : string) : list string :=
  match s with
  | EmptyString => [EmptyString]
  | String c s' =>
      if Ascii.eqb c sep then EmptyString :: split sep s'
      else match split sep s' with
           | h :: t => String c h :: t
           | [] => [String c EmptyString]
           end
  end.

Fixpoint lstrip (c : ascii) (s : string) : string :=
  match s with
  | EmptyString => EmptyString
  | String d s' => if Ascii.eqb d c then lstrip c s' else s
  end.

Fixpoint rstrip (c : ascii) (s : string) : string :=
  match s with
  | EmptyString => EmptyString
  | String d s' =>
      let t := rstrip c s' in
      if Ascii.eqb d c && String.eqb t "" then EmptyString else String d t
  end.

(** [s.strip(c)] for a one-character set *)
Definition strip (c : ascii) (s : string) : string := rstrip c (lstrip c s).

(** [s.rfind(c)]: the index of the last [c]; [None] stands for -1 *)
Fixpoint rfind (c : ascii) (s : string) : option nat :=
  match s with
  | EmptyString => None
  | String d s' =>
      match rfind c s' with
      | Some i => Some (S i)
      | None => if Ascii.eqb d c then Some 0 else None
      end
  end.

(** [int(s)] for a string of ASCII digits *)
Fixpoint int_acc (acc : Z) (s : string) : Z :=
  match s with
  | EmptyString => acc
  | String c s' => int_acc (10 * acc + digit_val c) s'
  end.

Definition int (s : string) : Z := int_acc 0 s.

(** [str(n)] for an [int] *)
Definition of_int (n : Z) : string := NilZero.string_of_int (Z.to_int n).

(** [x in xs] for a list or set of strings *)
Definition mem (x : string) (xs : list string) : bool :=
  existsb (String.eqb x) xs.

End Str.

(** [lc] *)
Definition lc (s : string) : string := Str.lower s.

(** ** The fragment of [re] the three patterns use

    A backtracking matcher in continuation-passing style, with Python's
    priorities: the left alternative first, [?] greedy.  The state is
    the offset of the cursor, the text after it and the groups captured so
    far. *)

Module Re.

Inductive regex : Type :=
| Bol                                  (* ^ *)
| Eol                                  (* $ *)
| Cls (p : ascii -> bool)              (* a character class *)
| Seq (r1 r2 : regex)                  (* r1 r2 *)
| Alt (r1 r2 : regex)                  (* r1|r2 *)
| Opt (r : regex)                      (* r? *)
| Grp (n : nat) (r : regex)            (* capturing group number n *)
| Ahead (r : regex).                   (* (?=r) *)

Record mstate : Type := MState {
  pos : nat;
  rest : string;
  groups : list (nat * string)
}.

Definition advance (m : mstate) (s' : string) : mstate :=
  MState (S (pos m)) s' (groups m).

Definition capture (n : nat) (m0 m1 : mstate) : mstate :=
  MState (pos m1) (rest m1)
         ((n, Str.take (pos m1 - pos m0) (rest m0)) :: groups m1).

(** [$] without [re.MULTILINE]: the end of the string, or just before a
    newline that is the last character. *)
Definition at_eol (s : string) : bool :=
  match s with
  | EmptyString => true
  | String c EmptyString => Ascii.eqb c newline
  | _ => false
  end.

Fixpoint exec (r : regex) (m : mstate) (k : mstate -> option mstate)
  : option mstate :=
  match r with
  | Bol => if pos m =? 0 then k m else None
  | Eol => if at_eol (rest m) then k m else None
  | Cls p =>
      match rest m with
      | String c s' => if p c then k (advance m s') else None
      | EmptyString => None
      end
  | Seq r1 r2 => exec r1 m (fun m1 => exec r2 m1 k)
  | Alt r1 r2 =>
      match exec r1 m k with
      | Some m' => Some m'
      | None => exec r2 m k
      end
  | Opt r1 =>
      match exec r1 m k with
      | Some m' => Some m'
      | None => k m
      end
  | Grp n r1 => exec r1 m (fun m1 => k (capture n m m1))
  | Ahead r1 =>
      match exec r1 m Some with
      | Some _ => k m
      | None => None
      end
  end.

(** a match attempt anchored at the cursor *)
Definition match_at (r : regex) (p : nat) (s : string) : option mstate :=
  exec r (MState p s []) Some.

(** [pattern.search]: the attempt at the leftmost offset that succeeds;
    [s] is the text from offset [p] on. *)
Fixpoint search_from (r : regex) (p : nat) (s : string) : option mstate :=
  match match_at r p s with
  | Some m => Some m
  | None =>
      match s with
      | EmptyString => None
      | String _ s' => search_from r (S p) s'
      end
  end.

Definition search (r : regex) (s : string) : option mstate :=
  search_from r 0 s.

(** [pattern.finditer]: the successive non-overlapping matches, left to
    right; [skip] counts the characters still covered by the match found
    last.  (After an empty match the scan moves on by one character; none
    of the patterns below matches the empty string.) *)
Fixpoint scan (r : regex) (p : nat) (s : string) (skip : nat) : list mstate :=
  match skip with
  | S j =>
      match s with
      | EmptyString => []
      | String _ s' => scan r (S p) s' j
      end
  | O =>
      match match_at r p s with
      | Some m =>
          m :: match s with
               | EmptyString => []
               | String _ s' => scan r (S p) s' (pos m - p - 1)
               end
      | None =>
          match s with
          | EmptyString => []
          | String _ s' => scan r (S p) s' 0
          end
      end
  end.

Definition finditer (r : regex) (s : string) : list mstate := scan r 0 s 0.

(** [m.group(n)]: [None] when the group took no part in the match *)
Fixpoint assoc (n : nat) (gs : list (nat * string)) : option string :=
  match gs with
  | [] => None
  | (i, t) :: gs' => if i =? n then Some t else assoc n gs'
  end.

Definition group (n : nat) (m : mstate) : option string := assoc n (groups m).

(** [m.group(n) or ""] *)
Definition group_or_empty (n : nat) (m : mstate) : string :=
  match group n m with
  | Some t => t
  | None => ""
  end.

(** a literal word *)
Fixpoint lit (w : string) : regex :=
  match w with
  | EmptyString => Opt (Cls (fun _ => false))
  | String c EmptyString => Cls (Ascii.eqb c)
  | String c w' => Seq (Cls (Ascii.eqb c)) (lit w')
  end.

End Re.
Import Re.

(** ** Token normaliser *)

(** [SHARP2FLAT] *)
Definition SHARP2FLAT : list (string * string) :=
  [("c#", "db"); ("d#", "eb"); ("f#", "f#"); ("g#", "ab"); ("a#", "bb")].

(** [d.get(k, default)] on a string table *)
Fixpoint table_get (d : list (string * string)) (k default : string) : string :=
  match d with
  | [] => default
  | (k', v) :: d' => if String.eqb k' k then v else table_get d' k default
  end.

Definition normalize_note (note : string) : string :=
  let n := lc note in
  if Str.endswith n "#" then table_get SHARP2FLAT n n
  else if Str.endswith n "b" then n
  else n.

(** ** Detectors *)

(** [(?:^|[ _\-])(\d{2,3})(?=$|[ _\-])] *)
Definition BPM_TOKEN : regex :=
  Seq (Alt Bol (Cls is_sep))
      (Seq (Grp 1 (Seq (Cls is_digit) (Seq (Cls is_digit) (Opt (Cls is_digit)))))
           (Ahead (Alt Eol (Cls is_sep)))).

(** [(?:^|[^A-Za-z])([A-Ga-g])([#b]?)(\d)(?=[^A-Za-z0-9]|$)] *)
Definition KEY_WITH_OCT : regex :=
  Seq (Alt Bol (Cls (fun c => negb (is_alpha c))))
      (Seq (Grp 1 (Cls is_note_letter))
           (Seq (Grp 2 (Opt (Cls is_accidental)))
                (Seq (Grp 3 (Cls is_digit))
                     (Ahead (Alt (Cls (fun c => negb (is_alnum c))) Eol))))).

(** [(?:^|[ _\-])([A-Ga-g])([#b]?)(maj|min|m)?(?=$|[ _\-\d])] *)
Definition KEY_TOKEN : regex :=
  Seq (Alt Bol (Cls is_sep))
      (Seq (Grp 1 (Cls is_note_letter))
           (Seq (Grp 2 (Opt (Cls is_accidental)))
                (Seq (Opt (Grp 3 (Alt (lit "maj") (Alt (lit "min") (lit "m")))))
                     (Ahead (Alt Eol (Cls is_sep_or_digit)))))).

Definition get_bpm (stem : string) : option Z :=
  let s := lc stem in
  let cands := List.map (fun m => Str.int (group_or_empty 1 m)) (finditer BPM_TOKEN s) in
  let cands := List.filter (fun b => (40 <=? b)%Z && (b <? 200)%Z) cands in
  match cands with
  | [] => None
  | _ => Some (List.last cands 0%Z)
  end.

Record key_info : Type := KeyInfo {
  root : string;
  minor : bool;
  oct : option Z
}.

Definition get_key (stem : string) : option key_info :=
  let s := lc stem in
  match search KEY_WITH_OCT s with
  | Some m =>
      let root := normalize_note (group_or_empty 1 m ++ group_or_empty 2 m) in
      Some (KeyInfo root false (Some (Str.int (group_or_empty 3 m))))
  | None =>
      match search KEY_TOKEN s with
      | Some m =>
          let root := normalize_note (group_or_empty 1 m ++ group_or_empty 2 m) in
          let qual := Str.lower (group_or_empty 3 m) in
          Some (KeyInfo root (Str.mem qual ["m"; "min"]) None)
      | None => None
      end
  end.

(** ** Path helpers *)

(** [re.sub(r"[^a-z0-9]+", "_", s)]: every maximal run of characters
    outside [[a-z0-9]] becomes one underscore; [in_run] tells that the
    previous character belonged to such a run. *)
Fixpoint sub_runs (in_run : bool) (s : string) : string :=
  match s with
  | EmptyString => EmptyString
  | String c s' =>
      if is_slug_char c then String c (sub_runs false s')
      else if in_run then sub_runs true s'
      else String "_" (sub_runs true s')
  end.

Definition slug (s : string) : string := Str.strip "_" (sub_runs false (lc s)).

(** [PurePosixPath(rel).name] for a relative path as [as_posix] prints it
    (components separated by single slashes, none empty). *)
Definition path_name (rel : string) : string := List.last (Str.split "/" rel) "".

(** the index at which [Path.suffix] starts: the last dot, when it is
    neither the first nor the last character of the name *)
Definition suffix_index (name : string) : option nat :=
  match Str.rfind "." name with
  | Some i => if (0 <? i) && (i <? String.length name - 1) then Some i else None
  | None => None
  end.

Definition path_suffix (rel : string) : string :=
  let name := path_name rel in
  match suffix_index name with
  | Some i => Str.drop i name
  | None => ""
  end.

Definition path_stem (rel : string) : string :=
  let name := path_name rel in
  match suffix_index name with
  | Some i => Str.take i name
  | None => name
  end.

Definition AUDIO_EXTS : list string :=
  [".wav"; ".aif"; ".aiff"; ".flac"; ".mp3"; ".ogg"].

Definition GENERIC_FOLDERS : list string :=
  ["loops"; "loop"; "one shots"; "oneshots"; "one_shots"; "samples"; "audio";
   "stems"; "custom"; "customs"; "sounds"; "sound"; "fx"; "sfx"; "effects";
   "drums"].

Definition DRUM_LOOP_GROUPS : list (string * string) :=
  [("breaks", "breaks"); ("claps", "claps"); ("shakers", "shakers");
   ("woodblock", "woodblock"); ("woodblck", "woodblock")].

Definition has_seg (rel name : string) : bool :=
  existsb (fun seg => String.eqb (slug seg) name) (Str.split "/" rel).

Definition is_loops_folder (rel : string) : bool :=
  has_seg rel "loop" || has_seg rel "loops".

Definition is_drums_loops (rel : string) : bool :=
  has_seg rel "drums" && is_loops_folder rel.

(** [d[k]] guarded by [k in d], on a string table *)
Fixpoint table_find (d : list (string * string)) (k : string) : option string :=
  match d with
  | [] => None
  | (k', v) :: d' => if String.eqb k' k then Some v else table_find d' k
  end.

Fixpoint detect_in (segs : list string) : option string :=
  match segs with
  | [] => None
  | seg :: segs' =>
      match table_find DRUM_LOOP_GROUPS (slug seg) with
      | Some g => Some g
      | None => detect_in segs'
      end
  end.

Definition detect_drums_group (rel : string) : option string :=
  detect_in (Str.split "/" rel).

(** [x or "inst"] *)
Definition or_inst (x : string) : string :=
  if String.eqb x "" then "inst" else x.

(** the [for] loop of [guess_instrument] over [reversed(segs[:-1])] *)
Fixpoint first_specific (segs : list string) : option string :=
  match segs with
  | [] => None
  | seg :: segs' =>
      if negb (Str.mem (Str.replace_char "_" " " seg) GENERIC_FOLDERS) then
        let seg :=
          if Str.endswith seg "s" && negb (Str.endswith seg "ss")
          then Str.drop_last seg else seg in
        Some (or_inst seg)
      else first_specific segs'
  end.

Definition guess_instrument (rel : string) : string :=
  let segs := List.map slug (Str.split "/" rel) in
  match first_specific (List.rev (List.removelast segs)) with
  | Some seg => seg
  | None => or_inst (List.hd "" (Str.split "_" (slug (path_stem rel))))
  end.

(** [walk_audio], over the regular files of the tree in traversal order,
    each given by its path relative to the root *)
Definition is_audio (rel : string) : bool :=
  Str.mem (Str.lower (path_suffix rel)) AUDIO_EXTS.

Definition walk_audio (tree : list string) : list string :=
  List.filter is_audio tree.

(** ** Dictionaries and buckets *)

Module Dict.

Section Ops.
Variable V : Type.

Definition t : Type := list (string * V).

(** [d.get(k)] *)
Fixpoint get (d : t) (k : string) : option V :=
  match d with
  | [] => None
  | (k', v) :: d' => if String.eqb k' k then Some v else get d' k
  end.

(** [d[k] = v]: in place when the key exists, appended otherwise *)
Fixpoint set (d : t) (k : string) (v : V) : t :=
  match d with
  | [] => [(k, v)]
  | (k', v') :: d' =>
      if String.eqb k' k then (k, v) :: d' else (k', v') :: set d' k v
  end.

(** [k in d] *)
Definition mem (d : t) (k : string) : bool :=
  match get d k with Some _ => true | None => false end.

(** [d.setdefault(k, v)], the dictionary afterwards *)
Definition setdefault (d : t) (k : string) (v : V) : t :=
  if mem d k then d else set d k v.

Definition keys (d : t) : list string := List.map fst d.

End Ops.

End Dict.

Inductive bucket : Type :=
| BList (l : list string)
| BMap (m : Dict.t (list string)).

Definition buckets : Type := Dict.t bucket.

Inductive exn : Type := AttributeError | KeyError.

Inductive outcome (A : Type) : Type :=
| Ok (a : A)
| Raised (e : exn).
Arguments Ok {A} a.
Arguments Raised {A} e.

(** [if rel not in l: l.append(rel)] *)
Definition append_new (l : list string) (rel : string) : list string :=
  if Str.mem rel l then l else l ++ [rel].

(** [m.setdefault(label, []); if rel not in m[label]: m[label].append(rel)] *)
Definition add_under (m : Dict.t (list string)) (label rel : string)
  : Dict.t (list string) :=
  let m1 := Dict.setdefault m label [] in
  match Dict.get m1 label with
  | Some l => Dict.set m1 label (append_new l rel)
  | None => m1
  end.

(** [buckets.setdefault(key, []); if rel not in buckets[key]:
    buckets[key].append(rel)].  On a pitch map, [in] tests the labels and
    [append] does not exist. *)
Definition add_to_list (b : buckets) (key rel : string) : outcome buckets :=
  let b1 := Dict.setdefault b key (BList []) in
  match Dict.get b1 key with
  | Some (BList l) => Ok (Dict.set b1 key (BList (append_new l rel)))
  | Some (BMap m) => if Dict.mem m rel then Ok b1 else Raised AttributeError
  | None => Raised KeyError
  end.

Definition ensure_map (bk : bucket) : bucket :=
  match bk with
  | BMap m => BMap m
  | BList l => BMap [("unpitched", match l with [] => [] | _ => l end)]
  end.

(** [buckets.get(keyname, default)] *)
Definition get_or (b : buckets) (keyname : string) (default : bucket) : bucket :=
  match Dict.get b keyname with
  | Some bk => bk
  | None => default
  end.

Definition add_pitched (b : buckets) (keyname pitch rel : string)
  : outcome buckets :=
  match ensure_map (get_or b keyname (BMap [])) with
  | BMap m => Ok (Dict.set b keyname (BMap (add_under m pitch rel)))
  | BList _ => Raised AttributeError
  end.

Definition add_unpitched (b : buckets) (keyname rel : string)
  : outcome buckets :=
  match get_or b keyname (BList []) with
  | BMap m => Ok (Dict.set b keyname (BMap (add_under m "unpitched" rel)))
  | BList _ => add_to_list b keyname rel
  end.

(** ** The per-file decision and the main loop *)

Inductive decision : Type :=
| DrumLoop (key : string)
| GenericLoop (key : string)
| PitchedShot (keyname pitch : string)
| PlainShot (keyname : string).

(** [f"_{bpm}" if bpm is not None else ""] *)
Definition bpm_suffix (bpm : option Z) : string :=
  match bpm with
  | Some b => ("_" ++ Str.of_int b)%string
  | None => ""
  end.

Definition generic_loop_key (prefix : string) (bpm : option Z)
  (keyi : option key_info) : string :=
  match bpm, keyi with
  | Some b, Some k =>
      let loop_key := (root k ++ (if minor k then "m" else ""))%string in
      (prefix ++ "_" ++ Str.of_int b ++ "_" ++ loop_key)%string
  | Some b, None => (prefix ++ "_" ++ Str.of_int b)%string
  | None, _ => (prefix ++ "_loops")%string
  end.

Definition is_some {A : Type} (o : option A) : bool :=
  match o with Some _ => true | None => false end.

(** the drum group that sends a loop to the drum branch: [is_drums_loops]
    holds and [grp] is a non-empty string *)
Definition drum_branch (rel : string) : option string :=
  if is_drums_loops rel then
    match detect_drums_group rel with
    | Some grp => if String.eqb grp "" then None else Some grp
    | None => None
    end
  else None.

Definition classify (prefix rel stem : string) : decision :=
  let bpm := get_bpm stem in
  let keyi := get_key stem in
  if is_loops_folder rel || (is_some bpm && is_some keyi) then
    match drum_branch rel with
    | Some grp => DrumLoop (prefix ++ "_" ++ grp ++ bpm_suffix bpm)%string
    | None => GenericLoop (generic_loop_key prefix bpm keyi)
    end
  else
    let instrument := guess_instrument rel in
    let keyname := (prefix ++ "_" ++ instrument)%string in
    match keyi with
    | Some k =>
        let pitch :=
          (root k ++ Str.of_int (match oct k with Some o => o | None => 4%Z end))%string in
        PitchedShot keyname pitch
    | None => PlainShot keyname
    end.

Definition contribute (b : buckets) (d : decision) (rel : string)
  : outcome buckets :=
  match d with
  | DrumLoop key => add_to_list b key rel
  | GenericLoop key => add_to_list b key rel
  | PitchedShot keyname pitch => add_pitched b keyname pitch rel
  | PlainShot keyname => add_unpitched b keyname rel
  end.

(** [unicodedata.normalize("NFC", rel)]: the identity below U+0100 *)
Definition nfc (s : string) : string := s.

(** one turn of the [for] loop of [main], for the file at relative path [p] *)
Definition step (prefix : string) (b : buckets) (p : string) : outcome buckets :=
  let rel := nfc p in
  let stem := path_stem p in
  contribute b (classify prefix rel stem) rel.

Fixpoint run (prefix : string) (b : buckets) (files : list string)
  : outcome buckets :=
  match files with
  | [] => Ok b
  | p :: files' =>
      match step prefix b p with
      | Ok b' => run prefix b' files'
      | Raised e => Raised e
      end
  end.

(** ** The assembler *)

Section Sorting.
Variable A : Type.
Variable leb : A -> A -> bool.

Fixpoint insert_sorted (x : A) (l : list A) : list A :=
  match l with
  | [] => [x]
  | y :: l' => if leb x y then x :: l else y :: insert_sorted x l'
  end.

(** [sorted(l)]: the stable sort of [l] *)
Fixpoint sorted (l : list A) : list A :=
  match l with
  | [] => []
  | x :: l' => insert_sorted x (sorted l')
  end.

End Sorting.

(** [sorted] on strings: by code points *)
Definition sorted_strings (l : list string) : list string := sorted String.leb l.

(** [sorted(d.items())]: the keys of a dictionary are distinct, so the
    pairs are ordered by key alone *)
Definition sorted_items (V : Type) (d : Dict.t V) : Dict.t V :=
  sorted (fun x y => String.leb (fst x) (fst y)) d.

Inductive jvalue : Type :=
| JStr (s : string)
| JList (l : list string)
| JMap (m : Dict.t (list string)).

Definition manifest : Type := Dict.t jvalue.

Definition sort_map (d : Dict.t (list string)) : Dict.t (list string) :=
  List.map (fun kv => (fst kv, sorted_strings (snd kv))) (sorted_items d).

Definition sort_bucket (v : bucket) : jvalue :=
  match v with
  | BMap d => JMap (sort_map d)
  | BList l => JList (sorted_strings l)
  end.

Definition assemble (base : string) (b : buckets) : manifest :=
  let manifest0 : manifest := [("_base", JStr base)] in
  let manifest1 :=
    List.fold_left (fun m kv => Dict.set m (fst kv) (sort_bucket (snd kv)))
                   b manifest0 in
  sorted_items manifest1.

(** [args.prefix or slug(root.name)] *)
Definition resolve_prefix (prefix_arg : option string) (root_name : string)
  : string :=
  match prefix_arg with
  | Some p => if String.eqb p "" then slug root_name else p
  | None => slug root_name
  end.

(** [main] up to line 155: what is handed to [json.dumps], or the exception
    raised before that; the printing itself is not part of the model *)
Definition main (prefix_arg : option string) (root_name base : string)
  (tree : list string) : outcome manifest :=
  let prefix := resolve_prefix prefix_arg root_name in
  match run prefix [] (walk_audio tree) with
  | Ok b => Ok (assemble base b)
  | Raised e => Raised e
  end.

Example get_bpm_ex1 : get_bpm "Piano_120_cm" = Some 120%Z.
Proof. vm_compute. reflexivity. Qed.
Example get_bpm_ex2 : get_bpm "313" = None.
Proof. vm_compute. reflexivity. Qed.
Example get_bpm_ex3 : get_bpm "90-loop 128_x" = Some 128%Z.
Proof. vm_compute. reflexivity. Qed.
Example get_key_ex1 : get_key "Piano_120_cm" = Some (KeyInfo "c" true None).
Proof. vm_compute. reflexivity. Qed.
Example get_key_ex2 : get_key "Bass_C#3" = Some (KeyInfo "db" false (Some 3%Z)).
Proof. vm_compute. reflexivity. Qed.
Example get_key_ex3 : get_key "Snare_Hit" = None.
Proof. vm_compute. reflexivity. Qed.

Example slug_ex1 : slug "One Shots!" = "one_shots".
Proof. vm_compute. reflexivity. Qed.
Example guess_ex1 : guess_instrument "Custom/Snares/Snare_Hit.wav" = "snare".
Proof. vm_compute. reflexivity. Qed.
(** the drum group is read from the folders: a file name is no group *)
Example drum_group_ex1 :
  detect_drums_group "drums/loops/Breaks/x_120.wav" = Some "breaks" /\
  detect_drums_group "drums/loops/Breaks_120.wav" = None.
Proof. vm_compute. split; reflexivity. Qed.
Example main_ex1 :
  main (Some "p") "root" "http://x/"
       ["drums/loops/Breaks/x_120.wav"; "loops/Piano_120_cm.wav";
        "one shots/Bass/Bass_C3.wav"; "Custom/Snares/Snare_Hit.wav";
        "one shots/Bass/thud.wav"; "readme.txt"]
  = Ok [("_base", JStr "http://x/");
        ("p_120_cm", JList ["loops/Piano_120_cm.wav"]);
        ("p_bass", JMap [("c3", ["one shots/Bass/Bass_C3.wav"]);
                         ("unpitched", ["one shots/Bass/thud.wav"])]);
        ("p_breaks_120", JList ["drums/loops/Breaks/x_120.wav"]);
        ("p_snare", JList ["Custom/Snares/Snare_Hit.wav"])].
Proof. vm_compute. reflexivity. Qed.

(** * Properties *)

(** ** Basic facts about the builtins *)

Lemma mem_In (x : string) (xs : list string) :
  Str.mem x xs = true <-> In x xs.
Proof.
  unfold Str.mem. rewrite existsb_exists. split.
  - intros (y & Hin & Heq). apply String.eqb_eq in Heq. now subst.
  - intros Hin. exists x. split; [assumption | apply String.eqb_refl].
Qed.

Lemma mem_not_In (x : string) (xs : list string) :
  Str.mem x xs = false <-> ~ In x xs.
Proof.
  rewrite <- mem_In. destruct (Str.mem x xs); split; congruence.
Qed.

Section DictFacts.
Variable V : Type.
Implicit Types (d : Dict.t V) (k : string) (v : V).

Lemma get_set_same d k v : Dict.get (Dict.set d k v) k = Some v.
Proof.
  induction d as [|[k' v'] d IH]; simpl.
  - now rewrite String.eqb_refl.
  - destruct (String.eqb k' k) eqn:E; simpl.
    + now rewrite String.eqb_refl.
    + now rewrite E.
Qed.

Lemma get_set_other d k k' v :
  k' <> k -> Dict.get (Dict.set d k v) k' = Dict.get d k'.
Proof.
  intros Hne. induction d as [|[k0 v0] d IH]; simpl.
  - destruct (String.eqb_spec k k'); congruence.
  - destruct (String.eqb_spec k0 k) as [->|Hk]; simpl.
    + destruct (String.eqb_spec k k'); congruence.
    + destruct (String.eqb_spec k0 k'); congruence.
Qed.

Lemma get_In d k v : Dict.get d k = Some v -> In (k, v) d.
Proof.
  induction d as [|[k' v'] d IH]; simpl; [discriminate|].
  destruct (String.eqb_spec k' k) as [->|Hk]; intros H.
  - left. congruence.
  - right. auto.
Qed.

Lemma get_None_keys d k : Dict.get d k = None <-> ~ In k (Dict.keys d).
Proof.
  induction d as [|[k' v'] d IH]; simpl.
  - tauto.
  - destruct (String.eqb_spec k' k) as [->|Hk].
    + split; [discriminate | tauto].
    + rewrite IH. tauto.
Qed.

Lemma In_get d k v :
  NoDup (Dict.keys d) -> In (k, v) d -> Dict.get d k = Some v.
Proof.
  induction d as [|[k' v'] d IH]; simpl; [tauto|].
  intros Hnd [Heq|Hin]; inversion Hnd as [|? ? Hnotin Hnd']; subst.
  - inversion Heq; subst. now rewrite String.eqb_refl.
  - destruct (String.eqb_spec k' k) as [->|Hk]; [|auto].
    exfalso. apply Hnotin. change (In (fst (k, v)) (List.map fst d)).
    now apply in_map.
Qed.

Lemma keys_set d k v :
  Dict.keys (Dict.set d k v) =
  if Dict.mem d k then Dict.keys d else Dict.keys d ++ [k].
Proof.
  unfold Dict.mem. induction d as [|[k' v'] d IH]; simpl; [reflexivity|].
  destruct (String.eqb_spec k' k) as [->|Hk]; simpl; [reflexivity|].
  rewrite IH. now destruct (Dict.get d k).
Qed.

Lemma NoDup_keys_set d k v :
  NoDup (Dict.keys d) -> NoDup (Dict.keys (Dict.set d k v)).
Proof.
  intros Hnd. rewrite keys_set. unfold Dict.mem.
  destruct (Dict.get d k) eqn:E; [assumption|].
  apply get_None_keys in E.
  apply NoDup_rev in Hnd. rewrite <- (rev_involutive (_ ++ _)).
  apply NoDup_rev. rewrite rev_app_distr. simpl. constructor; [|assumption].
  now rewrite <- in_rev.
Qed.

Lemma In_set d k v k' v' :
  In (k', v') (Dict.set d k v) -> (k' = k /\ v' = v) \/ In (k', v') d.
Proof.
  induction d as [|[k0 v0] d IH]; simpl.
  - intros [H|[]]. left. now inversion H.
  - destruct (String.eqb_spec k0 k) as [->|Hk]; simpl.
    + intros [H|H]; [left; now inversion H | tauto].
    + intros [H|H]; [tauto | destruct (IH H); tauto].
Qed.

Lemma get_setdefault_same d k v :
  exists v', Dict.get (Dict.setdefault d k v) k = Some v' /\
             (Dict.get d k = Some v' \/ (Dict.get d k = None /\ v' = v)).
Proof.
  unfold Dict.setdefault, Dict.mem. destruct (Dict.get d k) as [v0|] eqn:E.
  - exists v0. tauto.
  - exists v. rewrite get_set_same. tauto.
Qed.

Lemma get_setdefault_other d k k' v :
  k' <> k -> Dict.get (Dict.setdefault d k v) k' = Dict.get d k'.
Proof.
  intros Hne. unfold Dict.setdefault. destruct (Dict.mem d k); [reflexivity|].
  now apply get_set_other.
Qed.

End DictFacts.

Lemma In_append_new (l : list string) (rel x : string) :
  In x (append_new l rel) <-> In x l \/ x = rel.
Proof.
  unfold append_new. destruct (Str.mem rel l) eqn:E.
  - apply mem_In in E. split; [tauto|]. intros [H| ->]; assumption.
  - rewrite in_app_iff. simpl. intuition congruence.
Qed.

Lemma NoDup_append_new (l : list string) (rel : string) :
  NoDup l -> NoDup (append_new l rel).
Proof.
  intros Hnd. unfold append_new. destruct (Str.mem rel l) eqn:E; [assumption|].
  apply mem_not_In in E.
  apply NoDup_rev in Hnd. rewrite <- (rev_involutive (_ ++ _)).
  apply NoDup_rev. rewrite rev_app_distr. simpl. constructor; [|assumption].
  now rewrite <- in_rev.
Qed.

(** what [add_under] leaves under every label *)
Lemma get_add_under (m : Dict.t (list string)) (label rel k : string) :
  Dict.get (add_under m label rel) k =
  if String.eqb k label
  then Some (append_new (match Dict.get m label with Some l => l | None => [] end) rel)
  else Dict.get m k.
Proof.
  unfold add_under.
  destruct (get_setdefault_same m label []) as (l & Hl & Hcase).
  rewrite Hl.
  destruct (String.eqb_spec k label) as [->|Hk].
  - rewrite get_set_same. destruct Hcase as [-> | [-> ->]]; reflexivity.
  - rewrite get_set_other by assumption. now apply get_setdefault_other.
Qed.

Lemma ensure_map_is_map (bk : bucket) : exists m, ensure_map bk = BMap m.
Proof. destruct bk as [l|m]; simpl; eauto. Qed.

Lemma add_pitched_ok (b : buckets) (keyname pitch rel : string) :
  exists m, ensure_map (get_or b keyname (BMap [])) = BMap m /\
            add_pitched b keyname pitch rel
            = Ok (Dict.set b keyname (BMap (add_under m pitch rel))).
Proof.
  unfold add_pitched.
  destruct (ensure_map_is_map (get_or b keyname (BMap []))) as (m & Hm).
  exists m. now rewrite Hm.
Qed.

Lemma has_seg_iff (rel name : string) :
  has_seg rel name = true <->
  exists seg, In seg (Str.split "/" rel) /\ slug seg = name.
Proof.
  unfold has_seg. rewrite existsb_exists.
  split; intros (seg & Hin & H); exists seg; split; try assumption;
    now apply String.eqb_eq.
Qed.

Lemma is_loops_folder_iff (rel : string) :
  is_loops_folder rel = true <->
  exists seg, In seg (Str.split "/" rel) /\ (slug seg = "loop" \/ slug seg = "loops").
Proof.
  unfold is_loops_folder. rewrite orb_true_iff, !has_seg_iff.
  split.
  - intros [(seg & Hin & H)|(seg & Hin & H)]; exists seg; tauto.
  - intros (seg & Hin & [H|H]); [left|right]; exists seg; tauto.
Qed.

Lemma is_some_iff (A : Type) (o : option A) : is_some o = true <-> o <> None.
Proof. destruct o; simpl; split; congruence. Qed.

(** ** C6: the loop test *)

Definition is_loop_decision (d : decision) : bool :=
  match d with
  | DrumLoop _ | GenericLoop _ => true
  | PitchedShot _ _ | PlainShot _ => false
  end.

Lemma classify_loop_test (prefix rel stem : string) :
  is_loop_decision (classify prefix rel stem)
  = is_loops_folder rel || (is_some (get_bpm stem) && is_some (get_key stem)).
Proof.
  unfold classify.
  destruct (is_loops_folder rel || (is_some (get_bpm stem) && is_some (get_key stem))).
  - now destruct (drum_branch rel).
  - now destruct (get_key stem).
Qed.

(** C6. A file is classified as a loop exactly when some slash-delimited
    segment of its relative path slugifies to "loop" or "loops", or both a
    tempo and a key are extracted from its stem; in every other case it is
    classified as a one-shot. *)
Theorem C6_loop_decision (prefix rel stem : string) :
  (is_loop_decision (classify prefix rel stem) = true <->
     (exists seg, In seg (Str.split "/" rel) /\
                  (slug seg = "loop" \/ slug seg = "loops")) \/
     (get_bpm stem <> None /\ get_key stem <> None)) /\
  (is_loop_decision (classify prefix rel stem) = false <->
     exists keyname,
       classify prefix rel stem = PlainShot keyname \/
       exists pitch, classify prefix rel stem = PitchedShot keyname pitch).
Proof.
  split.
  - rewrite classify_loop_test, orb_true_iff, andb_true_iff.
    now rewrite is_loops_folder_iff, !is_some_iff.
  - destruct (classify prefix rel stem) as [k|k|k pt|k]; simpl; split;
      try discriminate; try reflexivity.
    + intros (kn & [H|(pt & H)]); discriminate.
    + intros (kn & [H|(pt & H)]); discriminate.
    + intros _. exists k. right. now exists pt.
    + intros _. exists k. now left.
Qed.

(** ** C9: a loop with a key but no tempo *)

(** C9. A file classified as a loop whose stem yields a key but no tempo,
    and which the drum-group branch does not take, goes to the bucket
    "{prefix}_loops": the key does not appear in the bucket key. *)
Theorem C9_key_only_loop (prefix rel stem : string) (k : key_info) :
  is_loop_decision (classify prefix rel stem) = true ->
  get_bpm stem = None ->
  get_key stem = Some k ->
  drum_branch rel = None ->
  classify prefix rel stem = GenericLoop (prefix ++ "_loops").
Proof.
  intros Hloop Hbpm Hkey Hdrum.
  rewrite classify_loop_test in Hloop.
  unfold classify. rewrite Hloop, Hdrum, Hbpm. reflexivity.
Qed.

Lemma C9_key_only_loop_witness :
  classify "pack" "loops/pad_am.wav" "pad_am" = GenericLoop "pack_loops".
Proof.
  apply (@C9_key_only_loop "pack" "loops/pad_am.wav" "pad_am"
                           (KeyInfo "a" true None));
    vm_compute; reflexivity.
Defined.

(** by contrast, a tempo does appear in the bucket key of a generic loop *)
Lemma generic_loop_key_with_tempo (prefix : string) (b : Z) (keyi : option key_info) :
  generic_loop_key prefix (Some b) keyi =
  match keyi with
  | Some k => (prefix ++ "_" ++ Str.of_int b ++ "_" ++ root k
                 ++ (if minor k then "m" else ""))%string
  | None => (prefix ++ "_" ++ Str.of_int b)%string
  end.
Proof. destruct keyi; reflexivity. Qed.

(** ** C10: the stem "f40" *)

Lemma get_key_f40 : get_key "f40" = Some (KeyInfo "f" false None).
Proof. vm_compute. reflexivity. Qed.

Lemma get_bpm_f40 : get_bpm "f40" = None.
Proof. vm_compute. reflexivity. Qed.

(** C10. For the stem "f40" the octave grammar matches nowhere, the bare
    grammar yields root "f", not minor, no octave, and no tempo is found; a
    one-shot with this stem is filed under the pitch label "f4" of its
    instrument bucket. *)
Theorem C10_stem_f40 (prefix rel : string) (b : buckets) :
  path_stem rel = "f40" ->
  is_loops_folder rel = false ->
  search KEY_WITH_OCT (lc "f40") = None /\
  get_key "f40" = Some (KeyInfo "f" false None) /\
  get_bpm "f40" = None /\
  classify prefix rel "f40"
    = PitchedShot (prefix ++ "_" ++ guess_instrument rel) "f4" /\
  exists b' m l,
    step prefix b rel = Ok b' /\
    Dict.get b' (prefix ++ "_" ++ guess_instrument rel) = Some (BMap m) /\
    Dict.get m "f4" = Some l /\ In rel l.
Proof.
  intros Hstem Hloop.
  assert (Hc : classify prefix rel "f40"
               = PitchedShot (prefix ++ "_" ++ guess_instrument rel) "f4").
  { unfold classify. rewrite get_bpm_f40, get_key_f40, Hloop. reflexivity. }
  split; [vm_compute; reflexivity|].
  split; [exact get_key_f40|]. split; [exact get_bpm_f40|].
  split; [exact Hc|].
  unfold step, nfc. rewrite Hstem, Hc. cbn [contribute].
  destruct (add_pitched_ok b (prefix ++ "_" ++ guess_instrument rel) "f4" rel)
    as (m & _ & ->).
  eexists _, _, _. split; [reflexivity|]. split; [apply get_set_same|].
  rewrite get_add_under, String.eqb_refl. split; [reflexivity|].
  apply In_append_new. now right.
Qed.

Lemma C10_stem_f40_witness :
  exists b' m l,
    step "pack" [] "Keys/f40.wav" = Ok b' /\
    Dict.get b' ("pack" ++ "_" ++ guess_instrument "Keys/f40.wav") = Some (BMap m) /\
    Dict.get m "f4" = Some l /\ In "Keys/f40.wav" l.
Proof.
  apply (@C10_stem_f40 "pack" "Keys/f40.wav" []); vm_compute; reflexivity.
Defined.

(** ** C3: the enharmonic table *)

(** The twelve canonical pitch labels of the specification: flats, with
    f# kept sharp. *)
Definition CANONICAL_LABELS : list string :=
  ["c"; "db"; "d"; "eb"; "e"; "f"; "f#"; "g"; "ab"; "a"; "bb"; "b"].

(** a pitch token of the key grammars: [[A-Ga-g][#b]?] *)
Definition is_pitch_token (s : string) : bool :=
  match s with
  | String l EmptyString => is_note_letter l
  | String l (String a EmptyString) => is_note_letter l && is_accidental a
  | _ => false
  end.

(** the invariant as the specification words it, at one input *)
Definition enharmonic_invariant (s : string) : Prop :=
  In (normalize_note s) CANONICAL_LABELS /\
  (Str.endswith (normalize_note s) "#" = true -> normalize_note s = "f#").

Definition NOTE_LETTERS : list ascii :=
  ["A"; "B"; "C"; "D"; "E"; "F"; "G"; "a"; "b"; "c"; "d"; "e"; "f"; "g"]%char.

Lemma is_note_letter_enum (c : ascii) :
  is_note_letter c = existsb (Ascii.eqb c) NOTE_LETTERS.
Proof. destruct c as [[] [] [] [] [] [] [] []]; reflexivity. Qed.

Lemma note_letter_cases (c : ascii) :
  is_note_letter c = true -> In c NOTE_LETTERS.
Proof.
  rewrite is_note_letter_enum, existsb_exists.
  intros (x & Hin & Heq). apply Ascii.eqb_eq in Heq. now subst.
Qed.

Lemma accidental_cases (c : ascii) :
  is_accidental c = true -> c = "#"%char \/ c = "b"%char.
Proof.
  unfold is_accidental. rewrite orb_true_iff, !Ascii.eqb_eq. tauto.
Qed.

(** The invariant fails on pitch tokens: e# stays sharp, and cb is returned
    as it is although it is no canonical label. *)
Lemma C3_counterexample :
  is_pitch_token "e#" = true /\ ~ enharmonic_invariant "e#" /\
  is_pitch_token "cb" = true /\ ~ enharmonic_invariant "cb".
Proof.
  split; [reflexivity|]. split; [|split; [reflexivity|]].
  - intros [_ H]. specialize (H eq_refl). vm_compute in H. discriminate.
  - intros [H _]. vm_compute in H.
    repeat (destruct H as [H|H]; [discriminate|]). exact H.
Qed.

Example normalize_note_off_table :
  List.map normalize_note ["e#"; "B#"; "cb"; "Fb"; "gb"]
  = ["e#"; "b#"; "cb"; "fb"; "gb"].
Proof. vm_compute. reflexivity. Qed.

(** C3 (amended). For every pitch token of the key grammars (a letter a-g
    in either case with an optional # or b) whose lower-case form is none of
    e#, b#, cb, fb, gb, [normalize_note] returns one of the twelve canonical
    labels, and a label ending in # only when it is f#; the flats cb, fb and
    gb are returned in lower case, unchanged. *)
Theorem C3_enharmonic_on_table (s : string) :
  is_pitch_token s = true ->
  (Str.mem (lc s) ["e#"; "b#"; "cb"; "fb"; "gb"] = false ->
   enharmonic_invariant s) /\
  (Str.mem (lc s) ["cb"; "fb"; "gb"] = true -> normalize_note s = lc s).
Proof.
  unfold enharmonic_invariant.
  destruct s as [|l [|a [|? ?]]]; simpl; try discriminate.
  - intros Hl. apply note_letter_cases in Hl. simpl in Hl.
    repeat (destruct Hl as [<-|Hl]; [vm_compute; intuition discriminate|]).
    contradiction.
  - intros H. apply andb_true_iff in H. destruct H as [Hl Ha].
    apply note_letter_cases in Hl. apply accidental_cases in Ha. simpl in Hl.
    destruct Ha as [-> | ->];
      repeat (destruct Hl as [<-|Hl]; [vm_compute; intuition discriminate|]);
      contradiction.
Qed.

Lemma C3_enharmonic_on_table_witness :
  enharmonic_invariant "G#" /\ normalize_note "Gb" = "gb".
Proof.
  split.
  - apply (@C3_enharmonic_on_table "G#"); reflexivity.
  - apply (@C3_enharmonic_on_table "Gb"); reflexivity.
Defined.

(** ** C2 and C1: a loop key that meets a pitch map *)

(** C2. The one-shot "120/c3.wav" opens the pitch map "p_120"; the loop
    "loops/x_120.wav" then takes the list path on the same key, where
    [append] on a dictionary raises [AttributeError]: the classification of
    a file that passed the extension filter fails. *)
Theorem C2_loop_into_pitch_map_raises :
  walk_audio ["120/c3.wav"; "loops/x_120.wav"]
    = ["120/c3.wav"; "loops/x_120.wav"] /\
  classify "p" "120/c3.wav" "c3" = PitchedShot "p_120" "c3" /\
  classify "p" "loops/x_120.wav" "x_120" = GenericLoop "p_120" /\
  run "p" [] ["120/c3.wav"] = Ok [("p_120", BMap [("c3", ["120/c3.wav"])])] /\
  step "p" [("p_120", BMap [("c3", ["120/c3.wav"])])] "loops/x_120.wav"
    = Raised AttributeError /\
  main (Some "p") "pack" "base" ["120/c3.wav"; "loops/x_120.wav"]
    = Raised AttributeError.
Proof. vm_compute. repeat split; reflexivity. Qed.

(** C1. The same two files in the two traversal orders: one order prints a
    manifest, the other raises. *)
Theorem C1_order_changes_outcome :
  Permutation ["loops/x_120.wav"; "120/c3.wav"] ["120/c3.wav"; "loops/x_120.wav"] /\
  main (Some "p") "pack" "base" ["loops/x_120.wav"; "120/c3.wav"]
    = Ok [("_base", JStr "base");
          ("p_120", JMap [("c3", ["120/c3.wav"]);
                          ("unpitched", ["loops/x_120.wav"])])] /\
  main (Some "p") "pack" "base" ["120/c3.wav"; "loops/x_120.wav"]
    = Raised AttributeError.
Proof.
  split; [apply perm_swap|]. vm_compute. split; reflexivity.
Qed.

(** ** C7: bucket shapes *)

Inductive shape : Type := PlainList | PitchMap.

Definition shape_of (bk : bucket) : shape :=
  match bk with
  | BList _ => PlainList
  | BMap _ => PitchMap
  end.

(** the bucket a decision contributes to, and the shape it asks for *)
Definition target (d : decision) : string :=
  match d with
  | DrumLoop key | GenericLoop key => key
  | PitchedShot keyname _ | PlainShot keyname => keyname
  end.

Definition required_shape (d : decision) : shape :=
  match d with
  | PitchedShot _ _ => PitchMap
  | DrumLoop _ | GenericLoop _ | PlainShot _ => PlainList
  end.

(** every entry filed under a label of [m] is still under it in [m'] *)
Definition labels_kept (m m' : Dict.t (list string)) : Prop :=
  forall label l, Dict.get m label = Some l ->
    exists l', Dict.get m' label = Some l' /\ incl l l'.

(** how one bucket may evolve: absent buckets stay absent, a pitch map
    stays a pitch map, a plain list stays a list or becomes a pitch map
    holding the list under "unpitched"; nothing is lost. *)
Definition evolves (old new : option bucket) : Prop :=
  match old with
  | None => True
  | Some (BMap m) => exists m', new = Some (BMap m') /\ labels_kept m m'
  | Some (BList l) =>
      (exists l', new = Some (BList l') /\ incl l l') \/
      (exists m' l', new = Some (BMap m') /\
                     Dict.get m' "unpitched" = Some l' /\ incl l l')
  end.

Lemma incl_append_new (l : list string) (rel : string) : incl l (append_new l rel).
Proof. intros x Hx. apply In_append_new. now left. Qed.

Lemma labels_kept_add_under (m : Dict.t (list string)) (label rel : string) :
  labels_kept m (add_under m label rel).
Proof.
  intros k l Hk. rewrite get_add_under.
  destruct (String.eqb_spec k label) as [->|Hne].
  - rewrite Hk. eexists. split; [reflexivity | apply incl_append_new].
  - exists l. split; [assumption | apply incl_refl].
Qed.

Lemma labels_kept_refl (m : Dict.t (list string)) : labels_kept m m.
Proof. intros k l Hk. exists l. split; [assumption | apply incl_refl]. Qed.

Lemma labels_kept_trans (m1 m2 m3 : Dict.t (list string)) :
  labels_kept m1 m2 -> labels_kept m2 m3 -> labels_kept m1 m3.
Proof.
  intros H12 H23 k l Hk.
  destruct (H12 k l Hk) as (l2 & Hk2 & Hi2).
  destruct (H23 k l2 Hk2) as (l3 & Hk3 & Hi3).
  exists l3. split; [assumption | eapply incl_tran; eassumption].
Qed.

Lemma add_to_list_spec (b b' : buckets) (key rel : string) :
  add_to_list b key rel = Ok b' ->
  (forall k, k <> key -> Dict.get b' k = Dict.get b k) /\
  match Dict.get b key with
  | None => Dict.get b' key = Some (BList [rel])
  | Some (BList l) => Dict.get b' key = Some (BList (append_new l rel))
  | Some (BMap m) => Dict.get b' key = Some (BMap m)
  end.
Proof.
  unfold add_to_list.
  destruct (get_setdefault_same b key (BList [])) as (bk & Hbk & Hcase).
  rewrite Hbk.
  assert (Hother : forall k, k <> key ->
            Dict.get (Dict.setdefault b key (BList [])) k = Dict.get b k)
    by (intros; now apply get_setdefault_other).
  destruct bk as [l|m].
  - intros H. inversion H; subst b'. clear H. split.
    + intros k Hk. rewrite get_set_other by assumption. auto.
    + rewrite get_set_same. destruct Hcase as [-> | [-> E]]; [reflexivity|].
      inversion E; subst. reflexivity.
  - destruct (Dict.mem m rel); [|discriminate].
    intros H. inversion H; subst b'. clear H. split; [assumption|].
    destruct Hcase as [E | [_ E]]; [|discriminate]. now rewrite E.
Qed.

Lemma add_pitched_spec (b b' : buckets) (keyname pitch rel : string) :
  add_pitched b keyname pitch rel = Ok b' ->
  (forall k, k <> keyname -> Dict.get b' k = Dict.get b k) /\
  match Dict.get b keyname with
  | None => Dict.get b' keyname = Some (BMap (add_under [] pitch rel))
  | Some (BList l) =>
      Dict.get b' keyname = Some (BMap (add_under [("unpitched", l)] pitch rel))
  | Some (BMap m) => Dict.get b' keyname = Some (BMap (add_under m pitch rel))
  end.
Proof.
  destruct (add_pitched_ok b keyname pitch rel) as (m & Hm & ->).
  intros H. inversion H; subst b'. clear H. split.
  - intros k Hk. now apply get_set_other.
  - rewrite get_set_same. unfold get_or in Hm.
    destruct (Dict.get b keyname) as [[l|m0]|]; simpl in Hm;
      inversion Hm; subst; try reflexivity.
    now destruct l.
Qed.

Lemma add_unpitched_spec (b b' : buckets) (keyname rel : string) :
  add_unpitched b keyname rel = Ok b' ->
  (forall k, k <> keyname -> Dict.get b' k = Dict.get b k) /\
  match Dict.get b keyname with
  | None => Dict.get b' keyname = Some (BList [rel])
  | Some (BList l) => Dict.get b' keyname = Some (BList (append_new l rel))
  | Some (BMap m) =>
      Dict.get b' keyname = Some (BMap (add_under m "unpitched" rel))
  end.
Proof.
  unfold add_unpitched, get_or.
  destruct (Dict.get b keyname) as [[l|m]|] eqn:E.
  - intros H. apply add_to_list_spec in H. now rewrite E in H.
  - intros H. inversion H; subst b'. clear H. split.
    + intros k Hk. now apply get_set_other.
    + apply get_set_same.
  - intros H. apply add_to_list_spec in H. now rewrite E in H.
Qed.

Lemma get_unpitched_after_promotion (l : list string) (pitch rel : string) :
  exists l', Dict.get (add_under [("unpitched", l)] pitch rel) "unpitched" = Some l'
             /\ incl l l'.
Proof.
  rewrite get_add_under.
  destruct (String.eqb_spec "unpitched" pitch) as [<-|Hne].
  - simpl. eexists. split; [reflexivity | apply incl_append_new].
  - simpl. exists l. split; [reflexivity | apply incl_refl].
Qed.

Lemma contribute_shapes (b b' : buckets) (d : decision) (rel : string) :
  contribute b d rel = Ok b' ->
  (forall k, k <> target d -> Dict.get b' k = Dict.get b k) /\
  match Dict.get b (target d) with
  | None =>
      exists bk, Dict.get b' (target d) = Some bk /\ shape_of bk = required_shape d
  | Some (BMap m) =>
      exists m', Dict.get b' (target d) = Some (BMap m') /\ labels_kept m m'
  | Some (BList l) =>
      match required_shape d with
      | PlainList =>
          exists l', Dict.get b' (target d) = Some (BList l') /\ incl l l'
      | PitchMap =>
          exists m' l', Dict.get b' (target d) = Some (BMap m') /\
                        Dict.get m' "unpitched" = Some l' /\ incl l l'
      end
  end.
Proof.
  destruct d as [key|key|keyname pitch|keyname]; simpl; intros H.
  1, 2: apply add_to_list_spec in H; destruct H as [Ho Hk]; split; [assumption|];
    destruct (Dict.get b key) as [[l|m]|]; eauto using incl_append_new, labels_kept_refl.
  - apply add_pitched_spec in H. destruct H as [Ho Hk]. split; [assumption|].
    destruct (Dict.get b keyname) as [[l|m]|]; eauto using labels_kept_add_under.
    destruct (get_unpitched_after_promotion l pitch rel) as (l' & Hl' & Hi).
    eauto.
  - apply add_unpitched_spec in H. destruct H as [Ho Hk]. split; [assumption|].
    destruct (Dict.get b keyname) as [[l|m]|];
      eauto using incl_append_new, labels_kept_add_under.
Qed.

Lemma add_to_list_ok (b : buckets) (key rel : string) :
  (forall m, Dict.get b key <> Some (BMap m)) ->
  exists b', add_to_list b key rel = Ok b'.
Proof.
  intros Hnm. unfold add_to_list.
  destruct (get_setdefault_same b key (BList [])) as (bk & Hbk & Hcase).
  rewrite Hbk. destruct bk as [l|m]; [eauto|].
  destruct Hcase as [E|[_ E]]; [|discriminate].
  destruct (Hnm m E).
Qed.

Lemma add_unpitched_ok (b : buckets) (keyname rel : string) :
  exists b', add_unpitched b keyname rel = Ok b'.
Proof.
  unfold add_unpitched, get_or.
  destruct (Dict.get b keyname) as [[l|m]|] eqn:E; [|eauto|];
    apply add_to_list_ok; intros m; congruence.
Qed.

(** a turn goes through unless it adds a loop to a pitch map *)
Lemma contribute_ok (b : buckets) (d : decision) (rel : string) :
  is_loop_decision d = false \/ (forall m, Dict.get b (target d) <> Some (BMap m)) ->
  exists b', contribute b d rel = Ok b'.
Proof.
  destruct d as [key|key|keyname pitch|keyname]; simpl; intros [H|H];
    try discriminate; try (now apply add_to_list_ok).
  - destruct (add_pitched_ok b keyname pitch rel) as (m & _ & E). eauto.
  - destruct (add_pitched_ok b keyname pitch rel) as (m & _ & E). eauto.
  - apply add_unpitched_ok.
  - apply add_unpitched_ok.
Qed.

(** the promotion: a pitched contribution to a plain list always goes
    through, and leaves a pitch map that holds the former list under
    "unpitched" and the new path under its pitch, and nothing else *)
Lemma add_pitched_promotes (b : buckets) (keyname pitch rel : string)
  (l : list string) :
  Dict.get b keyname = Some (BList l) ->
  exists b' m',
    add_pitched b keyname pitch rel = Ok b' /\
    Dict.get b' keyname = Some (BMap m') /\
    (forall k, k <> keyname -> Dict.get b' k = Dict.get b k) /\
    forall label x,
      (exists l', Dict.get m' label = Some l' /\ In x l') <->
      (label = "unpitched" /\ In x l) \/ (label = pitch /\ x = rel).
Proof.
  intros Hget. unfold add_pitched, get_or. rewrite Hget.
  assert (Hm : ensure_map (BList l) = BMap [("unpitched", l)])
    by (now destruct l).
  rewrite Hm. eexists. eexists. split; [reflexivity|].
  split; [apply get_set_same|]. split.
  - intros k Hk. now apply get_set_other.
  - intros label x. rewrite get_add_under. cbn [Dict.get].
    destruct (String.eqb_spec label pitch) as [->|Hne].
    + destruct (String.eqb_spec "unpitched" pitch) as [<-|Hu].
      * split.
        -- intros (l' & E & Hin). inversion E; subst l'. clear E.
           apply In_append_new in Hin.
           destruct Hin as [Hin| ->]; [left | right]; tauto.
        -- intros H. eexists. split; [reflexivity|]. apply In_append_new.
           destruct H as [[_ Hin]|[_ ->]]; [now left | now right].
      * split.
        -- intros (l' & E & Hin). inversion E; subst l'. clear E.
           apply In_append_new in Hin.
           destruct Hin as [[]| ->]. right. tauto.
        -- intros H. eexists. split; [reflexivity|]. apply In_append_new.
           destruct H as [[E _]|[_ ->]]; [congruence | now right].
    + destruct (String.eqb_spec "unpitched" label) as [<-|Hu].
      * split.
        -- intros (l' & E & Hin). inversion E; subst l'. left. tauto.
        -- intros [[_ Hin]|[E _]]; [eauto | congruence].
      * split.
        -- intros (l' & E & _). discriminate.
        -- intros [[E _]|[E _]]; congruence.
Qed.

(** C7. One turn of the loop, for any buckets and any file.  The turn goes
    through whenever the file is a one-shot, or a loop whose bucket is not a
    pitch map.  In particular a pitched one-shot whose bucket is a plain
    list is processed without an error, and afterwards the bucket is a pitch
    map that holds exactly the entries of the former list under "unpitched"
    and the new path under its pitch; no other bucket changes.  In every
    turn that goes through, only the bucket of the decision changes: a
    bucket that did not exist takes the shape its first contribution
    requires; a pitch map stays a pitch map and keeps every entry; a plain
    list stays a plain list unless the contribution is pitched. *)
Theorem C7_bucket_shape (prefix p : string) (b : buckets) :
  let rel := nfc p in
  let d := classify prefix rel (path_stem p) in
  (is_loop_decision d = false \/
   (forall m, Dict.get b (target d) <> Some (BMap m)) ->
   exists b', step prefix b p = Ok b') /\
  (forall keyname pitch l,
     d = PitchedShot keyname pitch ->
     Dict.get b keyname = Some (BList l) ->
     exists b' m',
       step prefix b p = Ok b' /\
       Dict.get b' keyname = Some (BMap m') /\
       (forall k, k <> keyname -> Dict.get b' k = Dict.get b k) /\
       forall label x,
         (exists l', Dict.get m' label = Some l' /\ In x l') <->
         (label = "unpitched" /\ In x l) \/ (label = pitch /\ x = rel)) /\
  (forall b', step prefix b p = Ok b' ->
     (forall k, k <> target d -> Dict.get b' k = Dict.get b k) /\
     match Dict.get b (target d) with
     | None =>
         exists bk, Dict.get b' (target d) = Some bk /\
                    shape_of bk = required_shape d
     | Some (BMap m) =>
         exists m', Dict.get b' (target d) = Some (BMap m') /\ labels_kept m m'
     | Some (BList l) =>
         match required_shape d with
         | PlainList =>
             exists l', Dict.get b' (target d) = Some (BList l') /\ incl l l'
         | PitchMap =>
             exists m' l', Dict.get b' (target d) = Some (BMap m') /\
                           Dict.get m' "unpitched" = Some l' /\ incl l l'
         end
     end).
Proof.
  intros rel d. split; [|split].
  - intros H. unfold step. now apply contribute_ok.
  - intros keyname pitch l Hd Hget. unfold step. fold rel. fold d.
    rewrite Hd. cbn [contribute]. now apply add_pitched_promotes.
  - intros b' H. exact (@contribute_shapes b b' d rel H).
Qed.

Lemma C7_bucket_shape_witness :
  exists b' m',
    step "p" [("p_bass", BList ["Bass/thud.wav"])] "Bass/Bass_C3.wav" = Ok b' /\
    Dict.get b' "p_bass" = Some (BMap m') /\
    (forall k, k <> "p_bass" ->
       Dict.get b' k = Dict.get [("p_bass", BList ["Bass/thud.wav"])] k) /\
    forall label x,
      (exists l', Dict.get m' label = Some l' /\ In x l') <->
      (label = "unpitched" /\ In x ["Bass/thud.wav"]) \/
      (label = "c3" /\ x = "Bass/Bass_C3.wav").
Proof.
  apply (proj1 (proj2 (@C7_bucket_shape "p" "Bass/Bass_C3.wav"
                         [("p_bass", BList ["Bass/thud.wav"])]))
               "p_bass" "c3" ["Bass/thud.wav"]).
  - vm_compute. reflexivity.
  - reflexivity.
Defined.

Example promotion_ex :
  step "p" [("p_bass", BList ["Bass/thud.wav"])] "Bass/Bass_C3.wav"
  = Ok [("p_bass", BMap [("unpitched", ["Bass/thud.wav"]);
                         ("c3", ["Bass/Bass_C3.wav"])])].
Proof. vm_compute. reflexivity. Qed.

Lemma evolves_refl (o : option bucket) : evolves o o.
Proof.
  destruct o as [[l|m]|]; simpl; eauto using incl_refl, labels_kept_refl.
Qed.

Lemma evolves_trans (o1 o2 o3 : option bucket) :
  evolves o1 o2 -> evolves o2 o3 -> evolves o1 o3.
Proof.
  destruct o1 as [[l1|m1]|]; simpl; [| |trivial].
  - intros [(l2 & -> & Hi)|(m2 & l2 & -> & Hu & Hi)]; simpl.
    + intros [(l3 & -> & Hi')|(m3 & l3 & -> & Hu' & Hi')];
        [left|right]; eauto 6 using incl_tran.
    + intros (m3 & -> & Hk). right.
      destruct (Hk _ _ Hu) as (l3 & Hu3 & Hi3). eauto 6 using incl_tran.
  - intros (m2 & -> & Hk); simpl. intros (m3 & -> & Hk').
    eauto using labels_kept_trans.
Qed.

Lemma step_evolves (prefix p : string) (b b' : buckets) (k : string) :
  step prefix b p = Ok b' -> evolves (Dict.get b k) (Dict.get b' k).
Proof.
  intros H.
  destruct (@contribute_shapes b b' (classify prefix (nfc p) (path_stem p))
              (nfc p) H) as [Ho Hk].
  set (d := classify prefix (nfc p) (path_stem p)) in *.
  destruct (String.eqb_spec k (target d)) as [->|Hne].
  - destruct (Dict.get b (target d)) as [[l|m]|]; simpl; [| |trivial].
    + destruct (required_shape d); [left|right]; assumption.
    + assumption.
  - rewrite (Ho k Hne). apply evolves_refl.
Qed.

(** X14. Over a whole successful run: a pitch map never turns back into a
    list, a list turns into a pitch map at most once, and no entry is lost. *)
Lemma run_evolves (prefix : string) (files : list string) :
  forall (b b' : buckets) (k : string),
    run prefix b files = Ok b' -> evolves (Dict.get b k) (Dict.get b' k).
Proof.
  induction files as [|p files IH]; simpl; intros b b' k H.
  - inversion H; subst. apply evolves_refl.
  - destruct (step prefix b p) as [b1|e] eqn:E; [|discriminate].
    eapply evolves_trans; [eapply step_evolves; eassumption | eauto].
Qed.

(** ** C8: the assembled manifest *)

Section SortFacts.
Variable A : Type.
Variable leb : A -> A -> bool.
Hypothesis leb_total : forall x y, leb x y = true \/ leb y x = true.

Let le (x y : A) : Prop := leb x y = true.

Lemma insert_sorted_perm (x : A) (l : list A) :
  Permutation (x :: l) (insert_sorted leb x l).
Proof.
  induction l as [|y l IH]; simpl; [apply Permutation_refl|].
  destruct (leb x y); [apply Permutation_refl|].
  eapply perm_trans; [apply perm_swap|]. now apply perm_skip.
Qed.

Lemma sorted_perm (l : list A) : Permutation l (sorted leb l).
Proof.
  induction l as [|x l IH]; simpl; [constructor|].
  eapply perm_trans; [apply perm_skip, IH | apply insert_sorted_perm].
Qed.

Lemma insert_sorted_HdRel (a x : A) (l : list A) :
  le a x -> HdRel le a l -> HdRel le a (insert_sorted leb x l).
Proof.
  intros Hax Hl. destruct l as [|y l]; simpl; [now constructor|].
  destruct (leb x y); constructor; [assumption|].
  now inversion Hl.
Qed.

Lemma insert_sorted_Sorted (x : A) (l : list A) :
  Sorted le l -> Sorted le (insert_sorted leb x l).
Proof.
  induction l as [|y l IH]; simpl; intros Hs.
  - repeat constructor.
  - destruct (leb x y) eqn:E.
    + constructor; [assumption|]. now constructor.
    + inversion Hs as [|? ? Hs' Hhd]; subst. constructor; [auto|].
      apply insert_sorted_HdRel; [|assumption].
      destruct (leb_total x y) as [H|H]; [congruence | exact H].
Qed.

Lemma sorted_Sorted (l : list A) : Sorted le (sorted leb l).
Proof.
  induction l as [|x l IH]; simpl; [constructor|].
  now apply insert_sorted_Sorted.
Qed.

End SortFacts.

Definition by_key (V : Type) (x y : string * V) : bool :=
  String.leb (fst x) (fst y).

Lemma keys_insert_sorted (V : Type) (x : string * V) (d : Dict.t V) :
  Dict.keys (insert_sorted (@by_key V) x d)
  = insert_sorted String.leb (fst x) (Dict.keys d).
Proof.
  induction d as [|y d IH]; simpl; [reflexivity|].
  unfold by_key at 1. destruct (String.leb (fst x) (fst y)); simpl; [reflexivity|].
  now rewrite <- IH.
Qed.

Lemma keys_sorted_items (V : Type) (d : Dict.t V) :
  Dict.keys (sorted_items d) = sorted_strings (Dict.keys d).
Proof.
  unfold sorted_items, sorted_strings.
  induction d as [|x d IH]; simpl; [reflexivity|].
  change (fun x0 y : string * V => String.leb (fst x0) (fst y)) with (@by_key V).
  rewrite keys_insert_sorted. f_equal. exact IH.
Qed.

(** ascending in code-point order *)
Definition ascending (l : list string) : Prop :=
  Sorted (fun x y => String.leb x y = true) l.

Lemma ascending_sorted_strings (l : list string) : ascending (sorted_strings l).
Proof. apply sorted_Sorted. apply String.leb_total. Qed.

Lemma NoDup_sorted_strings (l : list string) :
  NoDup l -> NoDup (sorted_strings l).
Proof.
  intros H. eapply Permutation_NoDup; [apply sorted_perm | assumption].
Qed.

Lemma In_sorted_items (V : Type) (d : Dict.t V) (kv : string * V) :
  In kv (sorted_items d) <-> In kv d.
Proof.
  split; apply Permutation_in;
    [apply Permutation_sym|]; apply sorted_perm.
Qed.

(** the invariant of the accumulation: distinct keys, distinct labels,
    no path twice in a list *)
Definition wf_bucket (bk : bucket) : Prop :=
  match bk with
  | BList l => NoDup l
  | BMap m => NoDup (Dict.keys m) /\ forall label l, In (label, l) m -> NoDup l
  end.

Definition wf_buckets (b : buckets) : Prop :=
  NoDup (Dict.keys b) /\ forall k bk, In (k, bk) b -> wf_bucket bk.

Lemma wf_set (b : buckets) (k : string) (bk : bucket) :
  wf_buckets b -> wf_bucket bk -> wf_buckets (Dict.set b k bk).
Proof.
  intros [Hnd Hall] Hbk. split; [now apply NoDup_keys_set|].
  intros k' bk' Hin. apply In_set in Hin.
  destruct Hin as [[_ ->]|Hin]; eauto.
Qed.

Lemma wf_get (b : buckets) (k : string) (bk : bucket) :
  wf_buckets b -> Dict.get b k = Some bk -> wf_bucket bk.
Proof. intros [_ Hall] H. apply get_In in H. eauto. Qed.

Lemma wf_add_under (m : Dict.t (list string)) (label rel : string) :
  wf_bucket (BMap m) -> wf_bucket (BMap (add_under m label rel)).
Proof.
  intros [Hnd Hall]. unfold add_under.
  assert (Hwf1 : wf_bucket (BMap (Dict.setdefault m label []))).
  { unfold Dict.setdefault. destruct (Dict.mem m label); [now split|].
    split; [now apply NoDup_keys_set|].
    intros k l Hin. apply In_set in Hin.
    destruct Hin as [[_ ->]|Hin]; [constructor | eauto]. }
  destruct Hwf1 as [Hnd1 Hall1].
  destruct (Dict.get (Dict.setdefault m label []) label) as [l|] eqn:E;
    [|now split].
  split; [now apply NoDup_keys_set|].
  intros k l' Hin. apply In_set in Hin.
  destruct Hin as [[_ ->]|Hin]; [|eauto].
  apply NoDup_append_new. apply get_In in E. eauto.
Qed.

Lemma wf_add_to_list (b b' : buckets) (key rel : string) :
  wf_buckets b -> add_to_list b key rel = Ok b' -> wf_buckets b'.
Proof.
  intros Hwf. unfold add_to_list.
  assert (Hwf1 : wf_buckets (Dict.setdefault b key (BList []))).
  { unfold Dict.setdefault. destruct (Dict.mem b key); [assumption|].
    apply wf_set; [assumption | constructor]. }
  destruct (Dict.get (Dict.setdefault b key (BList [])) key) as [[l|m]|] eqn:E;
    [| |discriminate].
  - intros H. inversion H; subst b'. apply wf_set; [assumption|].
    simpl. apply NoDup_append_new. exact (@wf_get _ _ _ Hwf1 E).
  - destruct (Dict.mem m rel); [|discriminate].
    intros H. now inversion H; subst.
Qed.

Lemma wf_contribute (b b' : buckets) (d : decision) (rel : string) :
  wf_buckets b -> contribute b d rel = Ok b' -> wf_buckets b'.
Proof.
  intros Hwf. destruct d as [key|key|keyname pitch|keyname]; simpl.
  1, 2: now apply wf_add_to_list.
  - destruct (add_pitched_ok b keyname pitch rel) as (m & Hm & ->).
    intros H. inversion H; subst b'. apply wf_set; [assumption|].
    apply wf_add_under. unfold get_or in Hm.
    destruct (Dict.get b keyname) as [[l|m0]|] eqn:E; simpl in Hm;
      inversion Hm; subst.
    + pose proof (@wf_get _ _ _ Hwf E) as Hl. simpl in Hl. split.
      * simpl. repeat constructor. simpl. tauto.
      * intros k l' [Heq|[]]. inversion Heq; subst. now destruct l.
    + exact (@wf_get _ _ _ Hwf E).
    + split; [constructor | intros ? ? []].
  - unfold add_unpitched, get_or.
    destruct (Dict.get b keyname) as [[l|m]|] eqn:E.
    + now apply wf_add_to_list.
    + intros H. inversion H; subst b'. apply wf_set; [assumption|].
      apply wf_add_under. exact (@wf_get _ _ _ Hwf E).
    + now apply wf_add_to_list.
Qed.

Lemma wf_run (prefix : string) (files : list string) :
  forall b b', wf_buckets b -> run prefix b files = Ok b' -> wf_buckets b'.
Proof.
  induction files as [|p files IH]; simpl; intros b b' Hwf H.
  - now inversion H; subst.
  - destruct (step prefix b p) as [b1|e] eqn:E; [|discriminate].
    eapply IH; [|eassumption]. eapply wf_contribute; eassumption.
Qed.

Lemma wf_empty : wf_buckets [].
Proof. split; [constructor | intros ? ? []]. Qed.

(** a well-formed value of the manifest: every list ascending and free of
    duplicates, the labels of a pitch map ascending *)
Definition wf_jvalue (v : jvalue) : Prop :=
  match v with
  | JStr _ => True
  | JList l => ascending l /\ NoDup l
  | JMap m =>
      ascending (Dict.keys m) /\ NoDup (Dict.keys m) /\
      forall label l, In (label, l) m -> ascending l /\ NoDup l
  end.

Definition wf_manifest (man : manifest) : Prop :=
  ascending (Dict.keys man) /\ NoDup (Dict.keys man) /\
  In "_base" (Dict.keys man) /\
  forall k v, In (k, v) man -> wf_jvalue v.

Lemma keys_sort_map (d : Dict.t (list string)) :
  Dict.keys (sort_map d) = sorted_strings (Dict.keys d).
Proof.
  unfold sort_map, Dict.keys. rewrite List.map_map. simpl.
  apply keys_sorted_items.
Qed.

Lemma wf_sort_bucket (bk : bucket) : wf_bucket bk -> wf_jvalue (sort_bucket bk).
Proof.
  destruct bk as [l|m]; simpl.
  - intros Hnd. split; [apply ascending_sorted_strings|].
    now apply NoDup_sorted_strings.
  - intros [Hnd Hall]. rewrite keys_sort_map.
    split; [apply ascending_sorted_strings|].
    split; [now apply NoDup_sorted_strings|].
    intros label l Hin. unfold sort_map in Hin. apply in_map_iff in Hin.
    destruct Hin as ([k l0] & Heq & Hin). inversion Heq; subst.
    apply (proj1 (In_sorted_items _ _)) in Hin.
    split; [apply ascending_sorted_strings|].
    apply NoDup_sorted_strings. eauto.
Qed.

Lemma fold_set_wf (b : buckets) :
  forall man : manifest,
    (forall k bk, In (k, bk) b -> wf_bucket bk) ->
    NoDup (Dict.keys man) -> In "_base" (Dict.keys man) ->
    (forall k v, In (k, v) man -> wf_jvalue v) ->
    let man' := List.fold_left
                  (fun m kv => Dict.set m (fst kv) (sort_bucket (snd kv))) b man in
    NoDup (Dict.keys man') /\ In "_base" (Dict.keys man') /\
    (forall k v, In (k, v) man' -> wf_jvalue v).
Proof.
  induction b as [|[k bk] b IH]; simpl; intros man Hb Hnd Hbase Hall.
  - auto.
  - apply IH.
    + eauto.
    + now apply NoDup_keys_set.
    + rewrite keys_set. destruct (Dict.mem man k); [assumption|].
      apply in_or_app. now left.
    + intros k' v' Hin. apply In_set in Hin.
      destruct Hin as [[_ ->]|Hin]; [|eauto].
      apply wf_sort_bucket. eauto.
Qed.

Lemma wf_assemble (base : string) (b : buckets) :
  wf_buckets b -> wf_manifest (assemble base b).
Proof.
  intros [Hnd Hall]. unfold assemble, wf_manifest.
  destruct (@fold_set_wf b [("_base", JStr base)] Hall) as (Hnd' & Hbase' & Hall').
  - simpl. repeat constructor. simpl. tauto.
  - simpl. now left.
  - intros k v [Heq|[]]. inversion Heq; subst. exact I.
  - rewrite keys_sorted_items.
    split; [apply ascending_sorted_strings|].
    split; [now apply NoDup_sorted_strings|].
    split.
    + eapply Permutation_in; [apply sorted_perm | assumption].
    + intros k v Hin. apply (proj1 (In_sorted_items _ _)) in Hin. eauto.
Qed.

(** C8. Whenever [main] prints a manifest, its top-level keys ("_base"
    among them) are in ascending code-point order and distinct, every path
    list, top-level or under a pitch label, is ascending and free of
    duplicates, and the labels of every pitch map are ascending. *)
Theorem C8_manifest_well_formed
  (prefix_arg : option string) (root_name base : string) (tree : list string)
  (man : manifest) :
  main prefix_arg root_name base tree = Ok man -> wf_manifest man.
Proof.
  unfold main.
  destruct (run (resolve_prefix prefix_arg root_name) [] (walk_audio tree))
    as [b|e] eqn:E; [|discriminate].
  intros H. inversion H; subst man. apply wf_assemble.
  eapply wf_run; [apply wf_empty | eassumption].
Qed.

Lemma C8_manifest_well_formed_witness :
  wf_manifest
    [("_base", JStr "http://x/");
     ("p_bass", JMap [("c3", ["one shots/Bass/Bass_C3.wav"]);
                      ("unpitched", ["one shots/Bass/thud.wav"])]);
     ("p_snare", JList ["Custom/Snares/Snare_Hit.wav"])].
Proof.
  apply (@C8_manifest_well_formed (Some "p") "root" "http://x/"
           ["one shots/Bass/thud.wav"; "Custom/Snares/Snare_Hit.wav";
            "one shots/Bass/Bass_C3.wav"; "readme.txt"]).
  vm_compute. reflexivity.
Defined.

(** ** C4: the tempo detector *)

(** the first [n] characters exist and are digits *)
Fixpoint starts_with_digits (n : nat) (s : string) : bool :=
  match n with
  | O => true
  | S n' =>
      match s with
      | String c s' => is_digit c && starts_with_digits n' s'
      | EmptyString => false
      end
  end.

(** what [(?=$|[ _\-])] accepts after the digits *)
Definition right_code (post : string) : bool :=
  at_eol post ||
  match post with String c _ => is_sep c | EmptyString => false end.

(** the right delimiter in the words of the specification: the end of the
    string, a space, an underscore or a hyphen *)
Definition right_spec (post : string) : bool :=
  match post with String c _ => is_sep c | EmptyString => true end.

(** index [i] is the start of the string or follows a space, underscore
    or hyphen *)
Definition left_delimited (s : string) (i : nat) : bool :=
  match i with
  | O => true
  | S j => match String.get j s with Some c => is_sep c | None => false end
  end.

(** [s[i:i+n]] is a token of two or three digits, delimited on both sides *)
Definition tempo_token (right_ok : string -> bool) (s : string) (i n : nat) : bool :=
  left_delimited s i && ((n =? 2) || (n =? 3)) &&
  starts_with_digits n (Str.drop i s) && right_ok (Str.drop (i + n) s).

Definition token_value (s : string) (i n : nat) : Z :=
  Str.int (Str.take n (Str.drop i s)).

Definition in_tempo_range (v : Z) : bool := (40 <=? v)%Z && (v <? 200)%Z.

(** the claim at one stem, for a given reading of the right delimiter *)
Definition tempo_spec (right_ok : string -> bool) (stem : string) : Prop :=
  (forall v, get_bpm stem = Some v <->
     exists i n,
       tempo_token right_ok stem i n = true /\
       token_value stem i n = v /\
       in_tempo_range v = true /\
       forall j m, tempo_token right_ok stem j m = true ->
                   in_tempo_range (token_value stem j m) = true -> j <= i) /\
  (get_bpm stem = None <->
     forall i n, tempo_token right_ok stem i n = true ->
                 in_tempo_range (token_value stem i n) = false) /\
  (forall v, get_bpm stem = Some v -> (40 <= v < 200)%Z).

(** *** The matcher on [BPM_TOKEN] *)

Definition head_token (s : string) (n : nat) : bool :=
  starts_with_digits n s && right_code (Str.drop n s).

(** the length of the digit token at the head of [s], if there is one *)
Definition token_len (s : string) : option nat :=
  if head_token s 3 then Some 3
  else if head_token s 2 then Some 2
  else None.

Definition sep_ahead : regex := Ahead (Alt Eol (Cls is_sep)).

Definition bpm_tail : regex :=
  Seq (Grp 1 (Seq (Cls is_digit) (Seq (Cls is_digit) (Opt (Cls is_digit)))))
      sep_ahead.

Lemma digit_not_sep (c : ascii) : is_digit c = true -> is_sep c = false.
Proof. destruct c as [[] [] [] [] [] [] [] []]; vm_compute; congruence. Qed.

Lemma digit_not_newline (c : ascii) :
  is_digit c = true -> Ascii.eqb c newline = false.
Proof. destruct c as [[] [] [] [] [] [] [] []]; vm_compute; congruence. Qed.

Lemma right_code_digit (c : ascii) (s : string) :
  is_digit c = true -> right_code (String c s) = false.
Proof.
  intros H. unfold right_code. simpl.
  rewrite (digit_not_sep _ H).
  destruct s; [rewrite (digit_not_newline _ H)|]; reflexivity.
Qed.

Lemma sub_self_2 (p : nat) : S (S p) - p = 2.
Proof. lia. Qed.

Lemma sub_self_3 (p : nat) : S (S (S p)) - p = 3.
Proof. lia. Qed.

Lemma exec_ahead_sep (m : mstate) (k : mstate -> option mstate) :
  exec sep_ahead m k = if right_code (rest m) then k m else None.
Proof.
  unfold right_code, sep_ahead. simpl.
  destruct (at_eol (rest m)); simpl; [reflexivity|].
  destruct (rest m) as [|c t]; [reflexivity|].
  destruct (is_sep c); reflexivity.
Qed.

Lemma exec_bpm_tail (p : nat) (s : string) (g : list (nat * string)) :
  exec bpm_tail (MState p s g) Some =
  match token_len s with
  | Some n => Some (MState (n + p) (Str.drop n s) ((1, Str.take n s) :: g))
  | None => None
  end.
Proof.
  unfold bpm_tail, token_len, head_token.
  cbn [exec]. cbn [rest pos groups advance].
  destruct s as [|a [|b t]]; cbn [starts_with_digits andb]; try reflexivity.
  - destruct (is_digit a); reflexivity.
  - destruct (is_digit a); cbn [andb]; [|reflexivity].
    destruct (is_digit b) eqn:Eb; cbn [andb]; [|reflexivity].
    cbn [rest].
    destruct t as [|c t'].
    + rewrite exec_ahead_sep. unfold capture, advance. cbn [rest pos groups].
      rewrite sub_self_2. reflexivity.
    + destruct (is_digit c) eqn:Ec; cbn [andb Str.drop].
      * rewrite !exec_ahead_sep. unfold capture, advance. cbn [rest pos groups].
        rewrite (@right_code_digit c t' Ec), sub_self_3.
        destruct (right_code t'); reflexivity.
      * rewrite exec_ahead_sep. unfold capture, advance. cbn [rest pos groups].
        rewrite sub_self_2. destruct (right_code (String c t')); reflexivity.
Qed.

Definition token_match (p : nat) (s : string) : option mstate :=
  match token_len s with
  | Some n => Some (MState (n + p) (Str.drop n s) [(1, Str.take n s)])
  | None => None
  end.

(** an attempt at offset [p]: the token at the cursor when [p] is 0, or
    else the token after a separator at the cursor *)
Lemma match_at_bpm (p : nat) (s : string) :
  match_at BPM_TOKEN p s =
  match (if p =? 0 then token_match p s else None) with
  | Some m => Some m
  | None =>
      match s with
      | String c s' => if is_sep c then token_match (S p) s' else None
      | EmptyString => None
      end
  end.
Proof.
  unfold match_at, token_match.
  change BPM_TOKEN with (Seq (Alt Bol (Cls is_sep)) bpm_tail).
  cbn [exec pos rest]. rewrite exec_bpm_tail.
  destruct s as [|c s'].
  - reflexivity.
  - destruct (is_sep c); [|reflexivity].
    unfold advance. cbn [pos groups]. now rewrite exec_bpm_tail.
Qed.

Lemma token_len_digits (s : string) (n : nat) :
  token_len s = Some n -> starts_with_digits n s = true /\ (n = 2 \/ n = 3).
Proof.
  unfold token_len, head_token.
  destruct (starts_with_digits 3 s && right_code (Str.drop 3 s)) eqn:E3.
  - intros H. inversion H; subst. apply andb_true_iff in E3. tauto.
  - destruct (starts_with_digits 2 s && right_code (Str.drop 2 s)) eqn:E2;
      [|discriminate].
    intros H. inversion H; subst. apply andb_true_iff in E2. tauto.
Qed.

Lemma token_len_head_digit (c : ascii) (s : string) (n : nat) :
  token_len (String c s) = Some n -> is_digit c = true.
Proof.
  intros H. apply token_len_digits in H. destruct H as [H [-> | ->]];
    simpl in H; apply andb_true_iff in H; tauto.
Qed.

(** no attempt succeeds on a digit, except at offset 0 *)
Lemma match_at_bpm_digit (p : nat) (c : ascii) (s : string) :
  is_digit c = true -> match_at BPM_TOKEN (S p) (String c s) = None.
Proof.
  intros H. rewrite match_at_bpm. simpl. now rewrite (digit_not_sep _ H).
Qed.

(** the attempts at every offset from [p] on, in order *)
Fixpoint matches_from (r : regex) (p : nat) (s : string) : list mstate :=
  match match_at r p s with Some m => [m] | None => [] end ++
  match s with
  | EmptyString => []
  | String _ s' => matches_from r (S p) s'
  end.

Lemma starts_with_digits_tail (n : nat) (c : ascii) (s : string) :
  starts_with_digits (S n) (String c s) = true -> starts_with_digits n s = true.
Proof. simpl. intros H. apply andb_true_iff in H. tauto. Qed.

(** [finditer] on [BPM_TOKEN] misses no attempt: the characters a match
    covers beyond its first are digits, where no attempt succeeds *)
Lemma scan_bpm (s : string) :
  forall p skip,
    (skip = 0 \/ (0 < p /\ starts_with_digits skip s = true)) ->
    scan BPM_TOKEN p s skip = matches_from BPM_TOKEN p s.
Proof.
  induction s as [|c s IH]; intros p skip Hskip.
  - destruct skip as [|j]; simpl.
    + destruct (match_at BPM_TOKEN p ""); reflexivity.
    + destruct Hskip as [H|[_ H]]; [discriminate | simpl in H; discriminate].
  - destruct skip as [|j].
    + simpl. destruct (match_at BPM_TOKEN p (String c s)) as [m|] eqn:E.
      * simpl. f_equal. apply IH.
        rewrite match_at_bpm in E.
        destruct (Nat.eqb_spec p 0) as [->|Hp].
        -- unfold token_match in E.
           destruct (token_len (String c s)) as [n|] eqn:En.
           ++ inversion E; subst m. cbn [pos].
              apply token_len_digits in En. destruct En as [Hd Hn].
              right. split; [lia|].
              destruct Hn as [-> | ->]; cbn -[starts_with_digits];
                now apply starts_with_digits_tail in Hd.
           ++ destruct (is_sep c); [|discriminate].
              destruct (token_len s) as [n|] eqn:En'; [|discriminate].
              inversion E; subst m. cbn [pos].
              apply token_len_digits in En'. destruct En' as [Hd Hn].
              right. split; [lia|].
              replace (n + 1 - 0 - 1) with n by lia. exact Hd.
        -- destruct (is_sep c); [|discriminate].
           unfold token_match in E.
           destruct (token_len s) as [n|] eqn:En'; [|discriminate].
           inversion E; subst m. cbn [pos].
           apply token_len_digits in En'. destruct En' as [Hd Hn].
           right. split; [lia|].
           replace (n + S p - p - 1) with n by lia. exact Hd.
      * simpl. apply IH. now left.
    + destruct Hskip as [H|[Hp H]]; [discriminate|].
      destruct p as [|p]; [lia|].
      simpl in H. apply andb_true_iff in H. destruct H as [Hc Hd].
      simpl. rewrite (@match_at_bpm_digit p c s Hc). simpl.
      apply IH. right. split; [lia | assumption].
Qed.

Lemma finditer_bpm (s : string) :
  finditer BPM_TOKEN s = matches_from BPM_TOKEN 0 s.
Proof. apply scan_bpm. now left. Qed.

(** *** From the list of candidates to a scan of the stem *)

Definition orelse (A : Type) (x y : option A) : option A :=
  match x with Some _ => x | None => y end.

(** [cands[-1] if cands else None] *)
Definition pick (cands : list Z) : option Z :=
  match cands with
  | [] => None
  | _ => Some (List.last cands 0%Z)
  end.

Lemma last_app_cons (A : Type) (a : list A) (y : A) (b : list A) (d : A) :
  List.last (a ++ y :: b) d = List.last (y :: b) d.
Proof.
  induction a as [|x a IH]; [reflexivity|].
  simpl app. rewrite <- IH. simpl. now destruct (a ++ y :: b) eqn:E;
    [destruct a; discriminate|].
Qed.

Lemma pick_app (a b : list Z) : pick (a ++ b) = orelse (pick b) (pick a).
Proof.
  destruct b as [|y b].
  - rewrite app_nil_r. now destruct (pick a).
  - destruct a as [|x a]; [reflexivity|].
    unfold pick at 1 2. simpl app. cbn [orelse].
    change (x :: a ++ y :: b) with ((x :: a) ++ (y :: b)).
    now rewrite last_app_cons.
Qed.

(** the tempo of the token at the head of [s], when it is in range *)
Definition head_val (s : string) : option Z :=
  match token_len s with
  | Some n =>
      let v := Str.int (Str.take n s) in
      if in_tempo_range v then Some v else None
  | None => None
  end.

(** the last in-range token of [s]; [bol] tells whether a token may start
    at the head of [s] *)
Fixpoint last_tempo (bol : bool) (s : string) : option Z :=
  orelse (match s with
          | String c s' => last_tempo (is_sep c) s'
          | EmptyString => None
          end)
         (if bol then head_val s else None).

Lemma last_tempo_bol (b : bool) (s : string) :
  last_tempo b s = orelse (last_tempo false s) (if b then head_val s else None).
Proof.
  destruct s as [|c s]; simpl.
  - reflexivity.
  - destruct (last_tempo (is_sep c) s); reflexivity.
Qed.

Definition cand (m : mstate) : Z := Str.int (group_or_empty 1 m).

Definition tempo_from (p : nat) (s : string) : option Z :=
  pick (List.filter in_tempo_range (List.map cand (matches_from BPM_TOKEN p s))).

Lemma pick_token_match (p : nat) (s : string) :
  pick (List.filter in_tempo_range
          (List.map cand (match token_match p s with Some m => [m] | None => [] end)))
  = head_val s.
Proof.
  unfold token_match, head_val.
  destruct (token_len s) as [n|]; [|reflexivity].
  simpl. unfold cand, group_or_empty, group. simpl.
  destruct (in_tempo_range (Str.int (Str.take n s))); reflexivity.
Qed.

Lemma tempo_from_last_tempo (s : string) :
  forall p, tempo_from p s = last_tempo (p =? 0) s.
Proof.
  unfold tempo_from.
  induction s as [|c s IH]; intros p.
  - simpl matches_from. rewrite match_at_bpm.
    destruct (p =? 0); reflexivity.
  - simpl matches_from. rewrite List.map_app, List.filter_app, pick_app.
    rewrite (IH (S p)). change (S p =? 0) with false.
    rewrite (last_tempo_bol (p =? 0)).
    cbn [last_tempo]. rewrite (last_tempo_bol (is_sep c)).
    destruct (last_tempo false s) as [v|]; [reflexivity|].
    cbn [orelse]. rewrite match_at_bpm.
    destruct (p =? 0).
    + destruct (token_match p (String c s)) as [m|] eqn:E.
      * pose proof (pick_token_match p (String c s)) as Hp.
        rewrite E in Hp. rewrite Hp.
        unfold token_match in E.
        destruct (token_len (String c s)) as [n|] eqn:En; [|discriminate].
        apply token_len_head_digit in En.
        rewrite (digit_not_sep _ En). reflexivity.
      * assert (Hh : head_val (String c s) = None).
        { unfold token_match in E. unfold head_val.
          destruct (token_len (String c s)); [discriminate | reflexivity]. }
        rewrite Hh. destruct (is_sep c).
        -- rewrite pick_token_match. now destruct (head_val s).
        -- reflexivity.
    + destruct (is_sep c).
      * rewrite pick_token_match. now destruct (head_val s).
      * reflexivity.
Qed.

Lemma get_bpm_last_tempo (stem : string) :
  get_bpm stem = last_tempo true (lc stem).
Proof.
  unfold get_bpm. rewrite finditer_bpm.
  exact (tempo_from_last_tempo (lc stem) 0).
Qed.

(** *** The scan against the tokens of the stem *)

(** [tempo_token] for the text after the cursor: [bol] stands for the left
    delimiter of index 0 *)
Definition tok_rel (bol : bool) (s : string) (i n : nat) : bool :=
  match i with
  | O => bol
  | S j => match String.get j s with Some c => is_sep c | None => false end
  end &&
  ((n =? 2) || (n =? 3)) &&
  starts_with_digits n (Str.drop i s) && right_code (Str.drop (i + n) s).

Lemma tempo_token_tok_rel (s : string) (i n : nat) :
  tempo_token right_code s i n = tok_rel true s i n.
Proof. reflexivity. Qed.

Lemma tok_rel_S (b : bool) (c : ascii) (s : string) (i n : nat) :
  tok_rel b (String c s) (S i) n = tok_rel (is_sep c) s i n.
Proof. unfold tok_rel. destruct i; reflexivity. Qed.

Lemma token_value_S (c : ascii) (s : string) (i n : nat) :
  token_value (String c s) (S i) n = token_value s i n.
Proof. reflexivity. Qed.

Lemma tok_rel_0 (b : bool) (s : string) (n : nat) :
  tok_rel b s 0 n = true <->
  b = true /\ (n = 2 \/ n = 3) /\ head_token s n = true.
Proof.
  unfold tok_rel, head_token. simpl.
  rewrite !andb_true_iff, orb_true_iff, !Nat.eqb_eq. tauto.
Qed.

Lemma head_token_3_not_2 (s : string) :
  head_token s 3 = true -> head_token s 2 = false.
Proof.
  unfold head_token. intros H. apply andb_true_iff in H. destruct H as [H _].
  destruct s as [|a [|b [|c t]]]; simpl in *;
    rewrite ?andb_false_r in H; try discriminate.
  apply andb_true_iff in H. destruct H as [_ H].
  apply andb_true_iff in H. destruct H as [_ H].
  apply andb_true_iff in H. destruct H as [H _].
  rewrite (@right_code_digit c t H). apply andb_false_r.
Qed.

Lemma token_len_iff (s : string) (n : nat) :
  token_len s = Some n <-> (n = 2 \/ n = 3) /\ head_token s n = true.
Proof.
  unfold token_len. split.
  - destruct (head_token s 3) eqn:E3.
    + intros H. inversion H; subst. tauto.
    + destruct (head_token s 2) eqn:E2; [|discriminate].
      intros H. inversion H; subst. tauto.
  - intros [[-> | ->] H].
    + destruct (head_token s 3) eqn:E3.
      * apply head_token_3_not_2 in E3. congruence.
      * now rewrite H.
    + now rewrite H.
Qed.

(** the in-range token at the greatest index *)
Definition is_last (b : bool) (s : string) (v : Z) : Prop :=
  exists i n,
    tok_rel b s i n = true /\ token_value s i n = v /\
    in_tempo_range v = true /\
    forall j m, tok_rel b s j m = true ->
                in_tempo_range (token_value s j m) = true -> j <= i.

Definition none_in_range (b : bool) (s : string) : Prop :=
  forall i n, tok_rel b s i n = true -> in_tempo_range (token_value s i n) = false.

Lemma tok_rel_empty (b : bool) (i n : nat) : tok_rel b "" i n = false.
Proof.
  unfold tok_rel.
  destruct (Nat.eqb_spec n 2) as [->|H2]; [|destruct (Nat.eqb_spec n 3) as [->|H3]].
  - assert (Hd : Str.drop i "" = "") by (destruct i; reflexivity).
    rewrite Hd. simpl. now rewrite andb_false_r.
  - assert (Hd : Str.drop i "" = "") by (destruct i; reflexivity).
    rewrite Hd. simpl. now rewrite !andb_false_r.
  - simpl. now rewrite andb_false_r.
Qed.

Lemma token_value_0 (s : string) (n : nat) :
  token_value s 0 n = Str.int (Str.take n s).
Proof. unfold token_value. now destruct s. Qed.

Lemma last_tempo_spec (s : string) :
  forall b,
    match last_tempo b s with
    | Some v => is_last b s v
    | None => none_in_range b s
    end.
Proof.
  induction s as [|c s IH]; intros b.
  - assert (H : last_tempo b "" = None) by (destruct b; reflexivity).
    rewrite H. intros i n Ht. now rewrite tok_rel_empty in Ht.
  - cbn [last_tempo]. specialize (IH (is_sep c)).
    destruct (last_tempo (is_sep c) s) as [v'|].
    + cbn [orelse]. destruct IH as (i & n & Ht & Hv & Hr & Hmax).
      exists (S i), n. rewrite tok_rel_S, token_value_S.
      repeat split; try assumption.
      intros j m Hj Hjr. destruct j as [|j]; [lia|].
      rewrite tok_rel_S in Hj. rewrite token_value_S in Hjr.
      specialize (Hmax j m Hj Hjr). lia.
    + cbn [orelse].
      assert (Hlater : forall j m, tok_rel b (String c s) (S j) m = true ->
                in_tempo_range (token_value (String c s) (S j) m) = false).
      { intros j m Hj. rewrite tok_rel_S in Hj. rewrite token_value_S. auto. }
      destruct b.
      * unfold head_val. destruct (token_len (String c s)) as [n|] eqn:En.
        -- cbv zeta.
           destruct (in_tempo_range (Str.int (Str.take n (String c s)))) eqn:Er.
           ++ apply token_len_iff in En. destruct En as [Hn Hh].
              exists 0, n. rewrite token_value_0.
              repeat split; try assumption.
              ** apply tok_rel_0. tauto.
              ** intros j m Hj Hjr. destruct j as [|j]; [lia|].
                 rewrite (Hlater j m Hj) in Hjr. discriminate.
           ++ intros i m Hi. destruct i as [|i]; [|auto].
              apply tok_rel_0 in Hi. destruct Hi as (_ & Hm & Hh).
              assert (Hlen : token_len (String c s) = Some m)
                by (apply token_len_iff; tauto).
              rewrite token_value_0. congruence.
        -- intros i m Hi. destruct i as [|i]; [|auto].
           apply tok_rel_0 in Hi. destruct Hi as (_ & Hm & Hh).
           assert (Hlen : token_len (String c s) = Some m)
             by (apply token_len_iff; tauto).
           congruence.
      * intros i m Hi. destruct i as [|i]; [|auto].
        apply tok_rel_0 in Hi. destruct Hi as (Hb & _). discriminate.
Qed.

Lemma tok_rel_length_unique (b : bool) (s : string) (i n m : nat) :
  tok_rel b s i n = true -> tok_rel b s i m = true -> n = m.
Proof.
  revert b i. induction s as [|c s IH]; intros b i Hn Hm.
  - now rewrite tok_rel_empty in Hn.
  - destruct i as [|i].
    + apply tok_rel_0 in Hn. apply tok_rel_0 in Hm.
      destruct Hn as (_ & Hn & Hhn). destruct Hm as (_ & Hm & Hhm).
      assert (H1 : token_len (String c s) = Some n) by (apply token_len_iff; tauto).
      assert (H2 : token_len (String c s) = Some m) by (apply token_len_iff; tauto).
      congruence.
    + rewrite tok_rel_S in Hn, Hm. eauto.
Qed.

Lemma is_last_unique (b : bool) (s : string) (v w : Z) :
  is_last b s v -> is_last b s w -> v = w.
Proof.
  intros (i & n & Ht & Hv & Hr & Hmax) (j & m & Ht' & Hw & Hr' & Hmax').
  subst v w.
  assert (Hij : i = j).
  { apply Nat.le_antisymm; [apply (Hmax' i n) | apply (Hmax j m)]; assumption. }
  subst j. now rewrite (tok_rel_length_unique _ _ _ _ _ Ht Ht').
Qed.

Lemma last_tempo_Some_iff (b : bool) (s : string) (v : Z) :
  last_tempo b s = Some v <-> is_last b s v.
Proof.
  pose proof (last_tempo_spec s b) as H. split.
  - intros E. now rewrite E in H.
  - intros Hl. destruct (last_tempo b s) as [w|].
    + f_equal. eapply is_last_unique; eassumption.
    + destruct Hl as (i & n & Ht & Hv & Hr & _). subst v.
      rewrite (H i n Ht) in Hr. discriminate.
Qed.

Lemma last_tempo_None_iff (b : bool) (s : string) :
  last_tempo b s = None <-> none_in_range b s.
Proof.
  pose proof (last_tempo_spec s b) as H. split.
  - intros E. now rewrite E in H.
  - intros Hn. destruct (last_tempo b s) as [w|]; [|reflexivity].
    destruct H as (i & n & Ht & Hv & Hr & _). subst w.
    rewrite (Hn i n Ht) in Hr. discriminate.
Qed.

(** *** Lower-casing changes neither digits nor delimiters *)

Lemma is_digit_lower (c : ascii) : is_digit (lower_char c) = is_digit c.
Proof. destruct c as [[] [] [] [] [] [] [] []]; reflexivity. Qed.

Lemma is_sep_lower (c : ascii) : is_sep (lower_char c) = is_sep c.
Proof. destruct c as [[] [] [] [] [] [] [] []]; reflexivity. Qed.

Lemma newline_lower (c : ascii) :
  Ascii.eqb (lower_char c) newline = Ascii.eqb c newline.
Proof. destruct c as [[] [] [] [] [] [] [] []]; reflexivity. Qed.

Lemma digit_lower_id (c : ascii) : is_digit c = true -> lower_char c = c.
Proof.
  destruct c as [[] [] [] [] [] [] [] []]; vm_compute; congruence.
Qed.

Lemma drop_map (f : ascii -> ascii) (n : nat) :
  forall s, Str.drop n (Str.map f s) = Str.map f (Str.drop n s).
Proof.
  induction n as [|n IH]; intros [|c s]; simpl; auto.
Qed.

Lemma starts_with_digits_lower (n : nat) :
  forall s, starts_with_digits n (lc s) = starts_with_digits n s.
Proof.
  induction n as [|n IH]; intros [|c s]; simpl; try reflexivity.
  rewrite is_digit_lower. f_equal. apply IH.
Qed.

Lemma take_digits_lower (n : nat) :
  forall s, starts_with_digits n s = true -> Str.take n (lc s) = Str.take n s.
Proof.
  induction n as [|n IH]; intros [|c s]; simpl; try reflexivity.
  intros H. apply andb_true_iff in H. destruct H as [Hc Hs].
  rewrite (digit_lower_id _ Hc). f_equal. now apply IH.
Qed.

Lemma right_code_lower (s : string) : right_code (lc s) = right_code s.
Proof.
  unfold right_code. destruct s as [|c [|d t]]; simpl; try reflexivity.
  - now rewrite newline_lower, is_sep_lower.
  - now rewrite is_sep_lower.
Qed.

Lemma head_token_lower (s : string) (n : nat) :
  head_token (lc s) n = head_token s n.
Proof.
  unfold head_token, lc, Str.lower. rewrite drop_map.
  change (Str.map lower_char ?x) with (lc x).
  now rewrite starts_with_digits_lower, right_code_lower.
Qed.

Lemma head_val_lower (s : string) : head_val (lc s) = head_val s.
Proof.
  unfold head_val, token_len. rewrite !head_token_lower.
  destruct (head_token s 3) eqn:E3.
  - unfold head_token in E3. apply andb_true_iff in E3.
    now rewrite take_digits_lower.
  - destruct (head_token s 2) eqn:E2; [|reflexivity].
    unfold head_token in E2. apply andb_true_iff in E2.
    now rewrite take_digits_lower.
Qed.

Lemma last_tempo_lower (s : string) :
  forall b, last_tempo b (lc s) = last_tempo b s.
Proof.
  induction s as [|c s IH]; intros b; [reflexivity|].
  change (lc (String c s)) with (String (lower_char c) (lc s)).
  cbn [last_tempo]. rewrite IH, is_sep_lower.
  change (String (lower_char c) (lc s)) with (lc (String c s)).
  now rewrite head_val_lower.
Qed.

Lemma get_bpm_scan (stem : string) : get_bpm stem = last_tempo true stem.
Proof. rewrite get_bpm_last_tempo. apply last_tempo_lower. Qed.

Lemma in_tempo_range_iff (v : Z) :
  in_tempo_range v = true <-> (40 <= v < 200)%Z.
Proof. unfold in_tempo_range. rewrite andb_true_iff. lia. Qed.

(** With the right delimiter read as in the specification, the claim fails
    on a stem that ends in a newline: [$] matches just before it. *)
Lemma C4_counterexample :
  ~ tempo_spec right_spec (String "1" (String "2" (String "0" (String newline "")))).
Proof.
  intros (H & _ & _).
  assert (E : get_bpm (String "1" (String "2" (String "0" (String newline ""))))
              = Some 120%Z) by (vm_compute; reflexivity).
  apply H in E. destruct E as (i & n & Ht & _).
  unfold tempo_token in Ht.
  rewrite !andb_true_iff, orb_true_iff, !Nat.eqb_eq in Ht.
  destruct Ht as [[[Hl Hn] Hd] Hr].
  destruct Hn as [-> | ->];
    do 5 (destruct i as [|i];
          [first [discriminate Hl | discriminate Hd | discriminate Hr]|]);
    cbn in Hd; discriminate Hd.
Qed.

(** C4 (amended). [get_bpm] returns the value of the last token of two or
    three digits that follows the start of the stem, a space, an underscore
    or a hyphen, that is followed by the end of the stem, a newline ending
    the stem, a space, an underscore or a hyphen, and whose value lies in
    [40,200); it returns [None] when the stem has no such token, and never
    a value outside [40,200). *)
Theorem C4_tempo_extraction (stem : string) : tempo_spec right_code stem.
Proof.
  unfold tempo_spec. rewrite get_bpm_scan. split; [|split].
  - intros v. rewrite last_tempo_Some_iff. reflexivity.
  - rewrite last_tempo_None_iff. reflexivity.
  - intros v Hv. apply last_tempo_Some_iff in Hv.
    destruct Hv as (i & n & _ & _ & Hr & _). now apply in_tempo_range_iff.
Qed.

(** ** C5: the key detector *)

(** *** Patterns of the form [(?:^|[left])tail] under [search] *)

Section FirstToken.
Variable X : Type.
Variable left : ascii -> bool.
Variable tail : regex.
(** what the tail yields at the head of a text *)
Variable head : string -> option X.
Variable out : mstate -> X.

Hypothesis tail_head :
  forall p s, option_map out (exec tail (MState p s []) Some) = head s.

(** index [i] of [s] is the start of the text or follows a character of
    the class [left] *)
Definition left_bounded (s : string) (i : nat) : bool :=
  match i with
  | O => true
  | S j => match String.get j s with Some c => left c | None => false end
  end.

(** the token of the grammar at index [i] of [s] *)
Definition token_at (s : string) (i : nat) : option X :=
  if left_bounded s i then head (Str.drop i s) else None.

(** the token at the least index; [bol] tells whether a token may start at
    the head of [s] *)
Fixpoint first_tok (bol : bool) (s : string) : option X :=
  orelse (if bol then head s else None)
         (match s with
          | String c s' => first_tok (left c) s'
          | EmptyString => None
          end).

Lemma first_tok_bol (b : bool) (s : string) :
  first_tok b s = orelse (if b then head s else None) (first_tok false s).
Proof. destruct s as [|c s]; reflexivity. Qed.

Lemma match_at_left (p : nat) (s : string) :
  option_map out (match_at (Seq (Alt Bol (Cls left)) tail) p s) =
  orelse (if p =? 0 then head s else None)
         (match s with
          | String c s' => if left c then head s' else None
          | EmptyString => None
          end).
Proof.
  unfold match_at. cbn [exec pos rest].
  destruct (p =? 0).
  - rewrite <- (tail_head p s).
    destruct (exec tail (MState p s []) Some) as [m|]; [reflexivity|].
    cbn [option_map orelse]. destruct s as [|c s']; [reflexivity|].
    destruct (left c); [|reflexivity]. apply tail_head.
  - cbn [orelse]. destruct s as [|c s']; [reflexivity|].
    destruct (left c); [|reflexivity]. apply tail_head.
Qed.

Lemma orelse_assoc (A : Type) (x y z : option A) :
  orelse (orelse x y) z = orelse x (orelse y z).
Proof. now destruct x. Qed.

Lemma orelse_None_r (A : Type) (x : option A) : orelse x None = x.
Proof. now destruct x. Qed.

Lemma search_from_first_tok (s : string) :
  forall p,
    option_map out (search_from (Seq (Alt Bol (Cls left)) tail) p s)
    = first_tok (p =? 0) s.
Proof.
  induction s as [|c s IH]; intros p.
  - cbn [search_from first_tok].
    pose proof (match_at_left p "") as H.
    destruct (match_at (Seq (Alt Bol (Cls left)) tail) p "") as [m|].
    + rewrite H. reflexivity.
    + rewrite orelse_None_r in H. now rewrite orelse_None_r.
  - cbn [search_from]. pose proof (match_at_left p (String c s)) as H.
    rewrite (first_tok_bol (p =? 0)). cbn [first_tok orelse].
    rewrite (first_tok_bol (left c)), <- orelse_assoc, <- H.
    destruct (match_at (Seq (Alt Bol (Cls left)) tail) p (String c s)) as [m|].
    + reflexivity.
    + cbn [option_map orelse]. rewrite (IH (S p)). reflexivity.
Qed.

(** the same token, seen from the text after the cursor *)
Definition tok_from (b : bool) (s : string) (i : nat) : option X :=
  if match i with
     | O => b
     | S j => match String.get j s with Some c => left c | None => false end
     end
  then head (Str.drop i s) else None.

Lemma tok_from_S (b : bool) (c : ascii) (s : string) (i : nat) :
  tok_from b (String c s) (S i) = tok_from (left c) s i.
Proof. unfold tok_from. destruct i; reflexivity. Qed.

Lemma first_tok_spec (s : string) :
  forall b,
    match first_tok b s with
    | Some x => exists i, tok_from b s i = Some x /\
                          forall j, j < i -> tok_from b s j = None
    | None => forall i, tok_from b s i = None
    end.
Proof.
  induction s as [|c s IH]; intros b.
  - cbn [first_tok]. rewrite orelse_None_r.
    destruct b.
    + destruct (head "") as [x|] eqn:E.
      * exists 0. split; [exact E | intros j Hj; lia].
      * intros [|i]; [exact E|]. reflexivity.
    + intros [|i]; reflexivity.
  - cbn [first_tok].
    assert (H0 : tok_from b (String c s) 0 = if b then head (String c s) else None)
      by reflexivity.
    destruct (if b then head (String c s) else None) as [x|] eqn:E.
    + exists 0. split; [now rewrite H0 | intros j Hj; lia].
    + cbn [orelse]. specialize (IH (left c)).
      destruct (first_tok (left c) s) as [x|].
      * destruct IH as (i & Hi & Hmin). exists (S i). split.
        -- now rewrite tok_from_S.
        -- intros [|j] Hj; [exact H0|]. rewrite tok_from_S. apply Hmin. lia.
      * intros [|i]; [exact H0|]. rewrite tok_from_S. apply IH.
Qed.

Lemma search_spec (s : string) :
  match option_map out (search (Seq (Alt Bol (Cls left)) tail) s) with
  | Some x => exists i, token_at s i = Some x /\
                        forall j, j < i -> token_at s j = None
  | None => forall i, token_at s i = None
  end.
Proof.
  unfold search. rewrite search_from_first_tok.
  exact (first_tok_spec s true).
Qed.

End FirstToken.

(** *** The octave-qualified grammar *)

(** [[^A-Za-z]] and [[^A-Za-z0-9]] *)
Definition not_alpha (c : ascii) : bool := negb (is_alpha c).
Definition not_alnum (c : ascii) : bool := negb (is_alnum c).

Definition oct_ahead : regex := Ahead (Alt (Cls not_alnum) Eol).

Definition oct_tail : regex :=
  Seq (Grp 1 (Cls is_note_letter))
      (Seq (Grp 2 (Opt (Cls is_accidental)))
           (Seq (Grp 3 (Cls is_digit)) oct_ahead)).

(** what [(?=[^A-Za-z0-9]|$)] accepts after the digit: the end of the text
    or a character that is neither a letter nor a digit (a newline is one) *)
Definition right_oct (post : string) : bool :=
  match post with
  | String c _ => not_alnum c
  | EmptyString => true
  end.

(** the octave-qualified token at the head of [s]: the pitch token and the
    octave *)
Definition oct_head (s : string) : option (string * Z) :=
  match s with
  | String l t =>
      if is_note_letter l then
        orelse
          (match t with
           | String x (String d u) =>
               if is_accidental x && is_digit d && right_oct u
               then Some (String l (String x ""), digit_val d) else None
           | _ => None
           end)
          (match t with
           | String d u =>
               if is_digit d && right_oct u
               then Some (String l "", digit_val d) else None
           | EmptyString => None
           end)
      else None
  | EmptyString => None
  end.

Definition out_oct (m : mstate) : string * Z :=
  ((group_or_empty 1 m ++ group_or_empty 2 m)%string, Str.int (group_or_empty 3 m)).

Lemma newline_not_alnum (c : ascii) :
  Ascii.eqb c newline = true -> not_alnum c = true.
Proof. intros H. apply Ascii.eqb_eq in H. now subst. Qed.

Lemma exec_oct_ahead (m : mstate) (k : mstate -> option mstate) :
  exec oct_ahead m k = if right_oct (rest m) then k m else None.
Proof.
  unfold oct_ahead, right_oct. cbn [exec].
  destruct (rest m) as [|c t]; [reflexivity|].
  destruct (not_alnum c) eqn:E; [reflexivity|].
  unfold at_eol. destruct t; [|reflexivity].
  destruct (Ascii.eqb c newline) eqn:En; [|reflexivity].
  apply newline_not_alnum in En. congruence.
Qed.

Lemma sub_self_1 (p : nat) : S p - p = 1.
Proof. lia. Qed.

Ltac run_exec :=
  cbn [exec]; unfold capture, advance; cbn [rest pos groups].

Lemma tail_oct (p : nat) (s : string) :
  option_map out_oct (exec oct_tail (MState p s []) Some) = oct_head s.
Proof.
  unfold oct_tail, oct_head.
  destruct s as [|l [|x [|d v]]]; run_exec; try reflexivity.
  - destruct (is_note_letter l); reflexivity.
  - destruct (is_note_letter l); [|reflexivity].
    destruct (is_accidental x); cbn [orelse];
      (destruct (is_digit x); [|reflexivity]);
      rewrite exec_oct_ahead; run_exec; cbn [right_oct andb];
      rewrite ?sub_self_1, ?Nat.sub_diag; reflexivity.
  - destruct (is_note_letter l); [|reflexivity].
    rewrite !exec_oct_ahead. run_exec.
    rewrite !sub_self_1, Nat.sub_diag. cbn [Str.take].
    destruct (is_accidental x), (is_digit x), (is_digit d),
      (right_oct v), (right_oct (String d v)); reflexivity.
Qed.

(** *** The bare grammar *)

(** [s.startswith(w)] *)
Fixpoint startswith (s w : string) {struct w} : bool :=
  match w with
  | EmptyString => true
  | String c w' =>
      match s with
      | String d s' => Ascii.eqb c d && startswith s' w'
      | EmptyString => false
      end
  end.

Definition bare_ahead : regex := Ahead (Alt Eol (Cls is_sep_or_digit)).

Definition qual_part : regex :=
  Seq (Opt (Grp 3 (Alt (lit "maj") (Alt (lit "min") (lit "m"))))) bare_ahead.

Definition bare_tail : regex :=
  Seq (Grp 1 (Cls is_note_letter))
      (Seq (Grp 2 (Opt (Cls is_accidental))) qual_part).

(** what [(?=$|[ _\-\d])] accepts after the token *)
Definition right_bare (post : string) : bool :=
  at_eol post ||
  match post with String c _ => is_sep_or_digit c | EmptyString => false end.

(** the quality suffix at the head of [t], followed by the right delimiter *)
Definition qual_here (t : string) : option string :=
  if startswith t "maj" && right_bare (Str.drop 3 t) then Some "maj"
  else if startswith t "min" && right_bare (Str.drop 3 t) then Some "min"
  else if startswith t "m" && right_bare (Str.drop 1 t) then Some "m"
  else if right_bare t then Some ""
  else None.

(** the bare token at the head of [s]: the pitch token and the quality *)
Definition bare_head (s : string) : option (string * string) :=
  match s with
  | String l t =>
      if is_note_letter l then
        orelse
          (match t with
           | String x u =>
               if is_accidental x
               then option_map (fun q => (String l (String x ""), q)) (qual_here u)
               else None
           | EmptyString => None
           end)
          (option_map (fun q => (String l "", q)) (qual_here t))
      else None
  | EmptyString => None
  end.

Definition out_bare (m : mstate) : string * string :=
  ((group_or_empty 1 m ++ group_or_empty 2 m)%string,
   Str.lower (group_or_empty 3 m)).

Lemma exec_bare_ahead (m : mstate) (k : mstate -> option mstate) :
  exec bare_ahead m k = if right_bare (rest m) then k m else None.
Proof.
  unfold bare_ahead, right_bare. cbn [exec].
  destruct (at_eol (rest m)); [reflexivity|]. cbn [orb].
  destruct (rest m) as [|c t]; [reflexivity|].
  destruct (is_sep_or_digit c); reflexivity.
Qed.

Definition with_qual (q : string) (g : list (nat * string)) : list (nat * string) :=
  match q with
  | EmptyString => g
  | _ => (3, q) :: g
  end.

Ltac split_ifs :=
  repeat match goal with
         | |- context [if ?b then _ else _] => destruct b eqn:?
         | |- context [match ?b with Some _ => _ | None => _ end] => destruct b eqn:?
         end.

Ltac close_qual :=
  cbn [startswith andb Ascii.eqb Bool.eqb String.length Str.drop Str.take
       with_qual Nat.add];
  repeat match goal with
         | |- context [right_bare ?x] => destruct (right_bare x)
         end;
  reflexivity.

Lemma exec_qual_part (p : nat) (t : string) (g : list (nat * string)) :
  exec qual_part (MState p t g) Some =
  match qual_here t with
  | Some q =>
      Some (MState (String.length q + p) (Str.drop (String.length q) t)
                   (with_qual q g))
  | None => None
  end.
Proof.
  unfold qual_part, qual_here. cbn [lit].
  destruct t as [|a [|b [|c u]]]; run_exec; cbn [startswith andb Str.drop];
    rewrite ?exec_bare_ahead; run_exec.
  - close_qual.
  - destruct (Ascii.eqb_spec "m" a) as [<-|Ha]; run_exec;
      rewrite ?exec_bare_ahead; run_exec; rewrite ?sub_self_1; close_qual.
  - destruct (Ascii.eqb_spec "m" a) as [<-|Ha]; run_exec;
      rewrite ?exec_bare_ahead; run_exec; rewrite ?sub_self_1;
      [|close_qual].
    destruct (Ascii.eqb_spec "a" b) as [<-|Hb];
      [|destruct (Ascii.eqb_spec "i" b) as [<-|Hb']]; run_exec; close_qual.
  - destruct (Ascii.eqb_spec "m" a) as [<-|Ha]; run_exec;
      rewrite ?exec_bare_ahead; run_exec; rewrite ?sub_self_1;
      [|close_qual].
    destruct (Ascii.eqb_spec "a" b) as [<-|Hb];
      [|destruct (Ascii.eqb_spec "i" b) as [<-|Hb']]; run_exec.
    + destruct (Ascii.eqb_spec "j" c) as [<-|Hc]; run_exec;
        rewrite ?exec_bare_ahead; run_exec; rewrite ?sub_self_3; close_qual.
    + destruct (Ascii.eqb_spec "n" c) as [<-|Hc]; run_exec;
        rewrite ?exec_bare_ahead; run_exec; rewrite ?sub_self_3; close_qual.
    + close_qual.
Qed.

Lemma qual_here_cases (t q : string) :
  qual_here t = Some q -> q = "maj" \/ q = "min" \/ q = "m" \/ q = "".
Proof.
  unfold qual_here.
  repeat match goal with
         | |- context [if ?b then _ else _] => destruct b
         end;
    intros H; inversion H; tauto.
Qed.

Lemma out_bare_with_qual (t q : string) (p : nat) (r l a : string) :
  qual_here t = Some q ->
  out_bare (MState p r (with_qual q [(2, a); (1, l)])) = ((l ++ a)%string, q).
Proof.
  intros H. apply qual_here_cases in H.
  destruct H as [-> | [-> | [-> | ->]]]; reflexivity.
Qed.

Lemma tail_bare (p : nat) (s : string) :
  option_map out_bare (exec bare_tail (MState p s []) Some) = bare_head s.
Proof.
  unfold bare_tail, bare_head.
  destruct s as [|l [|x u]]; run_exec; try reflexivity.
  - destruct (is_note_letter l); [|reflexivity].
    rewrite exec_qual_part. rewrite Nat.sub_diag, sub_self_1. cbn [orelse Str.take].
    destruct (qual_here "") as [q|] eqn:E; [|reflexivity].
    cbn [option_map]. now rewrite (@out_bare_with_qual _ _ _ _ _ _ E).
  - destruct (is_note_letter l); [|reflexivity].
    rewrite !exec_qual_part. rewrite Nat.sub_diag, !sub_self_1. cbn [Str.take].
    destruct (is_accidental x).
    + destruct (qual_here u) as [q|] eqn:E.
      * cbn [option_map orelse]. now rewrite (@out_bare_with_qual _ _ _ _ _ _ E).
      * cbn [option_map orelse].
        destruct (qual_here (String x u)) as [q|] eqn:E'; [|reflexivity].
        cbn [option_map]. now rewrite (@out_bare_with_qual _ _ _ _ _ _ E').
    + cbn [orelse].
      destruct (qual_here (String x u)) as [q|] eqn:E'; [|reflexivity].
      cbn [option_map]. now rewrite (@out_bare_with_qual _ _ _ _ _ _ E').
Qed.

(** *** The two grammars against [get_key] *)

(** the octave-qualified and the bare token at index [i] of [s] *)
Definition oct_at (s : string) (i : nat) : option (string * Z) :=
  token_at not_alpha oct_head s i.

Definition bare_at (s : string) (i : nat) : option (string * string) :=
  token_at is_sep bare_head s i.

Definition key_of_oct (x : string * Z) : key_info :=
  KeyInfo (normalize_note (fst x)) false (Some (snd x)).

Definition key_of_bare (y : string * string) : key_info :=
  KeyInfo (normalize_note (fst y)) (Str.mem (snd y) ["m"; "min"]) None.

Lemma get_key_search (stem : string) :
  get_key stem =
  match option_map out_oct (search KEY_WITH_OCT (lc stem)) with
  | Some x => Some (key_of_oct x)
  | None =>
      option_map key_of_bare (option_map out_bare (search KEY_TOKEN (lc stem)))
  end.
Proof.
  unfold get_key.
  destruct (search KEY_WITH_OCT (lc stem)) as [m|]; [reflexivity|].
  destruct (search KEY_TOKEN (lc stem)) as [m|]; reflexivity.
Qed.

Lemma search_oct (s : string) :
  match option_map out_oct (search KEY_WITH_OCT s) with
  | Some x => exists i, oct_at s i = Some x /\ forall j, j < i -> oct_at s j = None
  | None => forall i, oct_at s i = None
  end.
Proof. exact (@search_spec _ not_alpha oct_tail oct_head out_oct tail_oct s). Qed.

Lemma search_bare (s : string) :
  match option_map out_bare (search KEY_TOKEN s) with
  | Some y => exists i, bare_at s i = Some y /\ forall j, j < i -> bare_at s j = None
  | None => forall i, bare_at s i = None
  end.
Proof. exact (@search_spec _ is_sep bare_tail bare_head out_bare tail_bare s). Qed.

Example oct_at_ex : oct_at "bass_c#3" 5 = Some ("c#", 3%Z).
Proof. reflexivity. Qed.

Example bare_at_ex : bare_at "piano_120_cm" 10 = Some ("c", "m").
Proof. reflexivity. Qed.

(** C5. On the lower-cased stem: when the octave-qualified grammar has a
    token anywhere, [get_key] returns the token at the least index, not
    minor, with the octave of its digit; when it has none and the bare
    grammar has a token, [get_key] returns the bare token at the least
    index, minor exactly when the suffix is "m" or "min", without octave;
    when neither grammar has a token, [get_key] returns [None]. *)
Theorem C5_key_precedence (stem : string) :
  let s := lc stem in
  ((exists i, oct_at s i <> None) ->
   exists i x, oct_at s i = Some x /\ (forall j, j < i -> oct_at s j = None) /\
               get_key stem = Some (key_of_oct x)) /\
  ((forall i, oct_at s i = None) -> (exists i, bare_at s i <> None) ->
   exists i y, bare_at s i = Some y /\ (forall j, j < i -> bare_at s j = None) /\
               get_key stem = Some (key_of_bare y)) /\
  ((forall i, oct_at s i = None) -> (forall i, bare_at s i = None) ->
   get_key stem = None).
Proof.
  intros s. rewrite get_key_search. fold s.
  pose proof (search_oct s) as Ho. pose proof (search_bare s) as Hb.
  destruct (option_map out_oct (search KEY_WITH_OCT s)) as [x|].
  - destruct Ho as (i & Hi & Hmin). split; [|split].
    + intros _. exists i, x. auto.
    + intros Hnone. rewrite Hnone in Hi. discriminate.
    + intros Hnone. rewrite Hnone in Hi. discriminate.
  - split; [|split].
    + intros (i & Hi). now rewrite Ho in Hi.
    + intros _ (i & Hi).
      destruct (option_map out_bare (search KEY_TOKEN s)) as [y|].
      * destruct Hb as (j & Hj & Hmin). exists j, y. auto.
      * now rewrite Hb in Hi.
    + intros _ Hnone.
      destruct (option_map out_bare (search KEY_TOKEN s)) as [y|]; [|reflexivity].
      destruct Hb as (j & Hj & _). rewrite Hnone in Hj. discriminate.
Qed.

Lemma C5_key_precedence_witness :
  exists i x,
    oct_at (lc "Bass_C#3") i = Some x /\
    (forall j, j < i -> oct_at (lc "Bass_C#3") j = None) /\
    get_key "Bass_C#3" = Some (key_of_oct x).
Proof.
  apply (proj1 (C5_key_precedence "Bass_C#3")).
  exists 5. vm_compute. discriminate.
Defined.

(** ** Order independence of the runs that complete *)

(** *** The order on strings *)

Lemma ascii_compare_Lt_trans (a b c : ascii) :
  Ascii.compare a b = Lt -> Ascii.compare b c = Lt -> Ascii.compare a c = Lt.
Proof.
  unfold Ascii.compare. rewrite !N.compare_lt_iff. apply N.lt_trans.
Qed.

Lemma string_compare_not_Gt_trans (a : string) :
  forall b c,
    String.compare a b <> Gt -> String.compare b c <> Gt ->
    String.compare a c <> Gt.
Proof.
  induction a as [|x a IH]; intros [|y b] [|z c]; simpl; try congruence.
  destruct (Ascii.compare x y) eqn:Exy; try congruence.
  - apply Ascii.compare_eq_iff in Exy. subst y.
    destruct (Ascii.compare x z); try congruence. intros; eapply IH; eauto.
  - intros _. destruct (Ascii.compare y z) eqn:Eyz; try congruence.
    + apply Ascii.compare_eq_iff in Eyz. subst z. now rewrite Exy.
    + now rewrite (ascii_compare_Lt_trans _ _ _ Exy Eyz).
Qed.

Lemma leb_not_Gt (a b : string) : String.leb a b = true <-> String.compare a b <> Gt.
Proof. unfold String.leb. destruct (String.compare a b); split; congruence. Qed.

Lemma string_leb_trans (a b c : string) :
  String.leb a b = true -> String.leb b c = true -> String.leb a c = true.
Proof. rewrite !leb_not_Gt. apply string_compare_not_Gt_trans. Qed.

(** *** A sorted list is determined by its elements *)

Section SortUnique.
Variable A : Type.
Variable leb : A -> A -> bool.
Hypothesis leb_total : forall x y, leb x y = true \/ leb y x = true.
Hypothesis leb_trans :
  forall x y z, leb x y = true -> leb y z = true -> leb x z = true.

Let le (x y : A) : Prop := leb x y = true.

Lemma strongly_sorted_unique (l1 : list A) :
  forall l2,
    (forall x y, In x l1 -> In y l1 -> le x y -> le y x -> x = y) ->
    StronglySorted le l1 -> StronglySorted le l2 -> Permutation l1 l2 ->
    l1 = l2.
Proof.
  induction l1 as [|x l1 IH]; intros l2 Hanti H1 H2 Hp.
  - apply Permutation_nil in Hp. now subst.
  - destruct l2 as [|y l2].
    + apply Permutation_sym, Permutation_nil in Hp. discriminate.
    + inversion H1 as [|? ? Hs1 Hx]; subst. inversion H2 as [|? ? Hs2 Hy]; subst.
      assert (Hxy : x = y).
      { assert (Hyin : In y (x :: l1))
          by (eapply Permutation_in; [apply Permutation_sym; eassumption | now left]).
        assert (Hxin : In x (y :: l2))
          by (eapply Permutation_in; [eassumption | now left]).
        destruct Hyin as [->|Hyin]; [reflexivity|].
        destruct Hxin as [->|Hxin]; [reflexivity|].
        rewrite Forall_forall in Hx, Hy.
        apply Hanti; [now left | now right | auto | auto]. }
      subst y. f_equal. apply IH; try assumption.
      * intros a b Ha Hb. apply Hanti; now right.
      * eapply Permutation_cons_inv; eassumption.
Qed.

Lemma sorted_unique (l1 l2 : list A) :
  (forall x y, In x l1 -> In y l1 -> le x y -> le y x -> x = y) ->
  Permutation l1 l2 -> sorted leb l1 = sorted leb l2.
Proof.
  intros Hanti Hp.
  assert (Htr : Relations_1.Transitive le) by (intros x y z; apply leb_trans).
  apply strongly_sorted_unique.
  - intros x y Hx Hy. apply Hanti;
      (eapply Permutation_in; [apply Permutation_sym, sorted_perm | eassumption]).
  - apply Sorted_StronglySorted; [assumption | now apply sorted_Sorted].
  - apply Sorted_StronglySorted; [assumption | now apply sorted_Sorted].
  - eapply perm_trans; [apply Permutation_sym, sorted_perm|].
    eapply perm_trans; [eassumption | apply sorted_perm].
Qed.

End SortUnique.

Lemma sorted_strings_unique (l1 l2 : list string) :
  NoDup l1 -> NoDup l2 -> (forall x, In x l1 <-> In x l2) ->
  sorted_strings l1 = sorted_strings l2.
Proof.
  intros H1 H2 Hin. unfold sorted_strings. apply sorted_unique.
  - apply String.leb_total.
  - apply string_leb_trans.
  - intros x y _ _. apply String.leb_antisym.
  - now apply NoDup_Permutation.
Qed.

(** *** Dictionaries with the same lookups sort to the same list *)

Lemma NoDup_keys_NoDup (V : Type) (d : Dict.t V) :
  NoDup (Dict.keys d) -> NoDup d.
Proof.
  induction d as [|[k v] d IH]; simpl; intros H; [constructor|].
  inversion H as [|? ? Hnotin Hnd]; subst. constructor; [|auto].
  intros Hin. apply Hnotin. change k with (fst (k, v)). now apply in_map.
Qed.

Lemma In_iff_get (V : Type) (d : Dict.t V) (k : string) (v : V) :
  NoDup (Dict.keys d) -> (In (k, v) d <-> Dict.get d k = Some v).
Proof. intros H. split; [now apply In_get | apply get_In]. Qed.

Lemma sorted_items_unique (V : Type) (d d' : Dict.t V) :
  NoDup (Dict.keys d) -> NoDup (Dict.keys d') ->
  (forall k, Dict.get d k = Dict.get d' k) ->
  sorted_items d = sorted_items d'.
Proof.
  intros H H' Hget. unfold sorted_items. apply sorted_unique.
  - intros x y. apply String.leb_total.
  - intros x y z. apply string_leb_trans.
  - intros [k v] [k' v'] Hx Hy Hle Hle'. simpl in Hle, Hle'.
    assert (k = k') by now apply String.leb_antisym. subst k'.
    apply (In_get _ _ _ H) in Hx. apply (In_get _ _ _ H) in Hy. congruence.
  - apply NoDup_Permutation; try now apply NoDup_keys_NoDup.
    intros [k v]. rewrite !In_iff_get by assumption. now rewrite Hget.
Qed.

Lemma fold_set_get (V W : Type) (f : V -> W) (b : Dict.t V) :
  forall (man : Dict.t W) (k : string),
    NoDup (Dict.keys b) ->
    Dict.get (List.fold_left (fun m kv => Dict.set m (fst kv) (f (snd kv))) b man) k
    = match Dict.get b k with
      | Some v => Some (f v)
      | None => Dict.get man k
      end.
Proof.
  induction b as [|[k0 v0] b IH]; intros man k Hnd; simpl; [reflexivity|].
  inversion Hnd as [|? ? Hnotin Hnd']; subst.
  rewrite IH by assumption.
  destruct (String.eqb_spec k0 k) as [->|Hne].
  - apply get_None_keys in Hnotin. rewrite Hnotin. apply get_set_same.
  - destruct (Dict.get b k); [reflexivity|].
    apply get_set_other. congruence.
Qed.

(** [{k: f(v) for k, v in d.items()}] *)
Definition map_values (V W : Type) (f : V -> W) (d : Dict.t V) : Dict.t W :=
  List.map (fun kv => (fst kv, f (snd kv))) d.

Lemma keys_map_values (V W : Type) (f : V -> W) (d : Dict.t V) :
  Dict.keys (map_values f d) = Dict.keys d.
Proof. unfold Dict.keys, map_values. rewrite List.map_map. reflexivity. Qed.

Lemma get_map_values (V W : Type) (f : V -> W) (d : Dict.t V) (k : string) :
  Dict.get (map_values f d) k = option_map f (Dict.get d k).
Proof.
  induction d as [|[k0 v0] d IH]; simpl; [reflexivity|].
  destruct (String.eqb k0 k); [reflexivity | exact IH].
Qed.

Lemma map_values_insert_sorted (V W : Type) (f : V -> W)
  (x : string * V) (d : Dict.t V) :
  map_values f (insert_sorted (fun a b => String.leb (fst a) (fst b)) x d)
  = insert_sorted (fun a b => String.leb (fst a) (fst b))
                  (fst x, f (snd x)) (map_values f d).
Proof.
  induction d as [|y d IH]; simpl; [reflexivity|].
  destruct (String.leb (fst x) (fst y)); simpl; [reflexivity|].
  now rewrite <- IH.
Qed.

Lemma map_values_sorted_items (V W : Type) (f : V -> W) (d : Dict.t V) :
  map_values f (sorted_items d) = sorted_items (map_values f d).
Proof.
  unfold sorted_items. induction d as [|x d IH]; simpl; [reflexivity|].
  rewrite map_values_insert_sorted. now rewrite IH.
Qed.

Lemma sort_map_map_values (d : Dict.t (list string)) :
  sort_map d = sorted_items (map_values sorted_strings d).
Proof. unfold sort_map. apply (map_values_sorted_items sorted_strings). Qed.

(** *** What a completed run has filed *)

(** the label a contribution is filed under in a pitch map *)
Definition slot (d : decision) : string :=
  match d with
  | PitchedShot _ pitch => pitch
  | DrumLoop _ | GenericLoop _ | PlainShot _ => "unpitched"
  end.

(** [x] is filed in the bucket, under [label] when the bucket is a pitch map *)
Definition filed (bk : bucket) (label x : string) : Prop :=
  match bk with
  | BList l => In x l
  | BMap m => exists l, Dict.get m label = Some l /\ In x l
  end.

Definition nonempty_lists (bk : bucket) : Prop :=
  match bk with
  | BList l => l <> []
  | BMap m => forall label l, Dict.get m label = Some l -> l <> []
  end.

(** the buckets hold exactly the contributions [cs]: a bucket exists when
    some contribution targets it, is a pitch map when one of them is
    pitched, and files every path under the label of its contribution *)
Definition tracks (cs : list (decision * string)) (b : buckets) : Prop :=
  forall k,
    match Dict.get b k with
    | None => forall d x, In (d, x) cs -> target d <> k
    | Some bk =>
        nonempty_lists bk /\
        (shape_of bk = PitchMap <->
         exists d x, In (d, x) cs /\ target d = k /\ required_shape d = PitchMap) /\
        forall label x,
          filed bk label x <->
          exists d, In (d, x) cs /\ target d = k /\
                    (shape_of bk = PitchMap -> slot d = label)
    end.

Lemma append_new_nonempty (l : list string) (rel : string) : append_new l rel <> [].
Proof.
  unfold append_new. destruct (Str.mem rel l) eqn:E.
  - apply mem_In in E. intros ->. exact E.
  - destruct l; discriminate.
Qed.

Lemma filed_add_under (m : Dict.t (list string)) (label rel lab x : string) :
  filed (BMap (add_under m label rel)) lab x <->
  filed (BMap m) lab x \/ (lab = label /\ x = rel).
Proof.
  simpl. rewrite get_add_under.
  destruct (String.eqb_spec lab label) as [->|Hne].
  - split.
    + intros (l & Hl & Hin). inversion Hl; subst l. apply In_append_new in Hin.
      destruct Hin as [Hin| ->]; [left|right; tauto].
      destruct (Dict.get m label) as [l0|]; [eauto | destruct Hin].
    + intros [(l & Hl & Hin)|[_ ->]]; eexists; (split; [reflexivity|]);
        apply In_append_new; [left | now right].
      now rewrite Hl.
  - split.
    + intros H. now left.
    + intros [H|[Heq _]]; [assumption | contradiction].
Qed.

Lemma nonempty_add_under (m : Dict.t (list string)) (label rel : string) :
  nonempty_lists (BMap m) -> nonempty_lists (BMap (add_under m label rel)).
Proof.
  simpl. intros H lab l. rewrite get_add_under.
  destruct (String.eqb_spec lab label) as [->|Hne]; [|apply H].
  intros E. inversion E. apply append_new_nonempty.
Qed.

Lemma required_plain_slot (d : decision) :
  required_shape d = PlainList -> slot d = "unpitched".
Proof. destruct d; simpl; congruence. Qed.

Lemma add_to_list_on_map (b b' : buckets) (key rel : string) (m : Dict.t (list string)) :
  Dict.get b key = Some (BMap m) -> add_to_list b key rel = Ok b' ->
  Dict.mem m rel = true.
Proof.
  intros Hget. unfold add_to_list.
  destruct (get_setdefault_same b key (BList [])) as (bk & Hbk & Hcase).
  rewrite Hbk. destruct Hcase as [E|[E _]]; [|congruence].
  rewrite Hget in E. inversion E; subst bk.
  destruct (Dict.mem m rel); [reflexivity | discriminate].
Qed.

(** the bucket of a contribution after a turn that neither raises nor
    skips the file *)
Definition updated (old : option bucket) (d : decision) (rel : string) : bucket :=
  match required_shape d, old with
  | PlainList, None => BList [rel]
  | PlainList, Some (BList l) => BList (append_new l rel)
  | PlainList, Some (BMap m) => BMap (add_under m "unpitched" rel)
  | PitchMap, None => BMap (add_under [] (slot d) rel)
  | PitchMap, Some (BList l) => BMap (add_under [("unpitched", l)] (slot d) rel)
  | PitchMap, Some (BMap m) => BMap (add_under m (slot d) rel)
  end.

(** a loop never meets a pitch map that has its path among the labels *)
Definition no_skip (b : buckets) (d : decision) (rel : string) : Prop :=
  forall m, Dict.get b (target d) = Some (BMap m) ->
            is_loop_decision d = true -> Dict.mem m rel = false.

Lemma contribute_updated (b b' : buckets) (d : decision) (rel : string) :
  contribute b d rel = Ok b' -> no_skip b d rel ->
  Dict.get b' (target d) = Some (updated (Dict.get b (target d)) d rel) /\
  forall k, k <> target d -> Dict.get b' k = Dict.get b k.
Proof.
  unfold no_skip.
  destruct d as [key|key|keyname pitch|keyname]; simpl; intros H Hskip.
  - pose proof (@add_to_list_spec _ _ _ _ H) as [Ho Hk]. split; [|assumption].
    unfold updated. simpl.
    destruct (Dict.get b key) as [[l|m]|] eqn:E; try assumption.
    pose proof (@add_to_list_on_map _ _ _ _ _ E H) as Hm.
    rewrite (Hskip m eq_refl eq_refl) in Hm. discriminate.
  - pose proof (@add_to_list_spec _ _ _ _ H) as [Ho Hk]. split; [|assumption].
    unfold updated. simpl.
    destruct (Dict.get b key) as [[l|m]|] eqn:E; try assumption.
    pose proof (@add_to_list_on_map _ _ _ _ _ E H) as Hm.
    rewrite (Hskip m eq_refl eq_refl) in Hm. discriminate.
  - pose proof (@add_pitched_spec _ _ _ _ _ H) as [Ho Hk]. split; [|assumption].
    unfold updated. simpl. destruct (Dict.get b keyname) as [[l|m]|]; assumption.
  - pose proof (@add_unpitched_spec _ _ _ _ H) as [Ho Hk]. split; [|assumption].
    unfold updated. simpl. destruct (Dict.get b keyname) as [[l|m]|]; assumption.
Qed.

Lemma filed_promoted (l : list string) (lab x : string) :
  filed (BMap [("unpitched", l)]) lab x <-> lab = "unpitched" /\ In x l.
Proof.
  unfold filed. cbn [Dict.get].
  destruct (String.eqb_spec "unpitched" lab) as [<-|Hne].
  - split; [intros (l' & E & Hin); inversion E; subst; tauto|].
    intros [_ Hin]. eauto.
  - split; [intros (l' & E & _); discriminate|].
    intros [-> _]. contradiction.
Qed.

Lemma tracks_step (cs : list (decision * string)) (b b' : buckets)
  (d : decision) (rel : string) :
  tracks cs b -> contribute b d rel = Ok b' -> no_skip b d rel ->
  tracks ((d, rel) :: cs) b'.
Proof.
  intros Ht H Hs k.
  destruct (contribute_updated H Hs) as [Hk Ho].
  destruct (String.eqb_spec k (target d)) as [->|Hne].
  - rewrite Hk. specialize (Ht (target d)). unfold updated.
    destruct (required_shape d) eqn:Er;
      destruct (Dict.get b (target d)) as [[l|m]|].
    + (* a plain contribution to a plain list *)
      destruct Ht as (Hn & Hsh & Hf). split; [apply append_new_nonempty|]. split.
      * split; [discriminate|].
        intros (d0 & x & [E|Hin] & Ht0 & Hp).
        -- inversion E; subst. congruence.
        -- apply Hsh. eauto.
      * intros lab x. simpl. rewrite In_append_new. split.
        -- intros [Hin| ->].
           ++ apply (Hf lab) in Hin. destruct Hin as (d0 & Hin & Ht0 & _).
              exists d0. repeat split; [now right | assumption | discriminate].
           ++ exists d. repeat split; [now left | discriminate].
        -- intros (d0 & [E|Hin] & Ht0 & _).
           ++ inversion E. now right.
           ++ left. apply (Hf lab). exists d0. repeat split; [assumption.. | discriminate].
    + (* a plain contribution to a pitch map *)
      destruct Ht as (Hn & Hsh & Hf).
      split; [now apply nonempty_add_under|]. split.
      * split; [|reflexivity]. intros _.
        destruct (proj1 Hsh eq_refl) as (d0 & x & Hin & Ht0 & Hp).
        exists d0, x. repeat split; [now right | assumption..].
      * intros lab x. rewrite filed_add_under. split.
        -- intros [Hfl|[-> ->]].
           ++ apply Hf in Hfl. destruct Hfl as (d0 & Hin & Ht0 & Hsl).
              exists d0. repeat split; [now right | assumption | auto].
           ++ exists d. repeat split; [now left|]. intros _.
              now apply required_plain_slot.
        -- intros (d0 & [E|Hin] & Ht0 & Hsl).
           ++ inversion E; subst. right. split; [|reflexivity].
              rewrite <- (Hsl eq_refl). now apply required_plain_slot.
           ++ left. apply Hf. exists d0. repeat split; [assumption.. | auto].
    + (* the first contribution, plain *)
      split; [discriminate|]. split.
      * split; [discriminate|].
        intros (d0 & x & [E|Hin] & Ht0 & Hp).
        -- inversion E; subst. congruence.
        -- destruct (Ht _ _ Hin Ht0).
      * intros lab x. simpl. split.
        -- intros [<-|[]]. exists d. repeat split; [now left | discriminate].
        -- intros (d0 & [E|Hin] & Ht0 & _).
           ++ inversion E. now left.
           ++ destruct (Ht _ _ Hin Ht0).
    + (* a pitched contribution promotes a plain list *)
      destruct Ht as (Hn & Hsh & Hf).
      assert (Hplain : forall d0 x, In (d0, x) cs -> target d0 = target d ->
                                    slot d0 = "unpitched").
      { intros d0 x Hin Ht0. apply required_plain_slot.
        destruct (required_shape d0) eqn:E0; [reflexivity|].
        assert (Hc : shape_of (BList l) = PitchMap) by (apply Hsh; eauto).
        discriminate. }
      split.
      { apply nonempty_add_under. unfold nonempty_lists. cbn [Dict.get].
        intros lab l0.
        destruct (String.eqb "unpitched" lab); [|discriminate].
        intros E. inversion E; subst. exact Hn. }
      split.
      * split; [|reflexivity]. intros _. exists d, rel.
        repeat split; [now left | assumption].
      * intros lab x. rewrite filed_add_under, filed_promoted. split.
        -- intros [[-> Hin]|[-> ->]].
           ++ apply (Hf "unpitched") in Hin. destruct Hin as (d0 & Hin & Ht0 & _).
              exists d0. repeat split; [now right | assumption | eauto].
           ++ exists d. repeat split. now left.
        -- intros (d0 & [E|Hin] & Ht0 & Hsl).
           ++ inversion E; subst. right. split; [|reflexivity]. symmetry. auto.
           ++ left. split.
              ** rewrite <- (Hsl eq_refl). eauto.
              ** apply (Hf lab). exists d0. repeat split; [assumption.. | discriminate].
    + (* a pitched contribution to a pitch map *)
      destruct Ht as (Hn & Hsh & Hf).
      split; [now apply nonempty_add_under|]. split.
      * split; [|reflexivity]. intros _. exists d, rel.
        repeat split; [now left | assumption].
      * intros lab x. rewrite filed_add_under. split.
        -- intros [Hfl|[-> ->]].
           ++ apply Hf in Hfl. destruct Hfl as (d0 & Hin & Ht0 & Hsl).
              exists d0. repeat split; [now right | assumption | auto].
           ++ exists d. repeat split. now left.
        -- intros (d0 & [E|Hin] & Ht0 & Hsl).
           ++ inversion E; subst. right. split; [|reflexivity]. symmetry. auto.
           ++ left. apply Hf. exists d0. repeat split; [assumption.. | auto].
    + (* the first contribution, pitched *)
      split.
      { apply nonempty_add_under. simpl. intros ? ? E. discriminate. }
      split.
      * split; [|reflexivity]. intros _. exists d, rel.
        repeat split; [now left | assumption].
      * intros lab x. rewrite filed_add_under. split.
        -- intros [(l & E & _)|[-> ->]]; [discriminate|].
           exists d. repeat split. now left.
        -- intros (d0 & [E|Hin] & Ht0 & Hsl).
           ++ inversion E; subst. right. split; [|reflexivity]. symmetry. auto.
           ++ destruct (Ht _ _ Hin Ht0).
  - rewrite (Ho k Hne). specialize (Ht k).
    destruct (Dict.get b k) as [bk|].
    + destruct Ht as (Hn & Hsh & Hf). split; [assumption|]. split.
      * rewrite Hsh. split.
        -- intros (d0 & x & Hin & Ht0 & Hp). exists d0, x.
           repeat split; [now right | assumption..].
        -- intros (d0 & x & [E|Hin] & Ht0 & Hp); [|eauto].
           inversion E; subst. congruence.
      * intros lab x. rewrite Hf. split.
        -- intros (d0 & Hin & Ht0 & Hsl). exists d0.
           repeat split; [now right | assumption..].
        -- intros (d0 & [E|Hin] & Ht0 & Hsl); [|eauto].
           inversion E; subst. congruence.
    + intros d0 x [E|Hin]; [|eauto]. inversion E; subst. congruence.
Qed.

(** *** A path that passed the extension filter is no pitch label *)

Fixpoint has_dot (s : string) : bool :=
  match s with
  | EmptyString => false
  | String c s' => Ascii.eqb c "." || has_dot s'
  end.

Lemma has_dot_app (a b : string) :
  has_dot (a ++ b) = has_dot a || has_dot b.
Proof.
  induction a as [|c a IH]; simpl; [reflexivity|].
  now rewrite IH, orb_assoc.
Qed.

Lemma rfind_has_dot (s : string) (i : nat) :
  Str.rfind "." s = Some i -> has_dot s = true.
Proof.
  revert i. induction s as [|c s IH]; simpl; intros i; [discriminate|].
  destruct (Str.rfind "." s) as [j|].
  - intros _. rewrite (IH j eq_refl). apply orb_true_r.
  - destruct (Ascii.eqb c "."); [reflexivity | discriminate].
Qed.

Lemma split_nonempty (sep : ascii) (s : string) : Str.split sep s <> [].
Proof.
  destruct s as [|c s]; simpl; [discriminate|].
  destruct (Ascii.eqb c sep); [discriminate|].
  destruct (Str.split sep s); discriminate.
Qed.

Lemma split_has_dot (s : string) :
  forall seg, In seg (Str.split "/" s) -> has_dot seg = true -> has_dot s = true.
Proof.
  induction s as [|c s IH]; simpl; intros seg Hin Hd.
  - destruct Hin as [<-|[]]. discriminate.
  - destruct (Ascii.eqb c "/").
    + destruct Hin as [<-|Hin]; [discriminate|].
      rewrite (IH seg Hin Hd). apply orb_true_r.
    + destruct (Str.split "/" s) as [|h t] eqn:E.
      * destruct (@split_nonempty _ _ E).
      * destruct Hin as [<-|Hin].
        -- simpl in Hd. apply orb_true_iff in Hd. destruct Hd as [->|Hd]; [reflexivity|].
           rewrite (IH h (or_introl eq_refl) Hd). apply orb_true_r.
        -- rewrite (IH seg (or_intror Hin) Hd). apply orb_true_r.
Qed.

Lemma last_In (A : Type) (l : list A) (d : A) : l <> [] -> In (List.last l d) l.
Proof.
  induction l as [|x l IH]; [congruence|]. intros _.
  destruct l as [|y l]; [now left|].
  right. apply IH. discriminate.
Qed.

Lemma is_audio_has_dot (p : string) : is_audio p = true -> has_dot p = true.
Proof.
  unfold is_audio, path_suffix. intros H.
  destruct (suffix_index (path_name p)) as [i|] eqn:E; [|discriminate].
  unfold suffix_index in E.
  destruct (Str.rfind "." (path_name p)) as [j|] eqn:Ej; [|discriminate].
  apply rfind_has_dot in Ej.
  apply (split_has_dot p (path_name p)); [|assumption].
  apply last_In, split_nonempty.
Qed.

Lemma normalize_note_no_dot (t : string) :
  is_pitch_token t = true -> has_dot (normalize_note t) = false.
Proof.
  destruct t as [|l [|a [|? ?]]]; simpl; try discriminate.
  - intros Hl. apply note_letter_cases in Hl. simpl in Hl.
    repeat (destruct Hl as [<-|Hl]; [reflexivity|]). contradiction.
  - intros H. apply andb_true_iff in H. destruct H as [Hl Ha].
    apply note_letter_cases in Hl. apply accidental_cases in Ha. simpl in Hl.
    destruct Ha as [-> | ->];
      repeat (destruct Hl as [<-|Hl]; [reflexivity|]); contradiction.
Qed.

Lemma of_int_digit_no_dot (d : ascii) :
  is_digit d = true -> has_dot (Str.of_int (digit_val d)) = false.
Proof. destruct d as [[] [] [] [] [] [] [] []]; vm_compute; congruence. Qed.

Lemma oct_head_shape (t : string) (x : string * Z) :
  oct_head t = Some x ->
  is_pitch_token (fst x) = true /\
  exists d, is_digit d = true /\ snd x = digit_val d.
Proof.
  unfold oct_head. destruct t as [|l t]; [discriminate|].
  destruct (is_note_letter l) eqn:El; [|discriminate].
  destruct t as [|c [|d u]]; cbn [orelse].
  - discriminate.
  - destruct (is_digit c) eqn:Ec; cbn [andb right_oct]; [|discriminate].
    intros H. inversion H; subst. simpl. rewrite El. eauto.
  - destruct (is_accidental c) eqn:Ea, (is_digit d) eqn:Ed, (right_oct u);
      cbn [andb orelse];
      try (intros H; inversion H; subst; simpl; rewrite ?El, ?Ea; now eauto);
      (destruct (is_digit c) eqn:Ec; cbn [andb]; [|discriminate]);
      (destruct (right_oct (String d u)); [|discriminate]);
      intros H; inversion H; subst; simpl; rewrite El; eauto.
Qed.

Lemma bare_head_shape (t : string) (y : string * string) :
  bare_head t = Some y -> is_pitch_token (fst y) = true.
Proof.
  unfold bare_head. destruct t as [|l t]; [discriminate|].
  destruct (is_note_letter l) eqn:El; [|discriminate].
  destruct t as [|c u].
  - cbn [orelse]. destruct (qual_here ""); [|discriminate].
    intros H. inversion H; subst. simpl. now rewrite El.
  - destruct (is_accidental c) eqn:Ea.
    + destruct (qual_here u); cbn [option_map orelse].
      * intros H. inversion H; subst. simpl. now rewrite El, Ea.
      * destruct (qual_here (String c u)); [|discriminate].
        intros H. inversion H; subst. simpl. now rewrite El.
    + cbn [orelse]. destruct (qual_here (String c u)); [|discriminate].
      intros H. inversion H; subst. simpl. now rewrite El.
Qed.

Lemma token_at_head (X : Type) (left : ascii -> bool) (head : string -> option X)
  (s : string) (i : nat) (x : X) :
  token_at left head s i = Some x -> head (Str.drop i s) = Some x.
Proof. unfold token_at. destruct (left_bounded left s i); [auto | discriminate]. Qed.

Lemma get_key_pitch_no_dot (stem : string) (k : key_info) :
  get_key stem = Some k ->
  has_dot (root k ++ Str.of_int (match oct k with Some o => o | None => 4%Z end))
  = false.
Proof.
  rewrite get_key_search, has_dot_app.
  pose proof (search_oct (lc stem)) as Ho. pose proof (search_bare (lc stem)) as Hb.
  destruct (option_map out_oct (search KEY_WITH_OCT (lc stem))) as [x|].
  - intros H. inversion H; subst k. simpl.
    destruct Ho as (i & Hi & _). apply token_at_head in Hi.
    apply oct_head_shape in Hi. destruct Hi as (Hp & d & Hd & ->).
    now rewrite (normalize_note_no_dot _ Hp), (of_int_digit_no_dot _ Hd).
  - destruct (option_map out_bare (search KEY_TOKEN (lc stem))) as [y|];
      [|discriminate].
    intros H. inversion H; subst k. simpl.
    destruct Hb as (i & Hi & _). apply token_at_head in Hi.
    apply bare_head_shape in Hi.
    now rewrite (normalize_note_no_dot _ Hi).
Qed.

Lemma classify_slot_no_dot (prefix rel stem : string) :
  has_dot (slot (classify prefix rel stem)) = false.
Proof.
  unfold classify.
  destruct (is_loops_folder rel || (is_some (get_bpm stem) && is_some (get_key stem))).
  - destruct (drum_branch rel); reflexivity.
  - destruct (get_key stem) as [k|] eqn:E; [|reflexivity].
    cbn [slot]. now apply get_key_pitch_no_dot with (stem := stem).
Qed.

(** *** Runs *)

(** the contribution of each file, in processing order *)
Definition contribs (prefix : string) (files : list string)
  : list (decision * string) :=
  List.map (fun p => (classify prefix (nfc p) (path_stem p), nfc p)) files.

Lemma tracks_no_skip (cs : list (decision * string)) (b : buckets)
  (d : decision) (rel : string) :
  tracks cs b ->
  (forall d0 x0, In (d0, x0) cs -> slot d0 <> rel) ->
  no_skip b d rel.
Proof.
  intros Ht Hcs m Hget _. specialize (Ht (target d)). rewrite Hget in Ht.
  destruct Ht as (Hn & _ & Hf).
  unfold Dict.mem. destruct (Dict.get m rel) as [l|] eqn:E; [|reflexivity].
  exfalso. destruct l as [|x l]; [exact (Hn _ _ E eq_refl)|].
  assert (Hfl : filed (BMap m) rel x) by (exists (x :: l); split; [assumption | now left]).
  apply Hf in Hfl. destruct Hfl as (d0 & Hin & _ & Hsl).
  exact (Hcs _ _ Hin (Hsl eq_refl)).
Qed.

Lemma dot_differs (a b : string) : has_dot a = false -> has_dot b = true -> a <> b.
Proof. intros Ha Hb ->. congruence. Qed.

Lemma tracks_run (prefix : string) (files : list string) :
  forall cs b b',
    tracks cs b ->
    (forall d0 x0, In (d0, x0) cs -> has_dot (slot d0) = false) ->
    (forall p, In p files -> has_dot p = true) ->
    run prefix b files = Ok b' ->
    tracks (List.rev (contribs prefix files) ++ cs) b'.
Proof.
  induction files as [|p files IH]; intros cs b b' Ht Hcs Hfiles H.
  - simpl in H. inversion H; subst. exact Ht.
  - simpl in H. destruct (step prefix b p) as [b1|e] eqn:E; [|discriminate].
    simpl. rewrite <- app_assoc. simpl.
    apply (IH ((classify prefix (nfc p) (path_stem p), nfc p) :: cs) b1).
    + eapply tracks_step; [exact Ht | exact E |].
      apply tracks_no_skip with (cs := cs); [assumption|].
      intros d0 x0 Hin. apply dot_differs; [eauto|].
      apply Hfiles. now left.
    + intros d0 x0 [Heq|Hin]; [|eauto].
      inversion Heq; subst. apply classify_slot_no_dot.
    + intros q Hq. apply Hfiles. now right.
    + exact H.
Qed.

Lemma tracks_empty : tracks [] [].
Proof. intros k. simpl. intros d x []. Qed.

Lemma tracks_ext (cs cs' : list (decision * string)) (b : buckets) :
  (forall c, In c cs <-> In c cs') -> tracks cs b -> tracks cs' b.
Proof.
  intros Hin Ht k. specialize (Ht k). destruct (Dict.get b k) as [bk|].
  - destruct Ht as (Hn & Hsh & Hf). split; [assumption|]. split.
    + rewrite Hsh. split; intros (d & x & Hc & Hr); exists d, x;
        (split; [apply Hin; assumption | assumption]).
    + intros lab x. rewrite Hf. split; intros (d & Hc & Hr); exists d;
        (split; [apply Hin; assumption | assumption]).
  - intros d x Hc. apply Ht with (x := x). now apply Hin.
Qed.

Lemma filed_map_get (m : Dict.t (list string)) (label : string) (l : list string) :
  Dict.get m label = Some l -> forall x, filed (BMap m) label x <-> In x l.
Proof.
  intros E x. simpl. split.
  - intros (l' & E' & Hin). congruence.
  - intros Hin. eauto.
Qed.

Lemma tracks_sort_map (cs : list (decision * string)) (k : string)
  (m m' : Dict.t (list string)) :
  wf_bucket (BMap m) -> wf_bucket (BMap m') ->
  nonempty_lists (BMap m) -> nonempty_lists (BMap m') ->
  (forall label x, filed (BMap m) label x <-> filed (BMap m') label x) ->
  sort_map m = sort_map m'.
Proof.
  intros [Hnd Hall] [Hnd' Hall'] Hn Hn' Hf.
  rewrite !sort_map_map_values.
  apply sorted_items_unique; rewrite ?keys_map_values; try assumption.
  intros label. rewrite !get_map_values.
  assert (Hside : forall m1 m2 : Dict.t (list string),
            nonempty_lists (BMap m1) ->
            (forall lab x, filed (BMap m1) lab x -> filed (BMap m2) lab x) ->
            forall l, Dict.get m1 label = Some l ->
                      exists l2, Dict.get m2 label = Some l2).
  { intros m1 m2 Hne Himp l E. destruct l as [|x l]; [destruct (Hne _ _ E eq_refl)|].
    destruct (Himp label x) as (l2 & E2 & _); [|eauto].
    exists (x :: l). split; [assumption | now left]. }
  destruct (Dict.get m label) as [l|] eqn:E.
  - destruct (Hside m m' Hn (fun lab x => proj1 (Hf lab x)) l E) as (l' & E').
    rewrite E'. simpl. f_equal. apply sorted_strings_unique.
    + apply (Hall label). now apply get_In.
    + apply (Hall' label). now apply get_In.
    + intros x. rewrite <- (filed_map_get _ _ E), <- (filed_map_get _ _ E'). apply Hf.
  - destruct (Dict.get m' label) as [l'|] eqn:E'; [|reflexivity].
    destruct (Hside m' m Hn' (fun lab x => proj2 (Hf lab x)) l' E') as (l & El).
    congruence.
Qed.

Lemma tracks_same (cs : list (decision * string)) (b b' : buckets) :
  tracks cs b -> tracks cs b' -> wf_buckets b -> wf_buckets b' ->
  forall k, option_map sort_bucket (Dict.get b k)
            = option_map sort_bucket (Dict.get b' k).
Proof.
  intros Ht Ht' Hwf Hwf' k. specialize (Ht k). specialize (Ht' k).
  destruct (Dict.get b k) as [bk|] eqn:E, (Dict.get b' k) as [bk'|] eqn:E'.
  - destruct Ht as (Hn & Hsh & Hf), Ht' as (Hn' & Hsh' & Hf').
    pose proof (@wf_get _ _ _ Hwf E) as Hw.
    pose proof (@wf_get _ _ _ Hwf' E') as Hw'.
    simpl. f_equal.
    destruct bk as [l|m], bk' as [l'|m'].
    + simpl. f_equal. apply sorted_strings_unique; try assumption.
      intros x. change (filed (BList l) "" x <-> filed (BList l') "" x).
      rewrite Hf, Hf'. split; intros (d & Hin & Ht0 & _); exists d;
        (repeat split; [assumption.. | discriminate]).
    + exfalso. assert (Hc : shape_of (BList l) = PitchMap)
        by (apply Hsh, Hsh'; reflexivity). discriminate.
    + exfalso. assert (Hc : shape_of (BList l') = PitchMap)
        by (apply Hsh', Hsh; reflexivity). discriminate.
    + simpl. f_equal. apply (tracks_sort_map cs k); try assumption.
      intros label x. rewrite Hf, Hf'. reflexivity.
  - exfalso. destruct Ht as (Hn & Hsh & Hf).
    assert (Hex : exists d x, In (d, x) cs /\ target d = k).
    { destruct bk as [l|m].
      - destruct l as [|x l]; [now destruct Hn|].
        destruct (proj1 (Hf "" x)) as (d & Hin & Ht0 & _); [now left|]. eauto.
      - destruct (proj1 Hsh eq_refl) as (d & x & Hin & Ht0 & _). eauto. }
    destruct Hex as (d & x & Hin & Ht0). exact (Ht' _ _ Hin Ht0).
  - exfalso. destruct Ht' as (Hn & Hsh & Hf).
    assert (Hex : exists d x, In (d, x) cs /\ target d = k).
    { destruct bk' as [l|m].
      - destruct l as [|x l]; [now destruct Hn|].
        destruct (proj1 (Hf "" x)) as (d & Hin & Ht0 & _); [now left|]. eauto.
      - destruct (proj1 Hsh eq_refl) as (d & x & Hin & Ht0 & _). eauto. }
    destruct Hex as (d & x & Hin & Ht0). exact (Ht _ _ Hin Ht0).
  - reflexivity.
Qed.

Lemma assemble_same (base : string) (b b' : buckets) :
  wf_buckets b -> wf_buckets b' ->
  (forall k, option_map sort_bucket (Dict.get b k)
             = option_map sort_bucket (Dict.get b' k)) ->
  assemble base b = assemble base b'.
Proof.
  intros Hwf Hwf' Hsame. unfold assemble.
  destruct (@fold_set_wf b [("_base", JStr base)]) as (Hnd & _);
    [apply Hwf | repeat constructor; simpl; tauto | now left
     | intros k v [E|[]]; inversion E; exact I |].
  destruct (@fold_set_wf b' [("_base", JStr base)]) as (Hnd' & _);
    [apply Hwf' | repeat constructor; simpl; tauto | now left
     | intros k v [E|[]]; inversion E; exact I |].
  apply sorted_items_unique; try assumption.
  intros k. rewrite !(fold_set_get sort_bucket) by (apply Hwf || apply Hwf').
  specialize (Hsame k).
  destruct (Dict.get b k), (Dict.get b' k); simpl in Hsame; congruence.
Qed.

Lemma Permutation_filter_keep (A : Type) (f : A -> bool) (l l' : list A) :
  Permutation l l' -> Permutation (List.filter f l) (List.filter f l').
Proof.
  induction 1 as [|x l l' _ IH|x y l|l l' l'' _ IH1 _ IH2]; simpl.
  - constructor.
  - destruct (f x); [now constructor | assumption].
  - destruct (f x), (f y); try apply Permutation_refl. apply perm_swap.
  - eapply perm_trans; eassumption.
Qed.

(** X1. Two traversal orders of one tree that both run to the end print the
    same manifest. *)
Theorem main_order_independent
  (prefix_arg : option string) (root_name base : string)
  (tree tree' : list string) (man man' : manifest) :
  Permutation tree tree' ->
  main prefix_arg root_name base tree = Ok man ->
  main prefix_arg root_name base tree' = Ok man' ->
  man = man'.
Proof.
  unfold main. intros Hp.
  set (prefix := resolve_prefix prefix_arg root_name).
  destruct (run prefix [] (walk_audio tree)) as [b|e] eqn:E; [|discriminate].
  destruct (run prefix [] (walk_audio tree')) as [b'|e'] eqn:E'; [|discriminate].
  intros H H'. inversion H; inversion H'; subst man man'.
  assert (Hdots : forall t p, In p (walk_audio t) -> has_dot p = true).
  { intros t p Hin. apply filter_In in Hin. now apply is_audio_has_dot. }
  pose proof (tracks_run prefix (walk_audio tree) tracks_empty
                (fun _ _ (F : In _ []) => match F with end)
                (Hdots tree) E) as Ht.
  pose proof (tracks_run prefix (walk_audio tree') tracks_empty
                (fun _ _ (F : In _ []) => match F with end)
                (Hdots tree') E') as Ht'.
  assert (Hwf : wf_buckets b) by (eapply wf_run; [apply wf_empty | exact E]).
  assert (Hwf' : wf_buckets b') by (eapply wf_run; [apply wf_empty | exact E']).
  apply assemble_same; try assumption.
  apply tracks_same with (cs := List.rev (contribs prefix (walk_audio tree)) ++ []);
    try assumption.
  eapply tracks_ext; [|exact Ht'].
  assert (Hperm : Permutation (List.rev (contribs prefix (walk_audio tree')) ++ [])
                              (List.rev (contribs prefix (walk_audio tree)) ++ [])).
  { rewrite !app_nil_r.
    eapply perm_trans; [apply Permutation_sym, Permutation_rev|].
    eapply perm_trans; [|apply Permutation_rev].
    apply Permutation_map, Permutation_filter_keep, Permutation_sym, Hp. }
  intros c. split; apply Permutation_in; [assumption | now apply Permutation_sym].
Qed.

Example main_order_independent_ex :
  main (Some "p") "root" "b"
       ["one shots/Bass/thud.wav"; "loops/Piano_120_cm.wav"; "one shots/Bass/Bass_C3.wav"]
  = main (Some "p") "root" "b"
       ["one shots/Bass/Bass_C3.wav"; "one shots/Bass/thud.wav"; "loops/Piano_120_cm.wav"].
Proof. vm_compute. reflexivity. Qed.

(** a turn that neither raises nor skips the file changes one bucket, and
    files the path there *)
Lemma contribute_files_once (b b' : buckets) (d : decision) (rel : string) :
  contribute b d rel = Ok b' -> no_skip b d rel ->
  (forall k, k <> target d -> Dict.get b' k = Dict.get b k) /\
  exists bk, Dict.get b' (target d) = Some bk /\ filed bk (slot d) rel.
Proof.
  intros H Hs. destruct (contribute_updated H Hs) as [Hk Ho].
  split; [assumption|]. eexists. split; [exact Hk|].
  unfold updated.
  destruct (required_shape d) eqn:Er;
    destruct (Dict.get b (target d)) as [[l|m]|];
    try (apply filed_add_under; right; split;
         [now rewrite ?(required_plain_slot _ Er) | reflexivity]).
  - simpl. apply In_append_new. now right.
  - simpl. now left.
Qed.

(** * Further properties of the script *)

(** ** What the printed manifest lists *)

(** [x] is listed in a value of the manifest, under [label] when the value
    is a pitch map *)
Definition jfiled (v : jvalue) (label x : string) : Prop :=
  match v with
  | JStr _ => False
  | JList l => In x l
  | JMap m => exists l, Dict.get m label = Some l /\ In x l
  end.

Lemma In_sorted_strings (l : list string) (x : string) :
  In x (sorted_strings l) <-> In x l.
Proof.
  split; apply Permutation_in; [apply Permutation_sym|];
    apply sorted_perm.
Qed.

Lemma get_sorted_items (V : Type) (d : Dict.t V) (k : string) :
  NoDup (Dict.keys d) -> Dict.get (sorted_items d) k = Dict.get d k.
Proof.
  intros Hnd.
  assert (Hnd' : NoDup (Dict.keys (sorted_items d)))
    by (rewrite keys_sorted_items; now apply NoDup_sorted_strings).
  destruct (Dict.get d k) as [v|] eqn:E.
  - apply In_get; [assumption|]. apply In_sorted_items. now apply get_In.
  - destruct (Dict.get (sorted_items d) k) as [v|] eqn:E'; [|reflexivity].
    apply get_In in E'. apply (proj1 (In_sorted_items _ _)) in E'.
    apply (In_get _ _ _ Hnd) in E'. congruence.
Qed.

Lemma get_sort_map (m : Dict.t (list string)) (label : string) :
  NoDup (Dict.keys m) ->
  Dict.get (sort_map m) label = option_map sorted_strings (Dict.get m label).
Proof.
  intros Hnd. rewrite sort_map_map_values, get_sorted_items, get_map_values;
    [reflexivity | now rewrite keys_map_values].
Qed.

Lemma jfiled_sort_bucket (bk : bucket) (label x : string) :
  wf_bucket bk -> (jfiled (sort_bucket bk) label x <-> filed bk label x).
Proof.
  destruct bk as [l|m]; simpl.
  - intros _. apply In_sorted_strings.
  - intros [Hnd _]. rewrite get_sort_map by assumption. split.
    + intros (l & E & Hin). destruct (Dict.get m label) as [l0|]; [|discriminate].
      inversion E; subst. exists l0. split; [reflexivity|].
      now apply In_sorted_strings.
    + intros (l & E & Hin). rewrite E. eexists. split; [reflexivity|].
      now apply In_sorted_strings.
Qed.

(** what [main] leaves under every key of the manifest *)
Lemma get_assemble (base : string) (b : buckets) (k : string) :
  wf_buckets b ->
  Dict.get (assemble base b) k =
  match Dict.get b k with
  | Some bk => Some (sort_bucket bk)
  | None => if String.eqb "_base" k then Some (JStr base) else None
  end.
Proof.
  intros Hwf. unfold assemble.
  destruct (@fold_set_wf b [("_base", JStr base)]) as (Hnd & _);
    [apply Hwf | repeat constructor; simpl; tauto | now left
     | intros k0 v [E|[]]; inversion E; exact I |].
  rewrite get_sorted_items by assumption.
  rewrite (fold_set_get sort_bucket) by apply Hwf.
  reflexivity.
Qed.

Lemma run_app (prefix : string) (fs gs : list string) :
  forall b,
    run prefix b (fs ++ gs) =
    match run prefix b fs with
    | Ok b' => run prefix b' gs
    | Raised e => Raised e
    end.
Proof.
  induction fs as [|p fs IH]; intros b; simpl; [reflexivity|].
  destruct (step prefix b p); [apply IH | reflexivity].
Qed.

Lemma In_contribs (prefix : string) (files : list string) (d : decision) (x : string) :
  In (d, x) (contribs prefix files) <->
  In x files /\ d = classify prefix x (path_stem x).
Proof.
  unfold contribs, nfc. rewrite in_map_iff. split.
  - intros (p & E & Hin). inversion E; subst. tauto.
  - intros [Hin ->]. exists x. tauto.
Qed.

(** the buckets of a run over files that passed the extension filter *)
Lemma tracks_audio_run (prefix : string) (files : list string) (b : buckets) :
  (forall p, In p files -> is_audio p = true) ->
  run prefix [] files = Ok b ->
  tracks (contribs prefix files) b.
Proof.
  intros Ha H.
  apply tracks_ext with (cs := List.rev (contribs prefix files) ++ []).
  - intros c. rewrite app_nil_r. symmetry. apply in_rev.
  - apply tracks_run with (b := []).
    + apply tracks_empty.
    + intros ? ? [].
    + intros p Hp. apply is_audio_has_dot. auto.
    + exact H.
Qed.

Lemma walk_audio_In (tree : list string) (p : string) :
  In p (walk_audio tree) <-> In p tree /\ is_audio p = true.
Proof. apply filter_In. Qed.

(** ** The listed paths and the normaliser

    Line 107 replaces [rel] by [unicodedata.normalize("NFC", rel)], while
    the extension test and the stem keep the name as the traversal gave it.
    Below U+0100 the normaliser changes nothing, which is [nfc]; here the
    loop is taken over any normaliser [norm], so that what is proved does
    not rest on that. *)

Section Normaliser.
Variable norm : string -> string.

Definition step_norm (prefix : string) (b : buckets) (p : string)
  : outcome buckets :=
  let rel := norm p in
  let stem := path_stem p in
  contribute b (classify prefix rel stem) rel.

Fixpoint run_norm (prefix : string) (b : buckets) (files : list string)
  : outcome buckets :=
  match files with
  | [] => Ok b
  | p :: files' =>
      match step_norm prefix b p with
      | Ok b' => run_norm prefix b' files'
      | Raised e => Raised e
      end
  end.

Definition main_norm (prefix_arg : option string) (root_name base : string)
  (tree : list string) : outcome manifest :=
  let prefix := resolve_prefix prefix_arg root_name in
  match run_norm prefix [] (walk_audio tree) with
  | Ok b => Ok (assemble base b)
  | Raised e => Raised e
  end.

(** the contribution of each file: the decision and the listed path *)
Definition contribs_norm (prefix : string) (files : list string)
  : list (decision * string) :=
  List.map (fun p => (classify prefix (norm p) (path_stem p), norm p)) files.

Lemma wf_run_norm (prefix : string) (files : list string) :
  forall b b', wf_buckets b -> run_norm prefix b files = Ok b' -> wf_buckets b'.
Proof.
  induction files as [|p files IH]; simpl; intros b b' Hwf H.
  - inversion H; subst. exact Hwf.
  - destruct (step_norm prefix b p) as [b1|e] eqn:E; [|discriminate].
    eapply IH; [|eassumption]. eapply wf_contribute; eassumption.
Qed.

Lemma In_contribs_norm (prefix : string) (files : list string)
  (d : decision) (y : string) :
  In (d, y) (contribs_norm prefix files) <->
  exists x, In x files /\ y = norm x /\
            d = classify prefix (norm x) (path_stem x).
Proof.
  unfold contribs_norm. rewrite in_map_iff. split.
  - intros (p & E & Hin). inversion E; subst. eauto.
  - intros (x & Hin & -> & ->). eauto.
Qed.

(** the normaliser keeps the dot of a path *)
Hypothesis norm_dot : forall p, has_dot p = true -> has_dot (norm p) = true.

Lemma tracks_run_norm (prefix : string) (files : list string) :
  forall cs b b',
    tracks cs b ->
    (forall d0 x0, In (d0, x0) cs -> has_dot (slot d0) = false) ->
    (forall p, In p files -> has_dot p = true) ->
    run_norm prefix b files = Ok b' ->
    tracks (List.rev (contribs_norm prefix files) ++ cs) b'.
Proof.
  induction files as [|p files IH]; intros cs b b' Ht Hcs Hfiles H.
  - simpl in H. inversion H; subst. exact Ht.
  - simpl in H. destruct (step_norm prefix b p) as [b1|e] eqn:E; [|discriminate].
    simpl. rewrite <- app_assoc. simpl.
    apply (IH ((classify prefix (norm p) (path_stem p), norm p) :: cs) b1).
    + eapply tracks_step; [exact Ht | exact E |].
      apply tracks_no_skip with (cs := cs); [assumption|].
      intros d0 x0 Hin. apply dot_differs; [eauto|].
      apply norm_dot, Hfiles. now left.
    + intros d0 x0 [Heq|Hin]; [|eauto].
      inversion Heq; subst. apply classify_slot_no_dot.
    + intros q Hq. apply Hfiles. now right.
    + exact H.
Qed.

Lemma tracks_audio_run_norm (prefix : string) (files : list string) (b : buckets) :
  (forall p, In p files -> is_audio p = true) ->
  run_norm prefix [] files = Ok b ->
  tracks (contribs_norm prefix files) b.
Proof.
  intros Ha H.
  apply tracks_ext with (cs := List.rev (contribs_norm prefix files) ++ []).
  - intros c. rewrite app_nil_r. symmetry. apply in_rev.
  - apply tracks_run_norm with (b := []).
    + apply tracks_empty.
    + intros ? ? [].
    + intros p Hp. apply is_audio_has_dot. auto.
    + exact H.
Qed.

(** X2. When a manifest is printed, the paths it lists are exactly the
    normalised paths of the files that pass the extension filter.  The
    normalised path of each such file is listed under the bucket key, and in
    a pitch map under the label, that come from its normalised path and the
    stem of its name as found; and every listed path is the normalised path
    of such a file, under its key and label.  This holds for every
    normaliser that keeps the dot of a path. *)
Theorem manifest_lists_audio_files
  (prefix_arg : option string) (root_name base : string) (tree : list string)
  (man : manifest) :
  main_norm prefix_arg root_name base tree = Ok man ->
  let prefix := resolve_prefix prefix_arg root_name in
  (forall x, In x tree -> is_audio x = true ->
     exists v,
       Dict.get man (target (classify prefix (norm x) (path_stem x))) = Some v /\
       jfiled v (slot (classify prefix (norm x) (path_stem x))) (norm x)) /\
  (forall k v label y,
     Dict.get man k = Some v -> jfiled v label y ->
     exists x,
       In x tree /\ is_audio x = true /\ y = norm x /\
       k = target (classify prefix (norm x) (path_stem x)) /\
       forall m, v = JMap m ->
                 label = slot (classify prefix (norm x) (path_stem x))).
Proof.
  intros H. unfold main_norm in H. cbv zeta.
  set (prefix := resolve_prefix prefix_arg root_name) in *.
  destruct (run_norm prefix [] (walk_audio tree)) as [b|e] eqn:E; [|discriminate].
  inversion H; subst man. clear H.
  assert (Hwf : wf_buckets b) by (eapply wf_run_norm; [apply wf_empty | exact E]).
  assert (Ht : tracks (contribs_norm prefix (walk_audio tree)) b).
  { apply tracks_audio_run_norm; [|exact E].
    intros p Hp. now apply walk_audio_In in Hp. }
  split.
  - intros x Hin Ha. set (d := classify prefix (norm x) (path_stem x)).
    assert (Hc : In (d, norm x) (contribs_norm prefix (walk_audio tree))).
    { apply In_contribs_norm. exists x.
      split; [now apply walk_audio_In | split; reflexivity]. }
    specialize (Ht (target d)). rewrite get_assemble by assumption.
    destruct (Dict.get b (target d)) as [bk|] eqn:Eb.
    + exists (sort_bucket bk). split; [reflexivity|].
      apply jfiled_sort_bucket; [exact (@wf_get _ _ _ Hwf Eb)|].
      destruct Ht as (_ & _ & Hf). apply Hf. exists d. auto.
    + destruct (Ht d (norm x) Hc eq_refl).
  - intros k v label y Hget Hj. rewrite get_assemble in Hget by assumption.
    specialize (Ht k). destruct (Dict.get b k) as [bk|] eqn:Eb.
    + inversion Hget; subst v. clear Hget.
      apply jfiled_sort_bucket in Hj; [|exact (@wf_get _ _ _ Hwf Eb)].
      destruct Ht as (_ & _ & Hf). apply Hf in Hj.
      destruct Hj as (d & Hc & Htg & Hsl).
      apply In_contribs_norm in Hc. destruct Hc as (x & Hin & -> & ->).
      apply walk_audio_In in Hin. destruct Hin as [Hin Ha].
      exists x. repeat split; try assumption; [now symmetry|].
      intros m Hm. symmetry. apply Hsl.
      destruct bk; [discriminate | reflexivity].
    + destruct (String.eqb "_base" k); [|discriminate].
      inversion Hget; subst v. destruct Hj.
Qed.

End Normaliser.

(** with the normaliser of the model, this is the loop of [main] *)
Lemma run_norm_nfc (prefix : string) (files : list string) :
  forall b, run_norm nfc prefix b files = run prefix b files.
Proof.
  induction files as [|p files IH]; intros b; simpl; [reflexivity|].
  change (step_norm nfc prefix b p) with (step prefix b p).
  destruct (step prefix b p); [apply IH | reflexivity].
Qed.

Lemma main_norm_nfc (prefix_arg : option string) (root_name base : string)
  (tree : list string) :
  main_norm nfc prefix_arg root_name base tree
  = main prefix_arg root_name base tree.
Proof. unfold main_norm, main. now rewrite run_norm_nfc. Qed.

(** A normaliser that is not the identity: it writes [e] for [~], the way
    NFC writes one composed character for a letter and its combining mark.
    The stems ["c3~"] and ["c3e"] carry different pitches, the two files
    share one listed path, and that path is filed under both labels. *)
Definition merge_tilde (s : string) : string :=
  Str.replace_char "~"%char "e"%char s.

Lemma merge_tilde_dot (p : string) :
  has_dot p = true -> has_dot (merge_tilde p) = true.
Proof.
  unfold merge_tilde, Str.replace_char.
  induction p as [|c p IH]; simpl; [discriminate|].
  intros H. apply orb_true_iff in H. apply orb_true_iff.
  destruct H as [H|H]; [left | right; auto].
  apply Ascii.eqb_eq in H. subst c. reflexivity.
Qed.

Example main_norm_ex :
  main_norm merge_tilde (Some "p") "root" "b"
            ["Bass/c3~.wav"; "notes.txt"; "Bass/c3e.wav"]
  = Ok [("_base", JStr "b");
        ("p_bass", JMap [("c3", ["Bass/c3e.wav"]); ("c4", ["Bass/c3e.wav"])])].
Proof. vm_compute. reflexivity. Qed.

(** ** When the run raises *)

Lemma add_to_list_raises (b : buckets) (key rel : string) (e : exn) :
  add_to_list b key rel = Raised e ->
  e = AttributeError /\
  exists m, Dict.get b key = Some (BMap m) /\ Dict.mem m rel = false.
Proof.
  unfold add_to_list.
  destruct (get_setdefault_same b key (BList [])) as (bk & Hbk & Hcase).
  rewrite Hbk. destruct bk as [l|m]; [discriminate|].
  destruct (Dict.mem m rel) eqn:Em; [discriminate|].
  intros H. inversion H. split; [reflexivity|]. exists m. split; [|assumption].
  destruct Hcase as [E|[_ E]]; [assumption | discriminate].
Qed.

Lemma add_to_list_on_map_raises (b : buckets) (key rel : string)
  (m : Dict.t (list string)) :
  Dict.get b key = Some (BMap m) -> Dict.mem m rel = false ->
  add_to_list b key rel = Raised AttributeError.
Proof.
  intros Hget Hm. unfold add_to_list.
  destruct (get_setdefault_same b key (BList [])) as (bk & Hbk & Hcase).
  rewrite Hbk. destruct Hcase as [E|[E _]]; [|congruence].
  rewrite Hget in E. inversion E; subst bk. now rewrite Hm.
Qed.

(** the one way a turn of the loop raises: a loop decision whose bucket is
    a pitch map *)
Lemma contribute_raises (b : buckets) (d : decision) (rel : string) (e : exn) :
  contribute b d rel = Raised e ->
  e = AttributeError /\ is_loop_decision d = true /\
  exists m, Dict.get b (target d) = Some (BMap m) /\ Dict.mem m rel = false.
Proof.
  destruct d as [key|key|keyname pitch|keyname]; simpl; intros H.
  - apply add_to_list_raises in H. tauto.
  - apply add_to_list_raises in H. tauto.
  - destruct (add_pitched_ok b keyname pitch rel) as (m & _ & E). congruence.
  - unfold add_unpitched, get_or in H.
    destruct (Dict.get b keyname) as [[l|m]|] eqn:E; try discriminate;
      apply add_to_list_raises in H; destruct H as (_ & m0 & Hm & _); congruence.
Qed.

Lemma run_raises (prefix : string) (files : list string) (e : exn) :
  forall b,
    run prefix b files = Raised e ->
    exists l1 p l2 b1,
      files = l1 ++ p :: l2 /\ run prefix b l1 = Ok b1 /\
      step prefix b1 p = Raised e.
Proof.
  induction files as [|p files IH]; intros b H; simpl in H; [discriminate|].
  destruct (step prefix b p) as [b'|e'] eqn:E.
  - destruct (IH b' H) as (l1 & q & l2 & b1 & -> & Hrun & Hstep).
    exists (p :: l1), q, l2, b1. simpl. rewrite E. auto.
  - inversion H; subst e'. exists [], p, files, b. auto.
Qed.

(** a pitched file and, later in the traversal, a loop with the same
    bucket key *)
Definition clash (prefix : string) (files : list string) : Prop :=
  exists l1 q l2 p l3,
    files = l1 ++ q :: l2 ++ p :: l3 /\
    required_shape (classify prefix q (path_stem q)) = PitchMap /\
    is_loop_decision (classify prefix p (path_stem p)) = true /\
    target (classify prefix p (path_stem p))
    = target (classify prefix q (path_stem q)).

Lemma run_raises_clash (prefix : string) (files : list string) (e : exn) :
  (forall p, In p files -> is_audio p = true) ->
  run prefix [] files = Raised e ->
  e = AttributeError /\ clash prefix files.
Proof.
  intros Ha H.
  destruct (@run_raises _ _ _ _ H) as (l1 & p & l2 & b1 & -> & Hrun & Hstep).
  apply contribute_raises in Hstep.
  destruct Hstep as (-> & Hloop & m & Hget & _). split; [reflexivity|].
  assert (Ht : tracks (contribs prefix l1) b1).
  { apply tracks_audio_run; [|assumption].
    intros q Hq. apply Ha. apply in_or_app. now left. }
  specialize (Ht (target (classify prefix (nfc p) (path_stem p)))).
  rewrite Hget in Ht. destruct Ht as (_ & Hsh & _).
  destruct (proj1 Hsh eq_refl) as (d & q & Hc & Htg & Hp).
  apply In_contribs in Hc. destruct Hc as [Hq ->].
  apply in_split in Hq. destruct Hq as (k1 & k2 & ->).
  exists k1, q, k2, p, l2. rewrite <- app_assoc. simpl.
  repeat split; try assumption. now symmetry.
Qed.

Lemma clash_run_raises (prefix : string) (files : list string) :
  (forall p, In p files -> is_audio p = true) ->
  clash prefix files ->
  run prefix [] files = Raised AttributeError.
Proof.
  intros Ha (l1 & q & l2 & p & l3 & Hfiles & Hq & Hp & Htg).
  assert (Hsplit : files = (l1 ++ q :: l2) ++ p :: l3)
    by (rewrite <- app_assoc; exact Hfiles).
  assert (Hany : forall e, run prefix [] files = Raised e ->
                           run prefix [] files = Raised AttributeError).
  { intros e He. destruct (@run_raises_clash prefix files e Ha He) as [-> _]. exact He. }
  destruct (run prefix [] files) as [b|e] eqn:E; [|now apply (Hany e)].
  exfalso. rewrite Hsplit, run_app in E.
  destruct (run prefix [] (l1 ++ q :: l2)) as [bA|eA] eqn:EA; [|discriminate].
  assert (HaA : forall x, In x (l1 ++ q :: l2) -> is_audio x = true).
  { intros x Hx. apply Ha. rewrite Hsplit. apply in_or_app. now left. }
  pose proof (@tracks_audio_run prefix _ _ HaA EA) as Ht.
  assert (Hc : In (classify prefix q (path_stem q), q) (contribs prefix (l1 ++ q :: l2))).
  { apply In_contribs. split; [|reflexivity]. apply in_or_app. right. now left. }
  assert (Hmap : exists m, Dict.get bA (target (classify prefix q (path_stem q)))
                           = Some (BMap m)).
  { pose proof (Ht (target (classify prefix q (path_stem q)))) as Hk.
    destruct (Dict.get bA (target (classify prefix q (path_stem q)))) as [[l|m]|].
    - destruct Hk as (_ & Hsh & _).
      assert (Hx : shape_of (BList l) = PitchMap) by (apply Hsh; eauto).
      discriminate.
    - eauto.
    - destruct (Hk _ _ Hc eq_refl). }
  destruct Hmap as (m & Hm).
  assert (Hskip : no_skip bA (classify prefix p (path_stem p)) p).
  { apply tracks_no_skip with (cs := contribs prefix (l1 ++ q :: l2)); [assumption|].
    intros d0 x0 Hin. apply In_contribs in Hin. destruct Hin as [_ ->].
    apply dot_differs; [apply classify_slot_no_dot|].
    apply is_audio_has_dot, Ha. rewrite Hsplit. apply in_or_app. right. now left. }
  rewrite <- Htg in Hm. specialize (Hskip m Hm Hp).
  simpl in E. unfold step, nfc in E.
  assert (Hr : contribute bA (classify prefix p (path_stem p)) p = Raised AttributeError).
  { destruct (classify prefix p (path_stem p)) as [key|key|kn pt|kn];
      try discriminate; simpl in *; now apply add_to_list_on_map_raises with (m := m). }
  rewrite Hr in E. discriminate.
Qed.

(** X3. The loop over the files that pass the extension filter raises
    exactly when a pitched one-shot is followed in the traversal by a loop
    with the same bucket key; the exception is then [AttributeError].  This
    is about the turns of the loop (lines 105 to 149), not about the
    printing that follows it. *)
Theorem loop_raises_iff (prefix : string) (tree : list string) (e : exn) :
  run prefix [] (walk_audio tree) = Raised e <->
  e = AttributeError /\ clash prefix (walk_audio tree).
Proof.
  assert (Ha : forall p, In p (walk_audio tree) -> is_audio p = true)
    by (intros p Hp; now apply walk_audio_In in Hp).
  split.
  - intros H. now apply run_raises_clash.
  - intros [-> Hc]. now apply clash_run_raises.
Qed.

(** for a tree without such a pair the loop completes and the manifest is
    assembled *)
Lemma main_completes_without_clash
  (prefix_arg : option string) (root_name base : string) (tree : list string) :
  ~ clash (resolve_prefix prefix_arg root_name) (walk_audio tree) ->
  exists man, main prefix_arg root_name base tree = Ok man.
Proof.
  intros Hn. unfold main.
  destruct (run (resolve_prefix prefix_arg root_name) [] (walk_audio tree))
    as [b|e] eqn:E; [eauto|].
  apply run_raises_clash in E; [tauto|].
  intros p Hp. now apply walk_audio_In in Hp.
Qed.

(** ** Contributing a file twice *)

Lemma set_get_same (V : Type) (d : Dict.t V) (k : string) (v : V) :
  Dict.get d k = Some v -> Dict.set d k v = d.
Proof.
  induction d as [|[k0 v0] d IH]; simpl; [discriminate|].
  destruct (String.eqb_spec k0 k) as [->|Hne].
  - intros E. now inversion E.
  - intros E. now rewrite IH.
Qed.

Lemma setdefault_present (V : Type) (d : Dict.t V) (k : string) (v v0 : V) :
  Dict.get d k = Some v0 -> Dict.setdefault d k v = d.
Proof. intros E. unfold Dict.setdefault, Dict.mem. now rewrite E. Qed.

Lemma append_new_present (l : list string) (rel : string) :
  In rel l -> append_new l rel = l.
Proof. intros H. unfold append_new. apply mem_In in H. now rewrite H. Qed.

Lemma In_append_new_self (l : list string) (rel : string) :
  In rel (append_new l rel).
Proof. apply In_append_new. now right. Qed.

Lemma add_under_present (m : Dict.t (list string)) (label rel : string)
  (l : list string) :
  Dict.get m label = Some l -> In rel l -> add_under m label rel = m.
Proof.
  intros E Hin. unfold add_under.
  rewrite (@setdefault_present _ m label [] l E), E.
  rewrite (append_new_present _ _ Hin). now apply set_get_same.
Qed.

Lemma add_under_twice (m : Dict.t (list string)) (label rel : string) :
  add_under (add_under m label rel) label rel = add_under m label rel.
Proof.
  eapply add_under_present.
  - rewrite get_add_under, String.eqb_refl. reflexivity.
  - apply In_append_new_self.
Qed.

Lemma add_to_list_present (b : buckets) (key rel : string) (l : list string) :
  Dict.get b key = Some (BList l) -> In rel l -> add_to_list b key rel = Ok b.
Proof.
  intros E Hin. unfold add_to_list.
  rewrite (@setdefault_present _ b key (BList []) _ E), E.
  rewrite (append_new_present _ _ Hin). f_equal. now apply set_get_same.
Qed.

Lemma add_to_list_twice (b b1 : buckets) (key rel : string) :
  add_to_list b key rel = Ok b1 -> add_to_list b1 key rel = Ok b1.
Proof.
  intros H. pose proof (@add_to_list_spec _ _ _ _ H) as [_ Hk].
  destruct (Dict.get b key) as [[l|m]|] eqn:E.
  - eapply add_to_list_present; [exact Hk | apply In_append_new_self].
  - pose proof (@add_to_list_on_map _ _ _ _ _ E H) as Hm.
    unfold add_to_list.
    rewrite (@setdefault_present _ b1 key (BList []) _ Hk), Hk. now rewrite Hm.
  - eapply add_to_list_present; [exact Hk | now left].
Qed.

Lemma contribute_twice (b b1 : buckets) (d : decision) (rel : string) :
  contribute b d rel = Ok b1 -> contribute b1 d rel = Ok b1.
Proof.
  destruct d as [key|key|keyname pitch|keyname]; simpl; intros H.
  - now apply add_to_list_twice with (b := b).
  - now apply add_to_list_twice with (b := b).
  - pose proof (@add_pitched_spec _ _ _ _ _ H) as [_ Hk].
    assert (Hm : exists m, Dict.get b1 keyname = Some (BMap (add_under m pitch rel)))
      by (destruct (Dict.get b keyname) as [[l|m]|]; eauto).
    destruct Hm as (m & Hm). unfold add_pitched, get_or. rewrite Hm. simpl.
    rewrite add_under_twice. f_equal. now apply set_get_same.
  - pose proof (@add_unpitched_spec _ _ _ _ H) as [_ Hk].
    destruct (Dict.get b keyname) as [[l|m]|] eqn:E.
    + unfold add_unpitched, get_or. rewrite Hk.
      eapply add_to_list_present; [exact Hk | apply In_append_new_self].
    + unfold add_unpitched, get_or. rewrite Hk.
      rewrite add_under_twice. f_equal. now apply set_get_same.
    + unfold add_unpitched, get_or. rewrite Hk.
      eapply add_to_list_present; [exact Hk | now left].
Qed.

(** X4. A file that has just been processed changes nothing when it is
    processed again: the turn succeeds and leaves the buckets as they are. *)
Theorem step_twice (prefix p : string) (b b1 : buckets) :
  step prefix b p = Ok b1 -> step prefix b1 p = Ok b1.
Proof. unfold step. apply contribute_twice. Qed.

Lemma step_twice_witness :
  step "p" [("p_bass", BList ["Bass/thud.wav"])] "Bass/thud.wav"
  = Ok [("p_bass", BList ["Bass/thud.wav"])].
Proof.
  apply (@step_twice "p" "Bass/thud.wav" []). vm_compute. reflexivity.
Defined.

(** ** The reserved key and the prefix *)




Lemma target_classify_prefix (prefix rel stem : string) :
  exists rest, target (classify prefix rel stem) = (prefix ++ "_" ++ rest)%string.
Proof.
  unfold classify.
  destruct (is_loops_folder rel || (is_some (get_bpm stem) && is_some (get_key stem))).
  - destruct (drum_branch rel) as [grp|]; cbn [target];
      [eexists; reflexivity|].
    unfold generic_loop_key.
    destruct (get_bpm stem) as [bpm|]; [destruct (get_key stem) as [k|]|];
      eexists; reflexivity.
  - destruct (get_key stem) as [k|]; cbn [target]; eexists; reflexivity.
Qed.

Lemma prefixed_not_base (prefix rest : string) :
  prefix <> "" -> (prefix ++ "_" ++ rest)%string <> "_base".
Proof.
  intros Hp E. destruct prefix as [|c0 [|c1 [|c2 [|c3 [|c4 [|c5 q]]]]]];
    simpl in E; try congruence; inversion E; subst; discriminate.
Qed.

Lemma tracks_key (cs : list (decision * string)) (b : buckets) (k : string)
  (bk : bucket) :
  tracks cs b -> Dict.get b k = Some bk ->
  exists d x, In (d, x) cs /\ target d = k.
Proof.
  intros Ht E. specialize (Ht k). rewrite E in Ht.
  destruct Ht as (Hn & Hsh & Hf). destruct bk as [l|m].
  - destruct l as [|x l]; [now destruct Hn|].
    destruct (proj1 (Hf "" x)) as (d & Hin & Ht0 & _); [now left|]. eauto.
  - destruct (proj1 Hsh eq_refl) as (d & x & Hin & Ht0 & _). eauto.
Qed.

(** X6. In a printed manifest every key other than "_base" is the prefix,
    an underscore and a rest; and when the prefix is not empty, "_base"
    still holds the base. *)
Theorem manifest_keys
  (prefix_arg : option string) (root_name base : string) (tree : list string)
  (man : manifest) :
  main prefix_arg root_name base tree = Ok man ->
  let prefix := resolve_prefix prefix_arg root_name in
  (forall k v, Dict.get man k = Some v ->
     k = "_base" \/ exists rest, k = (prefix ++ "_" ++ rest)%string) /\
  (prefix <> "" -> Dict.get man "_base" = Some (JStr base)).
Proof.
  intros H. unfold main in H. cbv zeta.
  set (prefix := resolve_prefix prefix_arg root_name) in *.
  destruct (run prefix [] (walk_audio tree)) as [b|e] eqn:E; [|discriminate].
  inversion H; subst man. clear H.
  assert (Hwf : wf_buckets b) by (eapply wf_run; [apply wf_empty | exact E]).
  assert (Ht : tracks (contribs prefix (walk_audio tree)) b).
  { apply tracks_audio_run; [|exact E]. intros p Hp. now apply walk_audio_In in Hp. }
  assert (Hkeys : forall k bk, Dict.get b k = Some bk ->
                    exists rest, k = (prefix ++ "_" ++ rest)%string).
  { intros k bk Hk. destruct (@tracks_key _ _ _ _ Ht Hk) as (d & x & Hc & <-).
    apply In_contribs in Hc. destruct Hc as [_ ->]. apply target_classify_prefix. }
  split.
  - intros k v. rewrite get_assemble by assumption.
    destruct (Dict.get b k) as [bk|] eqn:Eb.
    + intros _. right. eauto.
    + destruct (String.eqb_spec "_base" k) as [<-|]; intros Hv;
        [now left | discriminate Hv].
  - intros Hp. rewrite get_assemble by assumption.
    destruct (Dict.get b "_base") as [bk|] eqn:Eb; [|reflexivity].
    destruct (Hkeys _ _ Eb) as (rest & Hrest). symmetry in Hrest.
    destruct (@prefixed_not_base _ rest Hp Hrest).
Qed.

Lemma manifest_keys_witness :
  Dict.get [("_base", JStr "https://cdn/");
            ("p_snare", JList ["Custom/Snares/Snare_Hit.wav"])] "_base"
  = Some (JStr "https://cdn/").
Proof.
  refine (proj2 (@manifest_keys (Some "p") "root" "https://cdn/"
                   ["Custom/Snares/Snare_Hit.wav"] _ eq_refl) _).
  discriminate.
Defined.

(** ** The key feature and the pitch labels *)

(** every root [get_key] can return *)
Definition KEY_ROOTS : list string :=
  ["c"; "db"; "d"; "eb"; "e"; "f"; "f#"; "g"; "ab"; "a"; "bb"; "b";
   "cb"; "fb"; "gb"; "e#"; "b#"].

Lemma normalize_note_root (t : string) :
  is_pitch_token t = true -> Str.mem (normalize_note t) KEY_ROOTS = true.
Proof.
  destruct t as [|l [|a [|? ?]]]; simpl; try discriminate.
  - intros Hl. apply note_letter_cases in Hl. simpl in Hl.
    repeat (destruct Hl as [<-|Hl]; [reflexivity|]). contradiction.
  - intros H. apply andb_true_iff in H. destruct H as [Hl Ha].
    apply note_letter_cases in Hl. apply accidental_cases in Ha. simpl in Hl.
    destruct Ha as [-> | ->];
      repeat (destruct Hl as [<-|Hl]; [reflexivity|]); contradiction.
Qed.

Lemma digit_val_range (d : ascii) :
  is_digit d = true -> (0 <= digit_val d <= 9)%Z.
Proof.
  unfold is_digit, between, digit_val. rewrite andb_true_iff, !Nat.leb_le. lia.
Qed.

Lemma get_key_shape (stem : string) (k : key_info) :
  get_key stem = Some k ->
  In (root k) KEY_ROOTS /\
  match oct k with
  | Some o => (0 <= o <= 9)%Z /\ minor k = false
  | None => True
  end.
Proof.
  rewrite get_key_search.
  pose proof (search_oct (lc stem)) as Ho. pose proof (search_bare (lc stem)) as Hb.
  destruct (option_map out_oct (search KEY_WITH_OCT (lc stem))) as [x|].
  - intros H. inversion H; subst k. cbn [key_of_oct key_of_bare root oct minor].
    destruct Ho as (i & Hi & _). apply token_at_head in Hi.
    apply oct_head_shape in Hi. destruct Hi as (Hp & d & Hd & ->).
    split; [apply mem_In; now apply normalize_note_root|].
    split; [now apply digit_val_range | reflexivity].
  - destruct (option_map out_bare (search KEY_TOKEN (lc stem))) as [y|];
      [|discriminate].
    intros H. inversion H; subst k. cbn [key_of_oct key_of_bare root oct minor].
    destruct Hb as (i & Hi & _). apply token_at_head in Hi.
    apply bare_head_shape in Hi.
    split; [apply mem_In; now apply normalize_note_root | exact I].
Qed.

(** X7. A key feature has one of seventeen roots (never c#, d#, g# or a#),
    an octave between 0 and 9 when it has one, and is minor only without
    an octave. *)
Theorem get_key_well_formed (stem : string) (k : key_info) :
  get_key stem = Some k ->
  In (root k) KEY_ROOTS /\
  match oct k with
  | Some o => (0 <= o <= 9)%Z /\ minor k = false
  | None => True
  end.
Proof. apply get_key_shape. Qed.

Lemma get_key_well_formed_witness :
  In "db" KEY_ROOTS /\ ((0 <= 3 <= 9)%Z /\ false = false).
Proof.
  exact (@get_key_well_formed "Bass_C#3" (KeyInfo "db" false (Some 3%Z)) eq_refl).
Defined.

Lemma pitch_label_not_unpitched (r : string) (o : Z) :
  In r KEY_ROOTS -> (0 <= o <= 9)%Z ->
  (r ++ Str.of_int o)%string <> "unpitched" /\
  2 <= String.length (r ++ Str.of_int o) <= 3.
Proof.
  intros Hr Ho.
  assert (Hcases : (o = 0 \/ o = 1 \/ o = 2 \/ o = 3 \/ o = 4 \/ o = 5 \/ o = 6
                    \/ o = 7 \/ o = 8 \/ o = 9)%Z) by lia.
  simpl in Hr.
  repeat (destruct Hr as [<-|Hr];
          [repeat (destruct Hcases as [->|Hcases]; [vm_compute; split; [discriminate | split; lia]|]);
           subst o; vm_compute; split; [discriminate | split; lia]|]).
  contradiction.
Qed.

(** X8. The pitch label of a one-shot is a root followed by one digit, the
    octave of the stem or 4; it has two or three characters and is never the
    reserved label "unpitched". *)
Theorem pitched_label (prefix rel stem keyname pitch : string) :
  classify prefix rel stem = PitchedShot keyname pitch ->
  exists k,
    get_key stem = Some k /\
    pitch = (root k ++ Str.of_int (match oct k with Some o => o | None => 4%Z end))%string /\
    pitch <> "unpitched" /\ 2 <= String.length pitch <= 3.
Proof.
  unfold classify.
  destruct (is_loops_folder rel || (is_some (get_bpm stem) && is_some (get_key stem))).
  - destruct (drum_branch rel); discriminate.
  - destruct (get_key stem) as [k|] eqn:E; [|discriminate].
    intros H. inversion H; subst. exists k. split; [reflexivity|].
    split; [reflexivity|].
    destruct (@get_key_shape _ _ E) as [Hr Ho].
    apply pitch_label_not_unpitched; [assumption|].
    destruct (oct k); [tauto | lia].
Qed.

Lemma pitched_label_witness :
  exists k,
    get_key "Bass_C3" = Some k /\
    "c3" = (root k ++ Str.of_int (match oct k with Some o => o | None => 4%Z end))%string /\
    "c3" <> "unpitched" /\ 2 <= String.length "c3" <= 3.
Proof.
  apply (@pitched_label "p" "one shots/Bass/Bass_C3.wav" "Bass_C3" "p_bass" "c3").
  vm_compute. reflexivity.
Defined.

(** ** Slugs *)

(** a well-formed slug after the cursor: characters of [[a-z0-9]] and
    single underscores, no underscore at the end; [after_us] tells that the
    previous character was an underscore (or that the cursor is at the
    start) *)
Fixpoint slug_body (after_us : bool) (s : string) : bool :=
  match s with
  | EmptyString => negb after_us
  | String c s' =>
      if is_slug_char c then slug_body false s'
      else Ascii.eqb c "_" && negb after_us && slug_body true s'
  end.

(** a slug: empty, or words of [[a-z0-9]] joined by single underscores *)
Definition is_slug (s : string) : bool :=
  match s with
  | EmptyString => true
  | _ => slug_body true s
  end.

(** the same without the condition on the end *)
Fixpoint runs_ok (after_us : bool) (s : string) : bool :=
  match s with
  | EmptyString => true
  | String c s' =>
      if is_slug_char c then runs_ok false s'
      else Ascii.eqb c "_" && negb after_us && runs_ok true s'
  end.

Lemma sub_runs_ok (s : string) : forall r, runs_ok r (sub_runs r s) = true.
Proof.
  induction s as [|c s IH]; intros r; simpl; [reflexivity|].
  destruct (is_slug_char c) eqn:Ec.
  - simpl. rewrite Ec. apply IH.
  - destruct r; [apply IH|]. simpl. apply IH.
Qed.

Lemma slug_char_not_underscore (c : ascii) :
  is_slug_char c = true -> Ascii.eqb c "_" = false.
Proof. destruct c as [[] [] [] [] [] [] [] []]; vm_compute; congruence. Qed.

Lemma lstrip_runs_ok (s : string) :
  forall r, runs_ok r s = true -> runs_ok true (Str.lstrip "_" s) = true.
Proof.
  induction s as [|c s IH]; intros r H; simpl in *; [reflexivity|].
  destruct (is_slug_char c) eqn:Ec.
  - rewrite (slug_char_not_underscore _ Ec). simpl. now rewrite Ec.
  - apply andb_true_iff in H. destruct H as [H Hs].
    apply andb_true_iff in H. destruct H as [Hc _].
    rewrite Hc. eauto.
Qed.

Lemma rstrip_cons (c : ascii) (s : string) :
  Str.rstrip "_" (String c s) =
  if Ascii.eqb c "_" && String.eqb (Str.rstrip "_" s) ""
  then "" else String c (Str.rstrip "_" s).
Proof. reflexivity. Qed.

Lemma rstrip_slug_body (s : string) :
  forall a, runs_ok a s = true ->
            Str.rstrip "_" s = "" \/ slug_body a (Str.rstrip "_" s) = true.
Proof.
  induction s as [|c s IH]; intros a H; [now left|].
  rewrite rstrip_cons. cbn [runs_ok] in H.
  destruct (is_slug_char c) eqn:Ec.
  - rewrite (slug_char_not_underscore _ Ec). cbn [andb slug_body]. right.
    rewrite Ec. destruct (IH false H) as [-> | Hb]; [reflexivity | assumption].
  - apply andb_true_iff in H. destruct H as [H Hs].
    apply andb_true_iff in H. destruct H as [Hc Ha].
    rewrite Hc. cbn [andb].
    destruct (String.eqb_spec (Str.rstrip "_" s) "") as [E|Hne]; [now left|].
    right. cbn [slug_body]. rewrite Ec, Hc, Ha. cbn [andb].
    destruct (IH true Hs) as [E | Hb]; [contradiction | assumption].
Qed.

Lemma slug_is_slug (s : string) : is_slug (slug s) = true.
Proof.
  unfold slug, Str.strip.
  pose proof (sub_runs_ok (lc s) false) as H.
  apply lstrip_runs_ok in H. apply rstrip_slug_body in H.
  destruct H as [-> | H]; [reflexivity|].
  unfold is_slug. now destruct (Str.rstrip "_" _).
Qed.

Lemma slug_char_lower (c : ascii) :
  is_slug_char c = true -> lower_char c = c.
Proof. destruct c as [[] [] [] [] [] [] [] []]; vm_compute; congruence. Qed.

Lemma slug_body_lower (s : string) :
  forall a, slug_body a s = true -> lc s = s.
Proof.
  induction s as [|c s IH]; intros a H; [reflexivity|].
  simpl in H. change (lc (String c s)) with (String (lower_char c) (lc s)).
  destruct (is_slug_char c) eqn:Ec.
  - now rewrite (slug_char_lower _ Ec), (IH false H).
  - apply andb_true_iff in H. destruct H as [H Hs].
    apply andb_true_iff in H. destruct H as [Hc _].
    apply Ascii.eqb_eq in Hc. subst c. now rewrite (IH true Hs).
Qed.

Lemma slug_body_sub_runs (s : string) :
  forall a r, slug_body a s = true -> (r = true -> a = true) ->
              sub_runs r s = s.
Proof.
  induction s as [|c s IH]; intros a r H Hr; [reflexivity|].
  simpl in *. destruct (is_slug_char c) eqn:Ec.
  - f_equal. apply (IH false false); [assumption | discriminate].
  - apply andb_true_iff in H. destruct H as [H Hs].
    apply andb_true_iff in H. destruct H as [Hc Ha].
    apply Ascii.eqb_eq in Hc. subst c.
    destruct r; [rewrite (Hr eq_refl) in Ha; discriminate|].
    f_equal. apply (IH true true); auto.
Qed.

Lemma slug_body_rstrip (s : string) :
  forall a, slug_body a s = true -> Str.rstrip "_" s = s.
Proof.
  induction s as [|c s IH]; intros a H; [reflexivity|].
  rewrite rstrip_cons. cbn [slug_body] in H.
  destruct (is_slug_char c) eqn:Ec.
  - rewrite (slug_char_not_underscore _ Ec), (IH false H). reflexivity.
  - apply andb_true_iff in H. destruct H as [H Hs].
    rewrite (IH true Hs). destruct s as [|d s]; [discriminate|].
    now rewrite andb_false_r.
Qed.

Lemma slug_body_lstrip (s : string) :
  slug_body true s = true -> Str.lstrip "_" s = s.
Proof.
  destruct s as [|c s]; [reflexivity|]. simpl.
  destruct (is_slug_char c) eqn:Ec.
  - now rewrite (slug_char_not_underscore _ Ec).
  - rewrite andb_false_r. discriminate.
Qed.

(** X9. [slug] returns the empty string or words of [[a-z0-9]] joined by
    single underscores, and the strings of that form are exactly the ones it
    leaves unchanged; so it is idempotent. *)
Theorem slug_fixed_points (s : string) :
  is_slug (slug s) = true /\
  (slug s = s <-> is_slug s = true) /\
  slug (slug s) = slug s.
Proof.
  assert (Hfix : forall t, is_slug t = true -> slug t = t).
  { intros t Ht. destruct t as [|c t]; [reflexivity|].
    unfold is_slug in Ht. unfold slug, Str.strip.
    rewrite (slug_body_lower _ _ Ht).
    rewrite (@slug_body_sub_runs _ true false Ht) by discriminate.
    rewrite (slug_body_lstrip _ Ht). now apply slug_body_rstrip with (a := true). }
  split; [apply slug_is_slug|]. split.
  - split; [intros E; rewrite <- E; apply slug_is_slug | apply Hfix].
  - apply Hfix, slug_is_slug.
Qed.

Example slug_ex2 : slug "  --One  Shots!!_(v2)" = "one_shots_v2" /\ slug "!!!" = "".
Proof. vm_compute. split; reflexivity. Qed.

(** ** Drum groups and instruments *)

Definition DRUM_GROUP_NAMES : list string :=
  ["breaks"; "claps"; "shakers"; "woodblock"].

Lemma table_find_group (k g : string) :
  table_find DRUM_LOOP_GROUPS k = Some g ->
  In g DRUM_GROUP_NAMES /\ In k (List.map fst DRUM_LOOP_GROUPS).
Proof.
  unfold DRUM_LOOP_GROUPS, DRUM_GROUP_NAMES. cbn [table_find List.map fst].
  repeat match goal with
         | |- context [String.eqb ?a k] =>
             destruct (String.eqb_spec a k) as [<-|?];
             [intros H; inversion H; subst; simpl; tauto|]
         end.
  discriminate.
Qed.

Lemma table_find_None (k : string) :
  table_find DRUM_LOOP_GROUPS k = None <-> ~ In k (List.map fst DRUM_LOOP_GROUPS).
Proof.
  unfold DRUM_LOOP_GROUPS. cbn [table_find List.map fst In].
  repeat match goal with
         | |- context [String.eqb ?a k] =>
             destruct (String.eqb_spec a k) as [<-|?];
             [split; [discriminate | tauto]|]
         end.
  tauto.
Qed.

Lemma detect_in_Some (segs : list string) (g : string) :
  detect_in segs = Some g ->
  exists l1 seg l2,
    segs = l1 ++ seg :: l2 /\
    table_find DRUM_LOOP_GROUPS (slug seg) = Some g /\
    forall s, In s l1 -> table_find DRUM_LOOP_GROUPS (slug s) = None.
Proof.
  induction segs as [|seg segs IH]; cbn [detect_in]; [discriminate|].
  destruct (table_find DRUM_LOOP_GROUPS (slug seg)) as [g0|] eqn:E.
  - intros H. inversion H; subst. exists [], seg, segs.
    repeat split; [assumption | intros s []].
  - intros H. destruct (IH H) as (l1 & s0 & l2 & -> & Hs0 & Hl1).
    exists (seg :: l1), s0, l2. repeat split; [assumption|].
    intros s [<-|Hs]; auto.
Qed.

Lemma detect_in_None (segs : list string) :
  detect_in segs = None <->
  forall s, In s segs -> table_find DRUM_LOOP_GROUPS (slug s) = None.
Proof.
  induction segs as [|seg segs IH]; cbn [detect_in In]; [tauto|].
  destruct (table_find DRUM_LOOP_GROUPS (slug seg)) as [g0|] eqn:E.
  - split; [discriminate|]. intros H. rewrite (H seg (or_introl eq_refl)) in E.
    discriminate.
  - rewrite IH. split; [intros H s [<-|Hs]; auto | auto].
Qed.

(** X10. [detect_drums_group] returns the group of the first path segment
    whose slug is one of breaks, claps, shakers, woodblock, woodblck, and
    [None] when there is no such segment; the group is one of the four
    names, hence a true value, and the drum branch is taken exactly when
    [is_drums_loops] holds and a group is found. *)
Theorem detect_drums_group_spec (rel : string) :
  (forall g, detect_drums_group rel = Some g ->
     In g DRUM_GROUP_NAMES /\
     exists l1 seg l2,
       Str.split "/" rel = l1 ++ seg :: l2 /\
       table_find DRUM_LOOP_GROUPS (slug seg) = Some g /\
       forall s, In s l1 -> ~ In (slug s) (List.map fst DRUM_LOOP_GROUPS)) /\
  (detect_drums_group rel = None <->
     forall s, In s (Str.split "/" rel) ->
               ~ In (slug s) (List.map fst DRUM_LOOP_GROUPS)) /\
  drum_branch rel = (if is_drums_loops rel then detect_drums_group rel else None).
Proof.
  unfold detect_drums_group. split; [|split].
  - intros g H. destruct (detect_in_Some _ H) as (l1 & seg & l2 & E & Hseg & Hl1).
    split; [now apply table_find_group with (k := slug seg)|].
    exists l1, seg, l2. repeat split; try assumption.
    intros s Hs. apply table_find_None. auto.
  - rewrite detect_in_None. split; intros H s Hs; apply table_find_None; auto.
  - unfold drum_branch, detect_drums_group.
    destruct (is_drums_loops rel); [|reflexivity].
    destruct (detect_in (Str.split "/" rel)) as [g|] eqn:E; [|reflexivity].
    destruct (detect_in_Some _ E) as (_ & seg & _ & _ & Hseg & _).
    apply table_find_group in Hseg. destruct Hseg as [Hg _].
    simpl in Hg.
    repeat (destruct Hg as [<-|Hg]; [reflexivity|]). contradiction.
Qed.

Lemma or_inst_nonempty (x : string) : or_inst x <> "".
Proof.
  unfold or_inst. destruct (String.eqb_spec x ""); [discriminate | assumption].
Qed.

(** every character is of [[a-z0-9_]] *)
Fixpoint key_chars (s : string) : bool :=
  match s with
  | EmptyString => true
  | String c s' => (is_slug_char c || Ascii.eqb c "_") && key_chars s'
  end.

Lemma runs_ok_key_chars (s : string) :
  forall a, runs_ok a s = true -> key_chars s = true.
Proof.
  induction s as [|c s IH]; intros a H; [reflexivity|].
  simpl in *. destruct (is_slug_char c); simpl.
  - eauto.
  - apply andb_true_iff in H. destruct H as [H Hs].
    apply andb_true_iff in H. destruct H as [-> _]. simpl. eauto.
Qed.

Lemma lstrip_key_chars (s : string) :
  key_chars s = true -> key_chars (Str.lstrip "_" s) = true.
Proof.
  induction s as [|c s IH]; intros H; [reflexivity|].
  simpl. destruct (Ascii.eqb c "_"); [|assumption].
  simpl in H. apply andb_true_iff in H. tauto.
Qed.

Lemma rstrip_key_chars (s : string) :
  key_chars s = true -> key_chars (Str.rstrip "_" s) = true.
Proof.
  induction s as [|c s IH]; intros H; [reflexivity|].
  rewrite rstrip_cons. simpl in H. apply andb_true_iff in H. destruct H as [Hc Hs].
  destruct (Ascii.eqb c "_" && String.eqb (Str.rstrip "_" s) ""); [reflexivity|].
  simpl. rewrite Hc. auto.
Qed.

Lemma slug_key_chars (s : string) : key_chars (slug s) = true.
Proof.
  unfold slug, Str.strip. apply rstrip_key_chars, lstrip_key_chars.
  apply runs_ok_key_chars with (a := false). apply sub_runs_ok.
Qed.

Lemma drop_last_key_chars (s : string) :
  key_chars s = true -> key_chars (Str.drop_last s) = true.
Proof.
  induction s as [|c s IH]; intros H; [reflexivity|].
  simpl in H. apply andb_true_iff in H. destruct H as [Hc Hs].
  destruct s as [|d s]; [reflexivity|].
  change (Str.drop_last (String c (String d s)))
    with (String c (Str.drop_last (String d s))).
  simpl key_chars at 1. rewrite Hc. auto.
Qed.

Lemma split_key_chars (sep : ascii) (s : string) :
  key_chars s = true ->
  forall seg, In seg (Str.split sep s) -> key_chars seg = true.
Proof.
  induction s as [|c s IH]; intros H seg Hin.
  - destruct Hin as [<-|[]]. reflexivity.
  - simpl in H. apply andb_true_iff in H. destruct H as [Hc Hs].
    simpl in Hin. destruct (Ascii.eqb c sep).
    + destruct Hin as [<-|Hin]; [reflexivity | auto].
    + destruct (Str.split sep s) as [|h t] eqn:E.
      * destruct Hin as [<-|[]]. simpl. now rewrite Hc.
      * destruct Hin as [<-|Hin].
        -- simpl. rewrite Hc. apply (IH Hs). now left.
        -- apply (IH Hs). now right.
Qed.

Lemma or_inst_key_chars (x : string) :
  key_chars x = true -> key_chars (or_inst x) = true.
Proof. unfold or_inst. now destruct (String.eqb x ""). Qed.

(** X11. [guess_instrument] never returns the empty string, and what it
    returns consists of characters of [[a-z0-9_]]. *)
Theorem guess_instrument_well_formed (rel : string) :
  guess_instrument rel <> "" /\ key_chars (guess_instrument rel) = true.
Proof.
  unfold guess_instrument.
  destruct (first_specific _) as [seg|] eqn:E.
  - revert E.
    assert (Hall : forall s, In s (rev (removelast (List.map slug (Str.split "/" rel))))
                             -> key_chars s = true).
    { intros s Hs. apply in_rev in Hs.
      assert (Hin : In s (List.map slug (Str.split "/" rel))).
      { revert Hs. generalize (List.map slug (Str.split "/" rel)).
        intros l. induction l as [|x [|y l] IH]; simpl; tauto. }
      apply in_map_iff in Hin. destruct Hin as (x & <- & _). apply slug_key_chars. }
    revert Hall. generalize (rev (removelast (List.map slug (Str.split "/" rel)))).
    intros l. induction l as [|s l IH]; cbn [first_specific]; [discriminate|].
    intros Hall.
    destruct (negb (Str.mem (Str.replace_char "_" " " s) GENERIC_FOLDERS)).
    + intros H. inversion H. split; [apply or_inst_nonempty|].
      apply or_inst_key_chars.
      assert (Hs : key_chars s = true) by (apply Hall; now left).
      destruct (Str.endswith s "s" && negb (Str.endswith s "ss"));
        [now apply drop_last_key_chars | assumption].
    + apply IH. intros x Hx. apply Hall. now right.
  - split; [apply or_inst_nonempty|]. apply or_inst_key_chars.
    pose proof (split_key_chars "_" _ (slug_key_chars (path_stem rel))) as H.
    pose proof (@split_nonempty "_" (slug (path_stem rel))) as Hne.
    destruct (Str.split "_" (slug (path_stem rel))) as [|h t]; [congruence|].
    apply H. now left.
Qed.

Example guess_instrument_ex2 :
  guess_instrument "samples/fx/!!!.wav" = "inst" /\
  guess_instrument "S/kick.wav" = "inst" /\
  guess_instrument "samples/fx/!!!_boom.wav" = "boom" /\
  guess_instrument "Drums/Glass/hit.wav" = "glass" /\
  guess_instrument "kick_01.wav" = "kick".
Proof. vm_compute. repeat split; reflexivity. Qed.

(** ** File names: stem and suffix *)

Lemma take_drop (i : nat) : forall s, (Str.take i s ++ Str.drop i s)%string = s.
Proof.
  induction i as [|i IH]; intros [|c s]; simpl; try reflexivity.
  now rewrite IH.
Qed.

Lemma length_drop (i : nat) :
  forall s, String.length (Str.drop i s) = String.length s - i.
Proof.
  induction i as [|i IH]; intros [|c s]; simpl; auto.
Qed.

Lemma append_empty_r (s : string) : (s ++ "")%string = s.
Proof. induction s as [|c s IH]; simpl; [reflexivity | now rewrite IH]. Qed.

Lemma rfind_None_no_dot (s : string) :
  Str.rfind "." s = None -> has_dot s = false.
Proof.
  induction s as [|c s IH]; simpl; [reflexivity|].
  destruct (Str.rfind "." s); [discriminate|].
  destruct (Ascii.eqb c "."); [discriminate|]. intros _. now apply IH.
Qed.

Lemma rfind_Some_drop (s : string) :
  forall i, Str.rfind "." s = Some i ->
            exists t, Str.drop i s = String "." t /\ has_dot t = false.
Proof.
  induction s as [|c s IH]; simpl; intros i; [discriminate|].
  destruct (Str.rfind "." s) as [j|] eqn:E.
  - intros H. inversion H; subst. simpl. now apply IH.
  - destruct (Ascii.eqb_spec c ".") as [->|]; [|discriminate].
    intros H. inversion H; subst. exists s. split; [reflexivity|].
    now apply rfind_None_no_dot.
Qed.

Lemma stem_suffix_append (rel : string) :
  (path_stem rel ++ path_suffix rel)%string = path_name rel.
Proof.
  unfold path_stem, path_suffix.
  destruct (suffix_index (path_name rel)) as [i|];
    [apply take_drop | apply append_empty_r].
Qed.

(** X12. The stem and the suffix of a path split its last component; a
    suffix, when there is one, is a dot followed by at least one character
    and holds no other dot, and the stem before it is not empty. *)
Theorem stem_suffix_split (rel : string) :
  (path_stem rel ++ path_suffix rel)%string = path_name rel /\
  (path_suffix rel <> "" ->
   path_stem rel <> "" /\
   exists t, path_suffix rel = String "." t /\ t <> "" /\ has_dot t = false).
Proof.
  unfold path_stem, path_suffix.
  destruct (suffix_index (path_name rel)) as [i|] eqn:E.
  - split; [apply take_drop|]. intros _.
    unfold suffix_index in E.
    destruct (Str.rfind "." (path_name rel)) as [j|] eqn:Ej; [|discriminate].
    destruct ((0 <? j) && (j <? String.length (path_name rel) - 1)) eqn:Eb;
      [|discriminate].
    inversion E; subst j. apply andb_true_iff in Eb. destruct Eb as [H0 H1].
    apply Nat.ltb_lt in H0, H1.
    split.
    + destruct i as [|i]; [lia|].
      destruct (path_name rel); [simpl in H1; lia | discriminate].
    + destruct (rfind_Some_drop _ Ej) as (t & Ht & Hd).
      exists t. repeat split; try assumption.
      intros ->. pose proof (length_drop i (path_name rel)) as Hl.
      rewrite Ht in Hl. simpl in Hl. lia.
  - split; [apply append_empty_r | intros H; congruence].
Qed.

(** ** The file name is never a folder name *)

Fixpoint last_char (s : string) : option ascii :=
  match s with
  | EmptyString => None
  | String c EmptyString => Some c
  | String _ s' => last_char s'
  end.

Lemma last_char_cons (c : ascii) (s : string) :
  s <> "" -> last_char (String c s) = last_char s.
Proof. destruct s; [congruence | reflexivity]. Qed.

Lemma last_char_Some_nonempty (s : string) (c : ascii) :
  last_char s = Some c -> s <> "".
Proof. intros H ->. discriminate. Qed.

Lemma last_char_app (a b : string) :
  b <> "" -> last_char (a ++ b) = last_char b.
Proof.
  intros Hb. induction a as [|c a IH]; [reflexivity|].
  simpl append. rewrite last_char_cons; [assumption|].
  destruct a; simpl; [assumption | discriminate].
Qed.

Lemma sub_runs_cons (r : bool) (x : ascii) (s : string) :
  sub_runs r (String x s) =
  if is_slug_char x then String x (sub_runs false s)
  else if r then sub_runs true s
  else String "_" (sub_runs true s).
Proof. reflexivity. Qed.

Lemma last_char_sub_runs (s : string) (c : ascii) :
  is_slug_char c = true -> last_char s = Some c ->
  forall r, last_char (sub_runs r s) = Some c.
Proof.
  intros Hc. induction s as [|x s IH]; intros H r; [discriminate|].
  destruct s as [|y s].
  - inversion H; subst x. simpl. now rewrite Hc.
  - rewrite last_char_cons in H by discriminate.
    rewrite sub_runs_cons.
    destruct (is_slug_char x); [|destruct r].
    + rewrite last_char_cons; [now apply IH|].
      eapply last_char_Some_nonempty. now apply IH.
    + now apply IH.
    + rewrite last_char_cons; [now apply IH|].
      eapply last_char_Some_nonempty. now apply IH.
Qed.

Lemma last_char_lstrip (s : string) (c : ascii) :
  Ascii.eqb c "_" = false -> last_char s = Some c ->
  last_char (Str.lstrip "_" s) = Some c.
Proof.
  intros Hc. induction s as [|x s IH]; intros H; [discriminate|].
  cbn [Str.lstrip]. destruct (Ascii.eqb x "_") eqn:Ex; [|assumption].
  destruct s as [|y s].
  - inversion H; subst x. congruence.
  - rewrite last_char_cons in H by discriminate. auto.
Qed.

Lemma last_char_rstrip (s : string) (c : ascii) :
  Ascii.eqb c "_" = false -> last_char s = Some c ->
  last_char (Str.rstrip "_" s) = Some c.
Proof.
  intros Hc. induction s as [|x s IH]; intros H; [discriminate|].
  rewrite rstrip_cons. destruct s as [|y s].
  - inversion H; subst x. simpl. now rewrite Hc.
  - rewrite last_char_cons in H by discriminate.
    specialize (IH H). pose proof (@last_char_Some_nonempty _ _ IH) as Hne.
    destruct (String.eqb_spec (Str.rstrip "_" (String y s)) "") as [E|_];
      [contradiction|].
    rewrite andb_false_r. now rewrite last_char_cons.
Qed.

Lemma last_char_slug (s : string) (c : ascii) :
  is_slug_char c = true -> last_char (lc s) = Some c ->
  last_char (slug s) = Some c.
Proof.
  intros Hc H. unfold slug, Str.strip.
  pose proof (slug_char_not_underscore _ Hc) as Hu.
  apply last_char_rstrip, last_char_lstrip; try assumption.
  now apply last_char_sub_runs.
Qed.

Lemma map_app (f : ascii -> ascii) (a b : string) :
  Str.map f (a ++ b) = (Str.map f a ++ Str.map f b)%string.
Proof. induction a as [|c a IH]; simpl; [reflexivity | now rewrite IH]. Qed.

(** the names the path classifiers look for among the segments *)
Definition FOLDER_NAMES : list string :=
  ["loop"; "loops"; "drums"; "breaks"; "claps"; "shakers"; "woodblock";
   "woodblck"].

Lemma audio_name_last_char (rel : string) :
  is_audio rel = true ->
  exists c, last_char (lc (path_name rel)) = Some c /\
            In c ["v"; "f"; "c"; "3"; "g"]%char.
Proof.
  intros H. unfold is_audio in H. apply mem_In in H.
  rewrite <- (stem_suffix_append rel). unfold lc, Str.lower. rewrite map_app.
  change (Str.map lower_char (path_suffix rel)) with (Str.lower (path_suffix rel)).
  simpl in H.
  repeat (destruct H as [H|H];
          [rewrite <- H; rewrite last_char_app by discriminate;
           eexists; split; [reflexivity | simpl; tauto]|]).
  contradiction.
Qed.

Lemma audio_name_not_folder (rel n : string) :
  is_audio rel = true -> In n FOLDER_NAMES -> slug (path_name rel) <> n.
Proof.
  intros Ha Hn E.
  destruct (@audio_name_last_char _ Ha) as (c & Hl & Hc).
  assert (Hs : is_slug_char c = true)
    by (simpl in Hc; repeat (destruct Hc as [<-|Hc]; [reflexivity|]); contradiction).
  apply (@last_char_slug _ _ Hs) in Hl. rewrite E in Hl.
  simpl in Hn, Hc.
  repeat (destruct Hn as [<-|Hn];
          [inversion Hl; subst c;
           repeat (destruct Hc as [Hc|Hc]; [discriminate|]); contradiction|]).
  contradiction.
Qed.

Lemma split_removelast (rel : string) :
  Str.split "/" rel = removelast (Str.split "/" rel) ++ [path_name rel].
Proof. apply app_removelast_last, split_nonempty. Qed.

Lemma detect_in_app (l1 l2 : list string) :
  detect_in (l1 ++ l2) = orelse (detect_in l1) (detect_in l2).
Proof.
  induction l1 as [|s l1 IH]; [reflexivity|]. cbn [app detect_in].
  destruct (table_find DRUM_LOOP_GROUPS (slug s)); [reflexivity | exact IH].
Qed.

(** X13. For a file that passes the extension filter the slug of the file
    name is none of loop, loops, drums, breaks, claps, shakers, woodblock,
    woodblck: [has_seg] for these names and [detect_drums_group] depend on
    the folders of the path alone. *)
Theorem classifiers_read_folders (rel : string) :
  is_audio rel = true ->
  (forall n, In n FOLDER_NAMES -> slug (path_name rel) <> n) /\
  (forall n, In n FOLDER_NAMES ->
     has_seg rel n
     = existsb (fun seg => String.eqb (slug seg) n)
               (removelast (Str.split "/" rel))) /\
  detect_drums_group rel = detect_in (removelast (Str.split "/" rel)).
Proof.
  intros Ha. split; [intros n Hn; now apply audio_name_not_folder|]. split.
  - intros n Hn. unfold has_seg. rewrite (split_removelast rel) at 1.
    rewrite existsb_app. cbn [existsb].
    destruct (String.eqb_spec (slug (path_name rel)) n) as [E|_].
    + destruct (@audio_name_not_folder _ _ Ha Hn E).
    + now rewrite !orb_false_r.
  - unfold detect_drums_group. rewrite (split_removelast rel) at 1.
    rewrite detect_in_app. cbn [detect_in].
    destruct (table_find DRUM_LOOP_GROUPS (slug (path_name rel))) as [g|] eqn:E.
    + apply table_find_group in E. destruct E as [_ Hk].
      exfalso. apply (@audio_name_not_folder rel (slug (path_name rel)) Ha);
        [|reflexivity].
      simpl in Hk |- *. tauto.
    + apply orelse_None_r.
Qed.

Lemma classifiers_read_folders_witness :
  detect_drums_group "drums/loops/Breaks_120.wav"
  = detect_in (removelast (Str.split "/" "drums/loops/Breaks_120.wav")).
Proof.
  apply (@classifiers_read_folders "drums/loops/Breaks_120.wav"). reflexivity.
Defined.

(** ** Shapes in the printed manifest *)

Definition jnonempty (v : jvalue) : Prop :=
  match v with
  | JStr _ => True
  | JList l => l <> []
  | JMap m => forall label l, Dict.get m label = Some l -> l <> []
  end.

Lemma sorted_strings_nonempty (l : list string) :
  l <> [] -> sorted_strings l <> [].
Proof.
  intros Hl E. apply Hl. apply Permutation_nil.
  rewrite <- E. apply Permutation_sym, sorted_perm.
Qed.

Lemma jnonempty_sort_bucket (bk : bucket) :
  wf_bucket bk -> nonempty_lists bk -> jnonempty (sort_bucket bk).
Proof.
  destruct bk as [l|m]; simpl.
  - intros _. apply sorted_strings_nonempty.
  - intros [Hnd _] Hn label l. rewrite get_sort_map by assumption.
    destruct (Dict.get m label) as [l0|] eqn:E; [|discriminate].
    intros H. inversion H. apply sorted_strings_nonempty. eauto.
Qed.

Lemma pitched_decision (d : decision) (k : string) :
  (target d = k /\ required_shape d = PitchMap) <->
  exists pitch, d = PitchedShot k pitch.
Proof.
  split.
  - intros [<- H]. destruct d; try discriminate. simpl. eauto.
  - intros (pitch & ->). now split.
Qed.

(** X15. In a printed manifest the value of a key is a pitch map exactly
    when some file of the tree is a pitched one-shot of that bucket, and no
    list, top-level or under a label, is empty. *)
Theorem manifest_shapes
  (prefix_arg : option string) (root_name base : string) (tree : list string)
  (man : manifest) :
  main prefix_arg root_name base tree = Ok man ->
  let prefix := resolve_prefix prefix_arg root_name in
  (forall k,
     (exists m, Dict.get man k = Some (JMap m)) <->
     (exists x pitch, In x tree /\ is_audio x = true /\
                      classify prefix x (path_stem x) = PitchedShot k pitch)) /\
  (forall k v, Dict.get man k = Some v -> jnonempty v).
Proof.
  intros H. unfold main in H. cbv zeta.
  set (prefix := resolve_prefix prefix_arg root_name) in *.
  destruct (run prefix [] (walk_audio tree)) as [b|e] eqn:E; [|discriminate].
  inversion H; subst man. clear H.
  assert (Hwf : wf_buckets b) by (eapply wf_run; [apply wf_empty | exact E]).
  assert (Ht : tracks (contribs prefix (walk_audio tree)) b).
  { apply tracks_audio_run; [|exact E]. intros p Hp. now apply walk_audio_In in Hp. }
  split.
  - intros k. rewrite get_assemble by assumption. specialize (Ht k).
    destruct (Dict.get b k) as [bk|] eqn:Eb.
    + destruct Ht as (_ & Hsh & _). split.
      * intros (m & Hm). destruct bk as [l|m0]; [discriminate|].
        destruct (proj1 Hsh eq_refl) as (d & x & Hc & Hd).
        apply pitched_decision in Hd. destruct Hd as (pitch & ->).
        apply In_contribs in Hc. destruct Hc as [Hin Hcl].
        apply walk_audio_In in Hin. destruct Hin as [Hin Ha].
        exists x, pitch. repeat split; [assumption.. | now symmetry].
      * intros (x & pitch & Hin & Ha & Hcl).
        assert (Hs : shape_of bk = PitchMap).
        { apply Hsh. exists (PitchedShot k pitch), x. repeat split.
          apply In_contribs. split; [now apply walk_audio_In | now symmetry]. }
        destruct bk as [l|m0]; [discriminate|]. simpl. eauto.
    + split.
      * intros (m & Hm). destruct (String.eqb "_base" k); discriminate.
      * intros (x & pitch & Hin & Ha & Hcl). exfalso.
        apply (Ht (PitchedShot k pitch) x); [|reflexivity].
        apply In_contribs. split; [now apply walk_audio_In | now symmetry].
  - intros k v. rewrite get_assemble by assumption. specialize (Ht k).
    destruct (Dict.get b k) as [bk|] eqn:Eb.
    + intros Hv. inversion Hv. destruct Ht as (Hn & _).
      apply jnonempty_sort_bucket; [exact (@wf_get _ _ _ Hwf Eb) | assumption].
    + destruct (String.eqb "_base" k); intros Hv; inversion Hv. exact I.
Qed.

Lemma manifest_shapes_witness :
  jnonempty (JMap [("c3", ["Bass/Bass_C3.wav"]); ("unpitched", ["Bass/thud.wav"])]).
Proof.
  apply (proj2 (@manifest_shapes (Some "p") "root" "b"
                  ["Bass/Bass_C3.wav"; "notes.txt"; "Bass/thud.wav"] _ eq_refl)
           "p_bass").
  reflexivity.
Defined.

(** ** Instances *)

Lemma main_order_independent_witness :
  [("_base", JStr "b");
   ("p_120_cm", JList ["loops/Piano_120_cm.wav"]);
   ("p_bass", JMap [("c3", ["Bass/Bass_C3.wav"]); ("unpitched", ["Bass/thud.wav"])])]
  =
  [("_base", JStr "b");
   ("p_120_cm", JList ["loops/Piano_120_cm.wav"]);
   ("p_bass", JMap [("c3", ["Bass/Bass_C3.wav"]); ("unpitched", ["Bass/thud.wav"])])].
Proof.
  apply (@main_order_independent (Some "p") "root" "b"
           ["Bass/thud.wav"; "loops/Piano_120_cm.wav"; "Bass/Bass_C3.wav"]
           ["loops/Piano_120_cm.wav"; "Bass/thud.wav"; "Bass/Bass_C3.wav"]).
  - apply perm_swap.
  - vm_compute. reflexivity.
  - vm_compute. reflexivity.
Defined.

Lemma manifest_lists_audio_files_witness :
  exists x,
    In x ["Bass/c3~.wav"; "notes.txt"; "Bass/c3e.wav"] /\
    is_audio x = true /\
    "Bass/c3e.wav" = merge_tilde x /\
    "p_bass" = target (classify "p" (merge_tilde x) (path_stem x)) /\
    forall m,
      JMap [("c3", ["Bass/c3e.wav"]); ("c4", ["Bass/c3e.wav"])] = JMap m ->
      "c3" = slot (classify "p" (merge_tilde x) (path_stem x)).
Proof.
  apply (proj2 (@manifest_lists_audio_files merge_tilde merge_tilde_dot
                  (Some "p") "root" "b"
                  ["Bass/c3~.wav"; "notes.txt"; "Bass/c3e.wav"] _ eq_refl)).
  - reflexivity.
  - simpl. eexists. split; [reflexivity | now left].
Defined.

Lemma run_evolves_witness :
  evolves (Some (BList ["Bass/thud.wav"]))
          (Some (BMap [("unpitched", ["Bass/thud.wav"]); ("c3", ["Bass/Bass_C3.wav"])])).
Proof.
  exact (@run_evolves "p" ["Bass/Bass_C3.wav"]
           [("p_bass", BList ["Bass/thud.wav"])]
           [("p_bass", BMap [("unpitched", ["Bass/thud.wav"]);
                             ("c3", ["Bass/Bass_C3.wav"])])]
           "p_bass" eq_refl).
Defined.
